(** * Vertex Block Descent integrator (pbat::gpu::vbd::VbdImpl)

    A shallow embedding of [source/pbat/gpu/vbd/VbdImpl.cu], of
    [pba::physics::LameCoefficients], of
    [pbat::gpu::geometry::BvhQueryImpl] ([Build] and [DetectOverlaps]) and of
    [pba::fem::Mesh] with its [NodalKey], with the properties of the
    integrator's time-stepping protocol, of the sort of the bounding boxes
    and of the sharing of mesh nodes stated and proved over it.

    Conventions.
    - [GpuScalar] arithmetic is kept abstract (class [GpuScalarOps]): every
      identity below is an identity between the very expressions the code
      evaluates, so it holds for IEEE binary32 as well as for the exact
      rationals used in the worked examples (instance [Exact.QOps]).
    - [GpuIndex] and the C++ [int] loop counters are [Z].
    - A [common::Buffer<T, 3>] is three device arrays, one per dimension;
      a [common::Buffer<T>] is one device array.
    - Member functions are computations in a state-and-exception monad over
      the object ([M]); the state survives a [throw], so that a partial
      mutation before a failure would be visible.
    - Everything enqueued on [mStream] executes in stream order; the model
      runs it sequentially and records each enqueued operation in a trace. *)

From Stdlib Require Import ZArith QArith String DecimalString Sorted.
From stdpp Require Import base tactics option list.

Set Default Proof Using "Type".
Local Open Scope Z_scope.

(** ** Scalars *)

(** The operations the sources apply to [GpuScalar] (and to [Scalar] on the
    host).  [lit m e] is the literal [m]e[e], e.g. [GpuScalar{1e-10}] is
    [lit 1 (-10)]; [of_index] is [static_cast<GpuScalar>] of an integer. *)
Class GpuScalarOps (T : Type) := {
  lit : Z → Z → T;
  of_index : Z → T;
  add : T → T → T;
  sub : T → T → T;
  mul : T → T → T;
  div : T → T → T;
  ltb : T → T → bool;
}.

Declare Scope scalar_scope.
Delimit Scope scalar_scope with S.
Infix "+" := add : scalar_scope.
Infix "-" := sub : scalar_scope.
Infix "*" := mul : scalar_scope.
Infix "/" := div : scalar_scope.
Notation "x <? y" := (ltb x y) : scalar_scope.
Notation "x >? y" := (ltb y x) : scalar_scope.

(** ** Exceptions and the object monad *)

Inductive exception : Type :=
| invalid_argument (what : string).

(** A member function over an object of type [Σ]: it returns a value or
    throws, and leaves the object in some state either way. *)
Definition M (Σ A : Type) : Type := Σ → (exception + A) * Σ.

Definition ret {Σ A} (a : A) : M Σ A := λ σ, (inr a, σ).

Definition bind {Σ A B} (m : M Σ A) (f : A → M Σ B) : M Σ B :=
  λ σ, match m σ with
       | (inr a, σ') => f a σ'
       | (inl e, σ') => (inl e, σ')
       end.

Definition throw {Σ A} (e : exception) : M Σ A := λ σ, (inl e, σ).
Definition gets {Σ A} (f : Σ → A) : M Σ A := λ σ, (inr (f σ), σ).
Definition modify {Σ} (f : Σ → Σ) : M Σ unit := λ σ, (inr tt, f σ).

Declare Scope obj_scope.
Delimit Scope obj_scope with obj.
Notation "x <- m ;; k" := (bind m (λ x, k))
  (at level 100, m at next level, right associativity) : obj_scope.
Notation "m ;; k" := (bind m (λ _, k))
  (at level 100, right associativity) : obj_scope.

(** Lifting of a pure, fallible computation. *)
Definition lift {Σ A} (r : exception + A) : M Σ A := λ σ, (r, σ).

(** [for (auto k = 0; k < n; ++k) body], threading the loop-carried
    locals [a]; a non-positive bound runs the body zero times. *)
Fixpoint for_loop {Σ A} (n : nat) (k : Z) (body : Z → A → M Σ A) (a : A) : M Σ A :=
  match n with
  | O => ret a
  | S n' => bind (body k a) (for_loop n' (k + 1) body)
  end.

Definition for_range {Σ A} (n : Z) (body : Z → A → M Σ A) (a : A) : M Σ A :=
  for_loop (Z.to_nat n) 0 body a.

(** Range-based [for (auto& e : range) body]. *)
Fixpoint for_in {Σ E} (range : list E) (body : E → M Σ unit) : M Σ unit :=
  match range with
  | [] => ret tt
  | e :: rest => bind (body e) (λ _, for_in rest body)
  end.

(** [thrust::for_each] over the counting range [0, n): the functor of index
    [i] is a transformation of device memory; the functors of the integrator
    touch only entry [i] of the arrays they write, so running them in index
    order is one of the equivalent schedules. *)
Definition for_each {Σ} (n : nat) (f : nat → Σ → Σ) (σ : Σ) : Σ :=
  foldl (λ σ' i, f i σ') σ (seq 0 n).

(** [returns m σ Q]: from [σ] the computation [m] returns normally (it does
    not throw), with a value and a final state satisfying [Q]. *)
Definition returns {Σ A} (m : M Σ A) (σ : Σ) (Q : A → Σ → Prop) : Prop :=
  ∃ a σ', m σ = (inr a, σ') ∧ Q a σ'.

(** ** Small vectors and device buffers *)

Section Buffers.
Context {GpuScalar : Type} {ops : GpuScalarOps GpuScalar}.
Local Open Scope scalar_scope.

(** [mini::SVector<GpuScalar, 3>]: a value, held in registers. *)
Definition Vec3 : Type := GpuScalar * GpuScalar * GpuScalar.

Definition vadd (a b : Vec3) : Vec3 :=
  let '(a0, a1, a2) := a in let '(b0, b1, b2) := b in (a0 + b0, a1 + b1, a2 + b2).
Definition vsub (a b : Vec3) : Vec3 :=
  let '(a0, a1, a2) := a in let '(b0, b1, b2) := b in (a0 - b0, a1 - b1, a2 - b2).
Definition vscale (s : GpuScalar) (a : Vec3) : Vec3 :=
  let '(a0, a1, a2) := a in (s * a0, s * a1, s * a2).
Definition vdiv (a : Vec3) (s : GpuScalar) : Vec3 :=
  let '(a0, a1, a2) := a in (a0 / s, a1 / s, a2 / s).

(** Modelled from the spec: [common::Buffer<T, 3>], declared in
    [pbat/gpu/common/Buffer.cuh] (not among the sources): a device buffer of
    fixed capacity (section 9), here one device array per dimension, as the
    loops over [Dimensions()] and the indexing [buf[d]] of [Step] use it.
    [Buffer3_n], [Size3] and [SetConstant3] stand for its constructor of a
    given size, [Size()] and [SetConstant(v)]; a [common::Buffer<T>] is a
    single array, a list. *)
Record Buffer3 (A : Type) : Type := mkBuffer3 { d0 : list A; d1 : list A; d2 : list A }.
Global Arguments mkBuffer3 {A} _ _ _.
Global Arguments d0 {A} _.
Global Arguments d1 {A} _.
Global Arguments d2 {A} _.

(** [Buffer(n)]: [thrust::device_vector<T>(n)] value-initialises. *)
Definition Buffer3_n {A} (zero : A) (n : nat) : Buffer3 A :=
  mkBuffer3 (replicate n zero) (replicate n zero) (replicate n zero).

(** [Buffer::Size()]: the length of each dimension (that of the first). *)
Definition Size3 {A} (b : Buffer3 A) : nat := length (d0 b).

Definition SetConstant3 {A} (v : A) (b : Buffer3 A) : Buffer3 A :=
  mkBuffer3 (replicate (length (d0 b)) v) (replicate (length (d1 b)) v)
            (replicate (length (d2 b)) v).

Definition SetConstant {A} (v : A) (b : list A) : list A := replicate (length b) v.

(** Every dimension of the buffer holds [n] entries. *)
Definition sized3 {A} (n : nat) (b : Buffer3 A) : Prop :=
  length (d0 b) = n ∧ length (d1 b) = n ∧ length (d2 b) = n.

(** Modelled from the spec: [mini::FromBuffers<3,1>(buf, i)] and
    [mini::ToBuffers(v, buf, i)] of [pbat/math/linalg/mini] (not among the
    sources).  As every functor of [Step] uses them, [FromBuffers] gathers
    entry [i] of the three arrays into a vector value and [ToBuffers]
    scatters a vector value to entry [i].  An index past the end is undefined
    behaviour on the device; here such a read yields zeros and such a write
    is dropped, and the statements below keep all indices in range. *)
Definition FromBuffers (buf : Buffer3 GpuScalar) (i : nat) : Vec3 :=
  (default (lit 0 0) (d0 buf !! i), default (lit 0 0) (d1 buf !! i),
   default (lit 0 0) (d2 buf !! i)).

Definition ToBuffers (v : Vec3) (buf : Buffer3 GpuScalar) (i : nat) : Buffer3 GpuScalar :=
  let '(v0, v1, v2) := v in
  mkBuffer3 (<[i := v0]> (d0 buf)) (<[i := v1]> (d1 buf)) (<[i := v2]> (d2 buf)).

(** [cuda::memory::async::copy(dst, src, n * sizeof(T), stream)]: the first
    [n] entries of [dst] are overwritten by those of [src]. *)
Definition memcpy {A} (dst src : list A) (n : nat) : list A :=
  take n src ++ drop n dst.

(** The buffer left by a parallel loop that writes the vector [h i] to
    entry [i], for [i] in [0, n). *)
Definition scatter (n : nat) (h : nat → Vec3) (buf : Buffer3 GpuScalar) : Buffer3 GpuScalar :=
  foldl (λ b i, ToBuffers (h i) b i) buf (seq 0 n).

(** The buffer left by copying, dimension by dimension, the first
    [Size()] entries of [src] over [dst]. *)
Definition copy3 {A} (dst src : Buffer3 A) : Buffer3 A :=
  mkBuffer3 (memcpy (d0 dst) (d0 src) (Size3 src)) (memcpy (d1 dst) (d1 src) (Size3 src))
            (memcpy (d2 dst) (d2 src) (Size3 src)).

Definition same_size {A} (b b' : Buffer3 A) : Prop :=
  length (d0 b) = length (d0 b') ∧ length (d1 b) = length (d1 b') ∧
  length (d2 b) = length (d2 b').

(** ** The kernels of [pbat/sim/vbd/Kernels.h] *)

(** Modelled from the spec: [kernels::InertialTarget] (section 4.2, step 2),
    [xtilde = xt + dt*vt + dt2*aext]; the header is not among the sources. *)
Definition InertialTarget (xt vt aext : Vec3) (dt dt2 : GpuScalar) : Vec3 :=
  vadd (vadd xt (vscale dt vt)) (vscale dt2 aext).

(** Modelled from the spec: [kernels::IntegrateVelocity] (section 4.2,
    step 5), [v = (x - xt) / dt]; the header is not among the sources. *)
Definition IntegrateVelocity (xt x : Vec3) (dt : GpuScalar) : Vec3 :=
  vdiv (vsub x xt) dt.

(** Modelled from the spec: [kernels::ChebyshevOmega] (sections 4.3 and 4.5),
    the three-regime schedule; the header is not among the sources. *)
Definition ChebyshevOmega (k : Z) (rho2 omega : GpuScalar) : GpuScalar :=
  if Z.eqb k 0 then lit 1 0
  else if Z.eqb k 1 then lit 2 0 / (lit 2 0 - rho2)
  else lit 4 0 / (lit 4 0 - rho2 * omega).

(** Modelled from the spec: [kernels::ChebyshevUpdate] (section 4.3), which
    takes the three vectors by reference: for [k >= 2] the iterate becomes
    [omega*(xk - xkm2) + xkm2], then the history is rolled.  The result is
    the triple of the updated arguments [(xkm2, xkm1, xk)]. *)
Definition ChebyshevUpdate (k : Z) (omega : GpuScalar) (xkm2 xkm1 xk : Vec3)
  : Vec3 * Vec3 * Vec3 :=
  let xk' := if Z.ltb 1 k then vadd (vscale omega (vsub xk xkm2)) xkm2 else xk in
  (xkm1, xk', xk').

End Buffers.

Arguments Vec3 _ : clear implicits.

(** ** Host matrices and geometric primitives *)

(** A dense matrix received from the host ([GpuMatrixX], [GpuIndexMatrixX]),
    as its list of rows. *)
Definition Matrix (A : Type) : Type := list (list A).
Definition cols {A} (m : Matrix A) : nat := length (default [] (m !! 0%nat)).
Definition row {A} (m : Matrix A) (d : nat) : list A := default [] (m !! d).

Definition dec (n : nat) : string := NilEmpty.string_of_uint (Nat.to_uint n).

Module geometry.
Section Primitives.
Context {GpuScalar : Type} {ops : GpuScalarOps GpuScalar}.
Local Open Scope scalar_scope.

(** Modelled from the spec: [geometry::PointsImpl] (declared outside the
    sources): the positions buffer [x], one array per row of the 3xN input
    (section 6). *)
Record PointsImpl : Type := mkPointsImpl { x : Buffer3 GpuScalar }.
Definition PointsImpl_init (Xin : Matrix GpuScalar) : PointsImpl :=
  mkPointsImpl (mkBuffer3 (row Xin 0) (row Xin 1) (row Xin 2)).
Definition NumberOfPoints (P : PointsImpl) : nat := Size3 (x P).

(** Modelled from the spec: [geometry::SimplicesImpl] (declared outside the
    sources): the index buffer [inds], one array per row of the input, and
    the simplex type, the number of vertices of a simplex. *)
Record SimplicesImpl : Type := mkSimplicesImpl { eSimplexType : Z; inds : Matrix Z }.
Definition SimplicesImpl_init (C : Matrix Z) : SimplicesImpl :=
  mkSimplicesImpl (Z.of_nat (length C)) C.
Definition NumberOfSimplices (S : SimplicesImpl) : nat := cols (inds S).

(** [BvhQueryImpl]: the members set up by the constructor at line 22. *)
Record BvhQueryImpl : Type := mkBvhQueryImpl {
  simplex : list Z;
  morton : list Z;
  b : Buffer3 GpuScalar;
  e : Buffer3 GpuScalar;
  overlaps : list (Z * Z);
}.

Definition BvhQueryImpl_init (nPrimitives nOverlaps : nat) : BvhQueryImpl :=
  mkBvhQueryImpl (replicate nPrimitives 0%Z) (replicate nPrimitives 0%Z)
    (Buffer3_n (lit 0 0) nPrimitives) (Buffer3_n (lit 0 0) nPrimitives)
    (replicate nOverlaps (0%Z, 0%Z)).

(** Line 102. *)
Definition NumberOfAllocatedBoxes (q : BvhQueryImpl) : nat := length (simplex q).

(** [BvhImpl], of which [DetectOverlaps] reads the members below. *)
Record BvhImpl : Type := mkBvhImpl {
  bvh_simplex : list Z;
  bvh_b : Buffer3 GpuScalar;
  bvh_e : Buffer3 GpuScalar;
  bvh_child : Matrix Z;
}.

(** The functors of [BvhQueryImplKernels.cuh], which is not among the
    sources; they are parameters of the model.
    - [FComputeAabb]: the box (lower, upper) of simplex [s].
    - [FComputeMortonCode]: the Morton code of a box.
    - [FDetectOverlaps]: the overlap list after query [s] has run. *)
Class BvhQueryImplKernels : Type := {
  FComputeAabb :
    Buffer3 GpuScalar → Matrix Z → Z → GpuScalar → nat → Vec3 GpuScalar * Vec3 GpuScalar;
  FComputeMortonCode : Vec3 GpuScalar → Vec3 GpuScalar → Z;
  FDetectOverlaps :
    Buffer3 GpuScalar → BvhQueryImpl → Matrix Z → BvhImpl → Matrix Z → nat → list (Z * Z);
}.
Context {kernels : BvhQueryImplKernels}.

(** The device calls of [Build] and [DetectOverlaps], in program order. *)
Inductive Launch : Type :=
| ForEachComputeAabb (n : nat)
| ForEachComputeMortonCode (n : nat)
| Sequence (n : nat)
| StableSortByKey (n : nat)
| ForEachDetectOverlaps (n : nat).

Record Query : Type := mkQuery { this : BvhQueryImpl; launches : list Launch }.

Definition launch (l : Launch) : M Query unit :=
  modify (λ r, mkQuery (this r) (launches r ++ [l])).
Definition on_device (f : BvhQueryImpl → BvhQueryImpl) : M Query unit :=
  modify (λ r, mkQuery (f (this r)) (launches r)).

Definition set_boxes (b' e' : Buffer3 GpuScalar) (q : BvhQueryImpl) : BvhQueryImpl :=
  mkBvhQueryImpl (simplex q) (morton q) b' e' (overlaps q).
Definition set_morton (m : list Z) (q : BvhQueryImpl) : BvhQueryImpl :=
  mkBvhQueryImpl (simplex q) m (b q) (e q) (overlaps q).
Definition set_simplex (s : list Z) (q : BvhQueryImpl) : BvhQueryImpl :=
  mkBvhQueryImpl s (morton q) (b q) (e q) (overlaps q).
Definition set_overlaps (o : list (Z * Z)) (q : BvhQueryImpl) : BvhQueryImpl :=
  mkBvhQueryImpl (simplex q) (morton q) (b q) (e q) o.

(** [thrust::stable_sort_by_key]: insertion before the first entry whose
    key is not smaller, taking the entries from the last to the first, keeps
    entries of equal key in their order. *)
Fixpoint insert_by_key {A} (kv : Z * A) (sorted : list (Z * A)) : list (Z * A) :=
  match sorted with
  | [] => [kv]
  | h :: t => if Z.leb (fst kv) (fst h) then kv :: sorted else h :: insert_by_key kv t
  end.
Definition stable_sort_by_key {A} (l : list (Z * A)) : list (Z * A) :=
  foldr insert_by_key [] l.

(** The zip iterator over [b], [e] and [simplex]. *)
Definition zip7 (q : BvhQueryImpl) : list (Vec3 GpuScalar * Vec3 GpuScalar * Z) :=
  zip_with (λ i s, (FromBuffers (b q) i, FromBuffers (e q) i, s))
    (seq 0 (length (simplex q))) (simplex q).

Definition unzip7 (vals : list (Vec3 GpuScalar * Vec3 GpuScalar * Z)) (q : BvhQueryImpl)
  : BvhQueryImpl :=
  foldl (λ q' iv,
           let '(i, (lo, hi, s)) := iv in
           set_simplex (<[i := s]> (simplex q'))
             (set_boxes (ToBuffers lo (b q') i) (ToBuffers hi (e q') i) q'))
        q (zip (seq 0 (length vals)) vals).

Definition Build_what (allocated n : nat) : string :=
  ("Allocated memory for " ++ dec allocated ++ " boxes, but received " ++ dec n
   ++ " simplices.")%string.

Local Open Scope obj_scope.

(** [BvhQueryImpl::Build(P, S, expansion)], lines 27-66. *)
Definition Build (P : PointsImpl) (S : SimplicesImpl) (expansion : GpuScalar)
  : M Query unit :=
  let n := NumberOfSimplices S in
  allocated <- gets (λ r, NumberOfAllocatedBoxes (this r)) ;;
  if Nat.ltb allocated n then
    throw (invalid_argument (Build_what allocated n))
  else
    launch (ForEachComputeAabb n) ;;
    on_device (for_each n (λ s q,
      let '(lo, hi) := FComputeAabb (x P) (inds S) (eSimplexType S) expansion s in
      set_boxes (ToBuffers lo (b q) s) (ToBuffers hi (e q) s) q)) ;;
    launch (ForEachComputeMortonCode n) ;;
    on_device (for_each n (λ s q,
      set_morton (<[s := FComputeMortonCode (FromBuffers (b q) s) (FromBuffers (e q) s)]>
                    (morton q)) q)) ;;
    size <- gets (λ r, length (simplex (this r))) ;;
    launch (Sequence size) ;;
    on_device (λ q, set_simplex (Z.of_nat <$> seq 0 (length (simplex q))) q) ;;
    launch (StableSortByKey n) ;;
    on_device (λ q,
      let sorted := stable_sort_by_key (zip (take n (morton q)) (take n (zip7 q))) in
      unzip7 (sorted.*2) (set_morton (sorted.*1 ++ drop n (morton q)) q)).

Definition DetectOverlaps_what (allocated n : nat) : string :=
  ("Allocated memory for " ++ dec allocated ++ " boxes, but received " ++ dec n
   ++ " query simplices.")%string.

(** [BvhQueryImpl::DetectOverlaps(P, S1, S2, bvh)], lines 68-100. *)
Definition DetectOverlaps (P : PointsImpl) (S1 S2 : SimplicesImpl) (bvh : BvhImpl)
  : M Query unit :=
  let nQueries := NumberOfSimplices S1 in
  allocated <- gets (λ r, NumberOfAllocatedBoxes (this r)) ;;
  if Nat.ltb allocated nQueries then
    throw (invalid_argument (DetectOverlaps_what allocated nQueries))
  else
    launch (ForEachDetectOverlaps nQueries) ;;
    on_device (for_each nQueries (λ s q,
      set_overlaps (FDetectOverlaps (x P) q (inds S1) bvh (inds S2) s) q)).

End Primitives.

Arguments PointsImpl _ : clear implicits.
Arguments BvhQueryImpl _ : clear implicits.
Arguments BvhImpl _ : clear implicits.
Arguments BvhQueryImplKernels _ : clear implicits.
Arguments Query _ : clear implicits.

End geometry.

(** ** The integrator object *)

Module vbd.
Import geometry.
Section Integrator.
Context {GpuScalar : Type} {ops : GpuScalarOps GpuScalar}.
Local Open Scope scalar_scope.

(** Modelled from the spec: [EInitializationStrategy], the configuration
    enum of section 4.2, step 3 (declared outside the sources, which name
    only [AdaptiveVbd]): pure previous position, inertial extrapolation,
    adaptive blend. *)
Inductive EInitializationStrategy : Type :=
| Position
| Inertia
| AdaptiveVbd.

Record VbdImpl : Type := mkVbdImpl {
  X : PointsImpl GpuScalar;
  V : SimplicesImpl;
  F : SimplicesImpl;
  T : SimplicesImpl;
  mPositionsAtT : Buffer3 GpuScalar;
  mInertialTargetPositions : Buffer3 GpuScalar;
  mChebyshevPositionsM2 : Buffer3 GpuScalar;
  mChebyshevPositionsM1 : Buffer3 GpuScalar;
  mVelocitiesAtT : Buffer3 GpuScalar;
  mVelocities : Buffer3 GpuScalar;
  mExternalAcceleration : Buffer3 GpuScalar;
  mMass : list GpuScalar;
  mQuadratureWeights : list GpuScalar;
  mShapeFunctionGradients : list GpuScalar;
  mLameCoefficients : list GpuScalar;
  mDetHZero : GpuScalar;
  mVertexTetrahedronPrefix : list Z;
  mVertexTetrahedronNeighbours : list Z;
  mVertexTetrahedronLocalVertexIndices : list Z;
  mRayleighDamping : GpuScalar;
  mCollisionPenalty : GpuScalar;
  mMaxCollidingTrianglesPerVertex : Z;
  mCollidingTriangles : list Z;
  mCollidingTriangleCount : list Z;
  mPartitions : list (list Z);
  mInitializationStrategy : EInitializationStrategy;
  mGpuThreadBlockSize : Z;
}.

(** Assignments to single members. *)
Definition set_x (b : Buffer3 GpuScalar) (s : VbdImpl) : VbdImpl :=
  mkVbdImpl (mkPointsImpl b) (V s) (F s) (T s) (mPositionsAtT s)
    (mInertialTargetPositions s) (mChebyshevPositionsM2 s) (mChebyshevPositionsM1 s)
    (mVelocitiesAtT s) (mVelocities s) (mExternalAcceleration s) (mMass s)
    (mQuadratureWeights s) (mShapeFunctionGradients s) (mLameCoefficients s)
    (mDetHZero s) (mVertexTetrahedronPrefix s) (mVertexTetrahedronNeighbours s)
    (mVertexTetrahedronLocalVertexIndices s) (mRayleighDamping s) (mCollisionPenalty s)
    (mMaxCollidingTrianglesPerVertex s) (mCollidingTriangles s)
    (mCollidingTriangleCount s) (mPartitions s) (mInitializationStrategy s)
    (mGpuThreadBlockSize s).

Definition set_mPositionsAtT (b : Buffer3 GpuScalar) (s : VbdImpl) : VbdImpl :=
  mkVbdImpl (X s) (V s) (F s) (T s) b
    (mInertialTargetPositions s) (mChebyshevPositionsM2 s) (mChebyshevPositionsM1 s)
    (mVelocitiesAtT s) (mVelocities s) (mExternalAcceleration s) (mMass s)
    (mQuadratureWeights s) (mShapeFunctionGradients s) (mLameCoefficients s)
    (mDetHZero s) (mVertexTetrahedronPrefix s) (mVertexTetrahedronNeighbours s)
    (mVertexTetrahedronLocalVertexIndices s) (mRayleighDamping s) (mCollisionPenalty s)
    (mMaxCollidingTrianglesPerVertex s) (mCollidingTriangles s)
    (mCollidingTriangleCount s) (mPartitions s) (mInitializationStrategy s)
    (mGpuThreadBlockSize s).

Definition set_mInertialTargetPositions (b : Buffer3 GpuScalar) (s : VbdImpl) : VbdImpl :=
  mkVbdImpl (X s) (V s) (F s) (T s) (mPositionsAtT s)
    b (mChebyshevPositionsM2 s) (mChebyshevPositionsM1 s)
    (mVelocitiesAtT s) (mVelocities s) (mExternalAcceleration s) (mMass s)
    (mQuadratureWeights s) (mShapeFunctionGradients s) (mLameCoefficients s)
    (mDetHZero s) (mVertexTetrahedronPrefix s) (mVertexTetrahedronNeighbours s)
    (mVertexTetrahedronLocalVertexIndices s) (mRayleighDamping s) (mCollisionPenalty s)
    (mMaxCollidingTrianglesPerVertex s) (mCollidingTriangles s)
    (mCollidingTriangleCount s) (mPartitions s) (mInitializationStrategy s)
    (mGpuThreadBlockSize s).

Definition set_mVelocitiesAtT (b : Buffer3 GpuScalar) (s : VbdImpl) : VbdImpl :=
  mkVbdImpl (X s) (V s) (F s) (T s) (mPositionsAtT s)
    (mInertialTargetPositions s) (mChebyshevPositionsM2 s) (mChebyshevPositionsM1 s)
    b (mVelocities s) (mExternalAcceleration s) (mMass s)
    (mQuadratureWeights s) (mShapeFunctionGradients s) (mLameCoefficients s)
    (mDetHZero s) (mVertexTetrahedronPrefix s) (mVertexTetrahedronNeighbours s)
    (mVertexTetrahedronLocalVertexIndices s) (mRayleighDamping s) (mCollisionPenalty s)
    (mMaxCollidingTrianglesPerVertex s) (mCollidingTriangles s)
    (mCollidingTriangleCount s) (mPartitions s) (mInitializationStrategy s)
    (mGpuThreadBlockSize s).

Definition set_mVelocities (b : Buffer3 GpuScalar) (s : VbdImpl) : VbdImpl :=
  mkVbdImpl (X s) (V s) (F s) (T s) (mPositionsAtT s)
    (mInertialTargetPositions s) (mChebyshevPositionsM2 s) (mChebyshevPositionsM1 s)
    (mVelocitiesAtT s) b (mExternalAcceleration s) (mMass s)
    (mQuadratureWeights s) (mShapeFunctionGradients s) (mLameCoefficients s)
    (mDetHZero s) (mVertexTetrahedronPrefix s) (mVertexTetrahedronNeighbours s)
    (mVertexTetrahedronLocalVertexIndices s) (mRayleighDamping s) (mCollisionPenalty s)
    (mMaxCollidingTrianglesPerVertex s) (mCollidingTriangles s)
    (mCollidingTriangleCount s) (mPartitions s) (mInitializationStrategy s)
    (mGpuThreadBlockSize s).

Definition set_mExternalAcceleration (b : Buffer3 GpuScalar) (s : VbdImpl) : VbdImpl :=
  mkVbdImpl (X s) (V s) (F s) (T s) (mPositionsAtT s)
    (mInertialTargetPositions s) (mChebyshevPositionsM2 s) (mChebyshevPositionsM1 s)
    (mVelocitiesAtT s) (mVelocities s) b (mMass s)
    (mQuadratureWeights s) (mShapeFunctionGradients s) (mLameCoefficients s)
    (mDetHZero s) (mVertexTetrahedronPrefix s) (mVertexTetrahedronNeighbours s)
    (mVertexTetrahedronLocalVertexIndices s) (mRayleighDamping s) (mCollisionPenalty s)
    (mMaxCollidingTrianglesPerVertex s) (mCollidingTriangles s)
    (mCollidingTriangleCount s) (mPartitions s) (mInitializationStrategy s)
    (mGpuThreadBlockSize s).

Definition set_mMass (b : list GpuScalar) (s : VbdImpl) : VbdImpl :=
  mkVbdImpl (X s) (V s) (F s) (T s) (mPositionsAtT s)
    (mInertialTargetPositions s) (mChebyshevPositionsM2 s) (mChebyshevPositionsM1 s)
    (mVelocitiesAtT s) (mVelocities s) (mExternalAcceleration s) b
    (mQuadratureWeights s) (mShapeFunctionGradients s) (mLameCoefficients s)
    (mDetHZero s) (mVertexTetrahedronPrefix s) (mVertexTetrahedronNeighbours s)
    (mVertexTetrahedronLocalVertexIndices s) (mRayleighDamping s) (mCollisionPenalty s)
    (mMaxCollidingTrianglesPerVertex s) (mCollidingTriangles s)
    (mCollidingTriangleCount s) (mPartitions s) (mInitializationStrategy s)
    (mGpuThreadBlockSize s).

Definition set_mQuadratureWeights (b : list GpuScalar) (s : VbdImpl) : VbdImpl :=
  mkVbdImpl (X s) (V s) (F s) (T s) (mPositionsAtT s)
    (mInertialTargetPositions s) (mChebyshevPositionsM2 s) (mChebyshevPositionsM1 s)
    (mVelocitiesAtT s) (mVelocities s) (mExternalAcceleration s) (mMass s)
    b (mShapeFunctionGradients s) (mLameCoefficients s)
    (mDetHZero s) (mVertexTetrahedronPrefix s) (mVertexTetrahedronNeighbours s)
    (mVertexTetrahedronLocalVertexIndices s) (mRayleighDamping s) (mCollisionPenalty s)
    (mMaxCollidingTrianglesPerVertex s) (mCollidingTriangles s)
    (mCollidingTriangleCount s) (mPartitions s) (mInitializationStrategy s)
    (mGpuThreadBlockSize s).

Definition set_mVertexTetrahedronPrefix (b : list Z) (s : VbdImpl) : VbdImpl :=
  mkVbdImpl (X s) (V s) (F s) (T s) (mPositionsAtT s)
    (mInertialTargetPositions s) (mChebyshevPositionsM2 s) (mChebyshevPositionsM1 s)
    (mVelocitiesAtT s) (mVelocities s) (mExternalAcceleration s) (mMass s)
    (mQuadratureWeights s) (mShapeFunctionGradients s) (mLameCoefficients s)
    (mDetHZero s) b (mVertexTetrahedronNeighbours s)
    (mVertexTetrahedronLocalVertexIndices s) (mRayleighDamping s) (mCollisionPenalty s)
    (mMaxCollidingTrianglesPerVertex s) (mCollidingTriangles s)
    (mCollidingTriangleCount s) (mPartitions s) (mInitializationStrategy s)
    (mGpuThreadBlockSize s).

Definition set_mVertexTetrahedronNeighbours (b : list Z) (s : VbdImpl) : VbdImpl :=
  mkVbdImpl (X s) (V s) (F s) (T s) (mPositionsAtT s)
    (mInertialTargetPositions s) (mChebyshevPositionsM2 s) (mChebyshevPositionsM1 s)
    (mVelocitiesAtT s) (mVelocities s) (mExternalAcceleration s) (mMass s)
    (mQuadratureWeights s) (mShapeFunctionGradients s) (mLameCoefficients s)
    (mDetHZero s) (mVertexTetrahedronPrefix s) b
    (mVertexTetrahedronLocalVertexIndices s) (mRayleighDamping s) (mCollisionPenalty s)
    (mMaxCollidingTrianglesPerVertex s) (mCollidingTriangles s)
    (mCollidingTriangleCount s) (mPartitions s) (mInitializationStrategy s)
    (mGpuThreadBlockSize s).

Definition set_mVertexTetrahedronLocalVertexIndices (b : list Z) (s : VbdImpl) : VbdImpl :=
  mkVbdImpl (X s) (V s) (F s) (T s) (mPositionsAtT s)
    (mInertialTargetPositions s) (mChebyshevPositionsM2 s) (mChebyshevPositionsM1 s)
    (mVelocitiesAtT s) (mVelocities s) (mExternalAcceleration s) (mMass s)
    (mQuadratureWeights s) (mShapeFunctionGradients s) (mLameCoefficients s)
    (mDetHZero s) (mVertexTetrahedronPrefix s) (mVertexTetrahedronNeighbours s)
    b (mRayleighDamping s) (mCollisionPenalty s)
    (mMaxCollidingTrianglesPerVertex s) (mCollidingTriangles s)
    (mCollidingTriangleCount s) (mPartitions s) (mInitializationStrategy s)
    (mGpuThreadBlockSize s).

Definition set_mPartitions (b : list (list Z)) (s : VbdImpl) : VbdImpl :=
  mkVbdImpl (X s) (V s) (F s) (T s) (mPositionsAtT s)
    (mInertialTargetPositions s) (mChebyshevPositionsM2 s) (mChebyshevPositionsM1 s)
    (mVelocitiesAtT s) (mVelocities s) (mExternalAcceleration s) (mMass s)
    (mQuadratureWeights s) (mShapeFunctionGradients s) (mLameCoefficients s)
    (mDetHZero s) (mVertexTetrahedronPrefix s) (mVertexTetrahedronNeighbours s)
    (mVertexTetrahedronLocalVertexIndices s) (mRayleighDamping s) (mCollisionPenalty s)
    (mMaxCollidingTrianglesPerVertex s) (mCollidingTriangles s)
    (mCollidingTriangleCount s) b (mInitializationStrategy s)
    (mGpuThreadBlockSize s).

(** *** Construction *)

(** [VbdImpl::VbdImpl(Xin, Vin, Fin, Tin)], lines 21-61: the member
    initialisers in the order of the members, then the constructor body.
    ([mStream] is not a member of the model: what is enqueued on it is
    recorded in the calls of a [Run].) *)
Definition VbdImpl_init (Xin : Matrix GpuScalar) (Vin Fin Tin : Matrix Z) : VbdImpl :=
  let n := cols Xin in
  let m := cols Tin in
  let s :=
    mkVbdImpl (PointsImpl_init Xin) (SimplicesImpl_init Vin) (SimplicesImpl_init Fin)
      (SimplicesImpl_init Tin)
      (Buffer3_n (lit 0 0) n) (Buffer3_n (lit 0 0) n) (Buffer3_n (lit 0 0) n)
      (Buffer3_n (lit 0 0) n) (Buffer3_n (lit 0 0) n) (Buffer3_n (lit 0 0) n)
      (Buffer3_n (lit 0 0) n)
      (replicate n (lit 0 0)) (replicate m (lit 0 0)) (replicate (m * 4 * 3) (lit 0 0))
      (replicate (2 * m) (lit 0 0))
      (lit 1 (-10))
      (replicate (n + 1) 0%Z) [] []
      (lit 0 0) (lit 1 3) 8
      (replicate (8 * n) 0%Z) (replicate n 0%Z)
      [] AdaptiveVbd 64 in
  let s := set_mPositionsAtT (x (X s)) s in
  let s := set_mVelocitiesAtT (SetConstant3 (lit 0 0) (mVelocitiesAtT s)) s in
  let s := set_mVelocities (SetConstant3 (lit 0 0) (mVelocities s)) s in
  let s := set_mExternalAcceleration (SetConstant3 (lit 0 0) (mExternalAcceleration s)) s in
  set_mMass (SetConstant (lit 1 3) (mMass s)) s.

(** *** Setters *)

(** Modelled from the spec: [common::ToBuffer(A, buf)] for a one-dimensional
    buffer (the header is not among the sources).  By sections 4.1 and 7 it
    checks the input against the buffer's fixed size and fails with an
    invalid-argument condition naming the expected and the actual size
    before copying anything. *)
Definition ToBuffer_what (expected actual : nat) : string :=
  ("Buffer of size " ++ dec expected ++ " cannot hold input of size " ++ dec actual)%string.

Definition ToBuffer {A} (input buf : list A) : exception + list A :=
  if Nat.eqb (length input) (length buf) then inr input
  else inl (invalid_argument (ToBuffer_what (length buf) (length input))).

(** [Buffer::Resize(n)]: the leading entries are kept, new ones are zero. *)
Definition Resize (n : nat) (buf : list Z) : list Z := resize n 0%Z buf.

(** The message streamed into [ss] by [SetVertexTetrahedronAdjacencyList];
    the last two characters are the blank and the newline. *)
Definition adjacency_what (neighbours ilocal : nat) : string :=
  ("Expected vertex-tetrahedron adjacency graph's neighbour array and data (ilocal) "
   ++ "array to have the same size, but got neighbours="
   ++ dec neighbours ++ ", ilocal=" ++ dec ilocal
   ++ String (Ascii.ascii_of_nat 32) (String (Ascii.ascii_of_nat 10) EmptyString))%string.

Local Open Scope obj_scope.

(** [common::ToBuffer(input, member)] on a member buffer of the object. *)
Definition ToBuffer_member {A} (input : list A) (member : VbdImpl → list A)
    (assign : list A → VbdImpl → VbdImpl) : M VbdImpl unit :=
  buf <- gets member ;;
  copied <- lift (ToBuffer input buf) ;;
  modify (assign copied).

(** [VbdImpl::SetMass] (lines 240-243) and [VbdImpl::SetQuadratureWeights]
    (lines 245-248), each a [common::ToBuffer] from a vector into the
    member. *)
Definition SetMass (m : list GpuScalar) : M VbdImpl unit :=
  ToBuffer_member m mMass set_mMass.
Definition SetQuadratureWeights (wg : list GpuScalar) : M VbdImpl unit :=
  ToBuffer_member wg mQuadratureWeights set_mQuadratureWeights.

(** [VbdImpl::SetVertexTetrahedronAdjacencyList], lines 265-284. *)
Definition SetVertexTetrahedronAdjacencyList (GVTp GVTn GVTilocal : list Z)
  : M VbdImpl unit :=
  if negb (Nat.eqb (length GVTn) (length GVTilocal)) then
    throw (invalid_argument (adjacency_what (length GVTn) (length GVTilocal)))
  else
    ToBuffer_member GVTp mVertexTetrahedronPrefix set_mVertexTetrahedronPrefix ;;
    modify (λ s, set_mVertexTetrahedronNeighbours
                   (Resize (length GVTn) (mVertexTetrahedronNeighbours s)) s) ;;
    modify (λ s, set_mVertexTetrahedronLocalVertexIndices
                   (Resize (length GVTilocal) (mVertexTetrahedronLocalVertexIndices s)) s) ;;
    ToBuffer_member GVTn mVertexTetrahedronNeighbours set_mVertexTetrahedronNeighbours ;;
    ToBuffer_member GVTilocal mVertexTetrahedronLocalVertexIndices
      set_mVertexTetrahedronLocalVertexIndices.

(** [thrust::copy(first, last, out)] into an array at least as long. *)
Definition thrust_copy {A} (src out : list A) : list A := src ++ drop (length src) out.

(** [VbdImpl::SetVertexPartitions], lines 291-299. *)
Definition SetVertexPartitions (partitions : list (list Z)) : M VbdImpl unit :=
  modify (λ s, set_mPartitions (resize (length partitions) [] (mPartitions s)) s) ;;
  for_range (Z.of_nat (length partitions))
    (λ p _,
       modify (λ s,
         let src := default [] (partitions !! Z.to_nat p) in
         let out := Resize (length src) (default [] (mPartitions s !! Z.to_nat p)) in
         set_mPartitions (<[Z.to_nat p := thrust_copy src out]> (mPartitions s)) s))
    tt.

Definition GetPartitions (s : VbdImpl) : list (list Z) := mPartitions s.
Definition GetVelocity (s : VbdImpl) : Buffer3 GpuScalar := mVelocities s.

(** *** Time stepping *)

(** [kernels::BackwardEulerMinimization]: the argument block of the
    minimisation kernel.  The struct holds raw device pointers; a field is
    read here as the array it points to holds at the time of the launch. *)
Record BackwardEulerMinimization : Type := mkBackwardEulerMinimization {
  bdf_dt : GpuScalar;
  bdf_dt2 : GpuScalar;
  bdf_m : list GpuScalar;
  bdf_xtilde : Buffer3 GpuScalar;
  bdf_xt : Buffer3 GpuScalar;
  bdf_x : Buffer3 GpuScalar;
  bdf_T : Matrix Z;
  bdf_wg : list GpuScalar;
  bdf_GP : list GpuScalar;
  bdf_lame : list GpuScalar;
  bdf_detHZero : GpuScalar;
  bdf_GVTp : list Z;
  bdf_GVTn : list Z;
  bdf_GVTilocal : list Z;
  bdf_kD : GpuScalar;
  bdf_kC : GpuScalar;
  bdf_nMaxCollidingTrianglesPerVertex : Z;
  bdf_FC : list Z;
  bdf_nCollidingTriangles : list Z;
  bdf_F : Matrix Z;
  bdf_partition : list Z;
}.

Definition bdf_of (s : VbdImpl) (sdt sdt2 : GpuScalar) (partition : list Z)
  : BackwardEulerMinimization :=
  mkBackwardEulerMinimization sdt sdt2 (mMass s) (mInertialTargetPositions s)
    (mPositionsAtT s) (x (X s)) (inds (T s)) (mQuadratureWeights s)
    (mShapeFunctionGradients s) (mLameCoefficients s) (mDetHZero s)
    (mVertexTetrahedronPrefix s) (mVertexTetrahedronNeighbours s)
    (mVertexTetrahedronLocalVertexIndices s) (mRayleighDamping s) (mCollisionPenalty s)
    (mMaxCollidingTrianglesPerVertex s) (mCollidingTriangles s)
    (mCollidingTriangleCount s) (inds (F s)) partition.

(** The two device routines [Step] relies on whose formulas are neither in
    the sources nor fixed by the spec; they are parameters of the model.
    - Modelled from the spec: [kernels::InitialPositionsForSolve] (section
      4.2, step 3), the initial guess of the solve from [xt], [vtm1], [vt],
      [aext], [dt], [dt2] and the strategy; the spec leaves the blend open.
    - Modelled from the spec: the body of one block of
      [kernels::MinimizeBackwardEuler] (section 4.4): from the argument
      block and a vertex, the position that vertex is given. *)
Class Kernels : Type := {
  InitialPositionsForSolve :
    Vec3 GpuScalar → Vec3 GpuScalar → Vec3 GpuScalar → Vec3 GpuScalar →
    GpuScalar → GpuScalar → EInitializationStrategy → Vec3 GpuScalar;
  LocalVertexSolve : BackwardEulerMinimization → Z → Vec3 GpuScalar;
}.
Context {kernels : Kernels}.

(** What [Step] calls, in program order: the operations it enqueues on
    [mStream] and its host-side calls into [kernels]. *)
Inductive Call : Type :=
| MakeCurrent
| CopyPositionsAtT (d : Z)
| ForEachInertialTarget (nVertices : nat) (dt dt2 : GpuScalar)
| ForEachInitialPositionsForSolve (nVertices : nat) (dt dt2 : GpuScalar)
| CallChebyshevOmega (k : Z) (rho2 omega : GpuScalar)
| LaunchMinimizeBackwardEuler (partition : list Z)
| ForEachChebyshevUpdate (nVertices : nat) (k : Z) (omega : GpuScalar)
| CopyVelocitiesAtT (d : Z)
| ForEachIntegrateVelocity (nVertices : nat) (dt : GpuScalar)
| Synchronize.

(** A run of [Step]: the object and the calls made so far. *)
Record Run : Type := mkRun { self : VbdImpl; calls : list Call }.

Definition call (c : Call) : M Run unit :=
  modify (λ r, mkRun (self r) (calls r ++ [c])).
Definition device (f : VbdImpl → VbdImpl) : M Run unit :=
  modify (λ r, mkRun (f (self r)) (calls r)).

(** Dimension [d] of a three-dimensional buffer, [buf[d]]. *)
Definition dim {A} (d : Z) (b : Buffer3 A) : list A :=
  if Z.eqb d 0 then d0 b else if Z.eqb d 1 then d1 b else d2 b.
Definition set_dim {A} (d : Z) (l : list A) (b : Buffer3 A) : Buffer3 A :=
  if Z.eqb d 0 then mkBuffer3 l (d1 b) (d2 b)
  else if Z.eqb d 1 then mkBuffer3 (d0 b) l (d2 b)
  else mkBuffer3 (d0 b) (d1 b) l.
Definition Dimensions : Z := 3.

(** Lines 99-107: store previous positions. *)
Definition StorePreviousPositions : M Run unit :=
  for_range Dimensions
    (λ d _,
       call (CopyPositionsAtT d) ;;
       device (λ s, set_mPositionsAtT
                      (set_dim d (memcpy (dim d (mPositionsAtT s)) (dim d (x (X s)))
                                         (Size3 (x (X s))))
                                 (mPositionsAtT s)) s))
    tt.

(** Lines 114-128: the functor computing the inertial target of vertex [i]. *)
Definition InertialTargetFunctor (dt dt2 : GpuScalar) (i : nat) (s : VbdImpl) : VbdImpl :=
  let y := InertialTarget (FromBuffers (mPositionsAtT s) i) (FromBuffers (mVelocities s) i)
             (FromBuffers (mExternalAcceleration s) i) dt dt2 in
  set_mInertialTargetPositions (ToBuffers y (mInertialTargetPositions s) i) s.

(** Lines 134-152: the functor initialising the solve at vertex [i]. *)
Definition InitialPositionsFunctor (dt dt2 : GpuScalar) (i : nat) (s : VbdImpl) : VbdImpl :=
  let x0 := InitialPositionsForSolve (FromBuffers (mPositionsAtT s) i)
              (FromBuffers (mVelocitiesAtT s) i) (FromBuffers (mVelocities s) i)
              (FromBuffers (mExternalAcceleration s) i) dt dt2 (mInitializationStrategy s) in
  set_x (ToBuffers x0 (x (X s)) i) s.

(** Lines 188-198: the functor of the Chebyshev update at vertex [i].  The
    three vectors are local copies made by [FromBuffers]; [ChebyshevUpdate]
    updates these locals, and the functor ends without a [ToBuffers]. *)
Definition ChebyshevUpdateFunctor (k : Z) (omega : GpuScalar) (i : nat) (s : VbdImpl)
  : VbdImpl :=
  let xkm2i := FromBuffers (mChebyshevPositionsM2 s) i in
  let xkm1i := FromBuffers (mChebyshevPositionsM1 s) i in
  let xki := FromBuffers (x (X s)) i in
  let '(_, _, _) := ChebyshevUpdate k omega xkm2i xkm1i xki in
  s.

(** Lines 214-220: the functor integrating the velocity of vertex [i]. *)
Definition IntegrateVelocityFunctor (dt : GpuScalar) (i : nat) (s : VbdImpl) : VbdImpl :=
  let vtp1 := IntegrateVelocity (FromBuffers (mPositionsAtT s) i) (FromBuffers (x (X s)) i) dt in
  set_mVelocities (ToBuffers vtp1 (mVelocities s) i) s.

(** Lines 167-179: one launch of [kernels::MinimizeBackwardEuler], with one
    block per vertex of the partition ([grid_size(nVerticesInPartition)]);
    each block writes the position of its own vertex.  The blocks are run
    here in the order of the partition; block size and shared memory (lines
    156-157, 172-173) do not enter the model. *)
Definition MinimizeBackwardEuler (sdt sdt2 : GpuScalar) (partition : list Z) : M Run unit :=
  call (LaunchMinimizeBackwardEuler partition) ;;
  for_in partition
    (λ i, device (λ s, set_x (ToBuffers (LocalVertexSolve (bdf_of s sdt sdt2 partition) i)
                                        (x (X s)) (Z.to_nat i)) s)).

(** Line 68. *)
Definition bUseChebyshevAcceleration (rho : GpuScalar) : bool :=
  (rho >? lit 0 0) && (rho <? lit 1 0).

(** Lines 159-200: the body of outer iteration [k]; [omega] is the local
    declared at line 155, carried from one iteration to the next. *)
Definition OuterIteration (bUse : bool) (nVertices : nat) (sdt sdt2 rho2 : GpuScalar)
    (k : Z) (omega : GpuScalar) : M Run GpuScalar :=
  omega <- (if bUse
            then call (CallChebyshevOmega k rho2 omega) ;; ret (ChebyshevOmega k rho2 omega)
            else ret omega) ;;
  partitions <- gets (λ r, mPartitions (self r)) ;;
  for_in partitions (MinimizeBackwardEuler sdt sdt2) ;;
  (if bUse
   then call (ForEachChebyshevUpdate nVertices k omega) ;;
        device (for_each nVertices (ChebyshevUpdateFunctor k omega))
   else ret tt) ;;
  ret omega.

(** Lines 108-152: inertial targets, then the initial guess of the solve. *)
Definition ComputeInertialTargets (nVertices : nat) (sdt sdt2 : GpuScalar) : M Run unit :=
  call (ForEachInertialTarget nVertices sdt sdt2) ;;
  device (for_each nVertices (InertialTargetFunctor sdt sdt2)).

Definition InitializeSolve (nVertices : nat) (sdt sdt2 : GpuScalar) : M Run unit :=
  call (ForEachInitialPositionsForSolve nVertices sdt sdt2) ;;
  device (for_each nVertices (InitialPositionsFunctor sdt sdt2)).

(** Lines 153-200: the block coordinate descent of one substep. *)
Definition Minimize (bUse : bool) (nVertices : nat) (iterations : Z)
    (sdt sdt2 rho : GpuScalar) : M Run GpuScalar :=
  let rho2 := rho * rho in
  let omega := lit 0 0 in
  for_range iterations (OuterIteration bUse nVertices sdt sdt2 rho2) omega.

(** Lines 201-220: update velocities. *)
Definition UpdateVelocities (nVertices : nat) (sdt : GpuScalar) : M Run unit :=
  for_range Dimensions
    (λ d _,
       call (CopyVelocitiesAtT d) ;;
       device (λ s, set_mVelocitiesAtT
                      (set_dim d (memcpy (dim d (mVelocitiesAtT s)) (dim d (mVelocities s))
                                         (Size3 (mVelocities s)))
                                 (mVelocitiesAtT s)) s))
    tt ;;
  call (ForEachIntegrateVelocity nVertices sdt) ;;
  device (for_each nVertices (IntegrateVelocityFunctor sdt)).

(** Lines 96-221: the body of the substep loop. *)
Definition Substep (bUse : bool) (nVertices : nat) (iterations : Z)
    (sdt sdt2 rho : GpuScalar) : M Run unit :=
  StorePreviousPositions ;;
  ComputeInertialTargets nVertices sdt sdt2 ;;
  InitializeSolve nVertices sdt sdt2 ;;
  Minimize bUse nVertices iterations sdt sdt2 rho ;;
  UpdateVelocities nVertices sdt.

(** [VbdImpl::Step(dt, iterations, substeps, rho)]. *)
Definition Step (dt : GpuScalar) (iterations substeps : Z) (rho : GpuScalar) : M Run unit :=
  let sdt := dt / of_index substeps in
  let sdt2 := sdt * sdt in
  nVertices <- gets (λ r, NumberOfPoints (X (self r))) ;;
  let bUse := bUseChebyshevAcceleration rho in
  call MakeCurrent ;;
  for_range substeps (λ _ _, Substep bUse nVertices iterations sdt sdt2 rho) tt ;;
  call Synchronize.

End Integrator.

Arguments VbdImpl _ : clear implicits.
Arguments BackwardEulerMinimization _ : clear implicits.
Arguments Kernels _ : clear implicits.
Arguments Call _ : clear implicits.
Arguments Run _ : clear implicits.

End vbd.

(** ** Material parameters *)

Module physics.
Section HyperElasticity.
Context {Scalar : Type} {ops : GpuScalarOps Scalar}.
Local Open Scope scalar_scope.

(** [pba::physics::LameCoefficients(Y, nu)], the scalar overload. *)
Definition LameCoefficients (Y nu : Scalar) : Scalar * Scalar :=
  let mu := Y / (lit 2 0 * (lit 1 0 + nu)) in
  let lambda := Y * nu / ((lit 1 0 + nu) * (lit 1 0 - lit 2 0 * nu)) in
  (mu, lambda).

(** Modelled from the spec: the overload of [LameCoefficients] on vectors,
    declared in [pba/physics/HyperElasticity.h] (not among the sources): the
    same two expressions, coefficient by coefficient. *)
Definition LameCoefficientsX (Y nu : list Scalar) : list Scalar * list Scalar :=
  (zip_with (λ y n, y / (lit 2 0 * (lit 1 0 + n))) Y nu,
   zip_with (λ y n, y * n / ((lit 1 0 + n) * (lit 1 0 - lit 2 0 * n))) Y nu).

(** [VectorX::Constant(n, v)]. *)
Definition Constant (n : nat) (v : Scalar) : list Scalar := replicate n v.

End HyperElasticity.
End physics.

(** ** Finite element meshes: the keys of the nodes *)

Module fem.

(** [math::Rational] is declared in [pba/math/Rational.h], which is not
    among the sources; [Mesh] uses it for exact rational arithmetic
    (comment at line 243 of the mesh header), and it is taken here as the
    field of rationals, compared by value. *)
Definition Rational : Type := Q.
Definition Rational_eqb (a b : Rational) : bool := Qeq_bool a b.
Definition Rational_ltb (a b : Rational) : bool :=
  match Qcompare a b with Lt => true | _ => false end.

(** [v[i]] on a fixed-size vector.  An index out of range is undefined
    behaviour in the source; here it reads [zero]. *)
Definition coeff {A} (zero : A) (v : list A) (i : Z) : A :=
  if Z.ltb i 0 then zero else default zero (v !! Z.to_nat i).

(** [std::remove_if(first, last, pred)] on a range of integers: the entries
    that are kept move to the front, in their order; the end of the kept
    range is returned (here as its distance from [first]); the entries from
    there on are not written. *)
Definition remove_if {A} (pred : A → bool) (range : list A) : list A * nat :=
  let kept := List.filter (λ o, negb (pred o)) range in
  (kept ++ drop (length kept) range, length kept).

(** [NodalKey<TElement>], lines 122-195 of the mesh header. *)
Record NodalKey : Type := mkNodalKey {
  mCellVertices : list Z;
  mSortOrder : list Z;
  mN : list Rational;
  mSize : Z;
}.

(** The constructor, lines 129-141. *)
Definition NodalKey_init (cellVertices sortOrder : list Z) (N : list Rational) : NodalKey :=
  let '(order, distance) :=
    remove_if (λ o, Rational_eqb (coeff 0%Q N o) 0%Q) sortOrder in
  mkNodalKey cellVertices order N (Z.of_nat distance).

(** [mCellVertices[mSortOrder[i]]] and [mN[mSortOrder[i]]]. *)
Definition vertex (k : NodalKey) (i : nat) : Z :=
  coeff 0 (mCellVertices k) (coeff 0 (mSortOrder k) (Z.of_nat i)).
Definition weight (k : NodalKey) (i : nat) : Rational :=
  coeff 0%Q (mN k) (coeff 0 (mSortOrder k) (Z.of_nat i)).

(** The loop of [operator==], lines 148-160, from index [i] with [n] passes
    left: [false] is the early return, [true] the fall through. *)
Fixpoint eq_loop (lhs rhs : NodalKey) (i n : nat) : bool :=
  match n with
  | O => true
  | S n' =>
      let lhsVertex := vertex lhs i in
      let rhsVertex := vertex rhs i in
      if negb (Z.eqb lhsVertex rhsVertex) then false
      else
        let lhsN := weight lhs i in
        let rhsN := weight rhs i in
        if negb (Rational_eqb lhsN rhsN) then false
        else eq_loop lhs rhs (S i) n'
  end.

(** [operator==], lines 143-163. *)
Definition operator_eq (lhs rhs : NodalKey) : bool :=
  if negb (Z.eqb (mSize lhs) (mSize rhs)) then false
  else eq_loop lhs rhs 0 (Z.to_nat (mSize lhs)).

(** The two loops of [operator<], lines 171-177 and 179-185: [Some r] is
    the early return of [r], [None] the fall through. *)
Fixpoint lt_vertices (lhs rhs : NodalKey) (i n : nat) : option bool :=
  match n with
  | O => None
  | S n' =>
      let lhsVertex := vertex lhs i in
      let rhsVertex := vertex rhs i in
      if negb (Z.eqb lhsVertex rhsVertex) then Some (Z.ltb lhsVertex rhsVertex)
      else lt_vertices lhs rhs (S i) n'
  end.

Fixpoint lt_weights (lhs rhs : NodalKey) (i n : nat) : option bool :=
  match n with
  | O => None
  | S n' =>
      let lhsN := weight lhs i in
      let rhsN := weight rhs i in
      if negb (Rational_eqb lhsN rhsN) then Some (Rational_ltb lhsN rhsN)
      else lt_weights lhs rhs (S i) n'
  end.

(** [operator<], lines 165-188. *)
Definition operator_lt (lhs rhs : NodalKey) : bool :=
  if negb (Z.eqb (mSize lhs) (mSize rhs)) then Z.ltb (mSize lhs) (mSize rhs)
  else
    match lt_vertices lhs rhs 0 (Z.to_nat (mSize lhs)) with
    | Some r => r
    | None =>
        match lt_weights lhs rhs 0 (Z.to_nat (mSize lhs)) with
        | Some r => r
        | None => false
        end
    end.

(** *** The mesh *)

(** What [Mesh] reads of the element [TElement] and of its affine base
    (the element headers are not among the sources): the number of nodes,
    the dimension and the order of the element, its flat array of integer
    nodal coordinates, the number of vertices of a cell, and the shape
    functions [AffineBaseType::N] of the affine base, evaluated in exact
    arithmetic. *)
Class CElement : Type := {
  kNodes : nat;
  kDims : nat;
  kOrder : Z;
  Coordinates : list Z;
  kVerticesPerCell : nat;
  AffineN : list Rational → list Rational;
}.

Section Mesh.
Context {Scalar : Type} {element : CElement}.

(** [Xc * N.cast<Scalar>()] (line 253): the position of a node from the
    vertices of its cell and its affine coordinates, a product of Eigen
    (not among the sources) in floating point arithmetic; a parameter. *)
Context (product : list (list Scalar) → list Rational → list Scalar).

(** [Mesh<TElement, Dims>]: the nodal positions [X] and the element nodal
    indices [E], both as the list of their columns (one position per node,
    one list of [kNodes] node indices per element). *)
Record Mesh : Type := mkMesh { X : list (list Scalar); E : list (list Z) }.

(** The state of the constructor: the map from keys to nodes, the nodes
    created so far, and [E]. *)
Record Construction : Type := mkConstruction {
  nodeMap : list (NodalKey * Z);
  nodes : list (list Scalar);
  elements : list (list Z);
}.

(** [std::map<NodalKey, Index>] with the order [operator<]: two keys are
    equivalent when neither is below the other, and [find] returns the
    entry whose key is equivalent to the one sought.  The map is kept here
    as the list of its entries in the order of their insertion. *)
Definition equivalent (a b : NodalKey) : bool :=
  negb (operator_lt a b) && negb (operator_lt b a).
Definition find (key : NodalKey) (m : list (NodalKey * Z)) : option (NodalKey * Z) :=
  List.find (λ kv, equivalent (fst kv) key) m.

(** Lines 231-235: [std::iota] and [std::ranges::sort] of the local vertex
    indices by cell vertex.  The sort is not stable: among equal vertices of
    a degenerate cell the order it leaves is unspecified; here they keep
    their order. *)
Definition sort_order (cellVertices : list Z) : list Z :=
  (geometry.stable_sort_by_key
     (zip cellVertices (Z.of_nat <$> seq 0 kVerticesPerCell))).*2.

(** Lines 237-240 and 245: column [i] of the nodal coordinates, the
    integer coordinates of node [i] divided by the order. *)
Definition nodalCoordinates (i : nat) : list Rational :=
  (λ x, Qdiv (inject_Z x) (inject_Z kOrder)) <$> take kDims (drop (i * kDims) Coordinates).

(** [E(i, c) = node]. *)
Definition set_E (i c : nat) (node : Z) (E : list (list Z)) : list (list Z) :=
  <[c := <[i := node]> (default [] (E !! c))]> E.

(** Lines 243-260: the body of the loop over the nodes of cell [c].  The
    [insert] at line 256 follows a [find] that failed, so that it always
    inserts, as the assertion of line 257 records. *)
Definition visit_node (cellVertices sortOrder : list Z) (Xc : list (list Scalar))
    (c i : nat) (st : Construction) : Construction :=
  let Xi := nodalCoordinates i in
  let N := AffineN Xi in
  let key := NodalKey_init cellVertices sortOrder N in
  match find key (nodeMap st) with
  | Some (_, node) =>
      mkConstruction (nodeMap st) (nodes st) (set_E i c node (elements st))
  | None =>
      let nodeIdx := Z.of_nat (length (nodes st)) in
      let xi := product Xc N in
      mkConstruction (nodeMap st ++ [(key, nodeIdx)]) (nodes st ++ [xi])
        (set_E i c nodeIdx (elements st))
  end.

(** Lines 227-261: the body of the loop over the cells; [V] and [C] are
    given as the lists of their columns. *)
Definition visit_cell (V : list (list Scalar)) (C : list (list Z)) (c : nat)
    (st : Construction) : Construction :=
  let cellVertices := default [] (C !! c) in
  let Xc := (λ v, coeff [] V v) <$> cellVertices in
  let sortOrder := sort_order cellVertices in
  foldl (λ st i, visit_node cellVertices sortOrder Xc c i st) st (seq 0 kNodes).

(** The constructor, lines 197-265.  [E.resize] leaves the entries of [E]
    unset; they read 0 here until they are assigned. *)
Definition construct (V : list (list Scalar)) (C : list (list Z)) : Construction :=
  let numberOfCells := length C in
  foldl (λ st c, visit_cell V C c st)
    (mkConstruction [] [] (replicate numberOfCells (replicate kNodes 0)))
    (seq 0 numberOfCells).

Definition Mesh_init (V : list (list Scalar)) (C : list (list Z)) : Mesh :=
  let st := construct V C in
  mkMesh (nodes st) (elements st).

End Mesh.

Arguments Mesh _ : clear implicits.
Arguments Construction _ : clear implicits.

End fem.

(** ** Exact arithmetic, for the worked examples *)

Module Exact.

(** The value [m * 10^e]. *)
Definition Qlit (m e : Z) : Q :=
  Qred (if Z.leb 0 e then inject_Z (m * 10 ^ e) else Qmake m (Z.to_pos (10 ^ (- e)))).

Definition Qltb (a b : Q) : bool :=
  match Qcompare a b with Lt => true | _ => false end.

(** Rationals in lowest terms, every operation followed by [Qred]. *)
#[export] Instance QOps : GpuScalarOps Q := {|
  lit := Qlit;
  of_index := inject_Z;
  add := λ a b, Qred (Qplus a b);
  sub := λ a b, Qred (Qminus a b);
  mul := λ a b, Qred (Qmult a b);
  div := λ a b, Qred (Qdiv a b);
  ltb := Qltb;
|}.

(** Kernels for the examples: the solve starts from the previous position,
    and the local solve moves a vertex halfway to its inertial target, so
    that the iterates of successive sweeps differ. *)
#[export] Instance ToyKernels : vbd.Kernels Q := {|
  vbd.InitialPositionsForSolve := λ xt _ _ _ _ _ _, xt;
  vbd.LocalVertexSolve := λ bdf i,
    vscale (Qmake 1 2)
      (vadd (FromBuffers (vbd.bdf_x bdf) (Z.to_nat i))
            (FromBuffers (vbd.bdf_xtilde bdf) (Z.to_nat i)));
|}.

#[export] Instance ToyBvhKernels : geometry.BvhQueryImplKernels Q := {|
  geometry.FComputeAabb := λ x inds type expansion s, (FromBuffers x s, FromBuffers x s);
  geometry.FComputeMortonCode := λ lo hi, 0%Z;
  geometry.FDetectOverlaps := λ x q inds1 bvh inds2 s, geometry.overlaps q;
|}.

(** Two vertices at (0,0,0) and (1,0,0), one (degenerate) tetrahedron. *)
Definition Xin : Matrix Q := [[0; 1]; [0; 0]; [0; 0]]%Q.
Definition Tin : Matrix Z := [[0]; [1]; [0]; [1]]%Z.
Definition body : vbd.VbdImpl Q := vbd.VbdImpl_init Xin [[0; 1]]%Z [] Tin.

(** The body under gravity, each vertex a partition of its own. *)
Definition gravity : Q := Qmake (-981) 100.
Definition falling : vbd.VbdImpl Q :=
  snd (vbd.SetVertexPartitions [[0]; [1]]%Z
         (vbd.set_mExternalAcceleration
            (mkBuffer3 [0; 0]%Q [0; 0]%Q [gravity; gravity]) body)).

(** One tetrahedron on four vertices, with its vertex-tetrahedron
    adjacency: every vertex is incident to tetrahedron 0. *)
Definition tetrahedron : vbd.VbdImpl Q :=
  snd (vbd.SetVertexTetrahedronAdjacencyList [0; 1; 2; 3; 4]%Z [0; 0; 0; 0]%Z [0; 1; 2; 3]%Z
         (vbd.VbdImpl_init [[0; 1; 0; 0]; [0; 0; 1; 0]; [0; 0; 0; 1]]%Q
            [[0; 1; 2; 3]]%Z [] [[0]; [1]; [2]; [3]]%Z)).

(** Kernels for an example of [Build]: the box of a simplex is the point
    of its first vertex, and the code of a box the integer part of the first
    coordinate of its lower corner. *)
Definition SortingKernels : geometry.BvhQueryImplKernels Q := {|
  geometry.FComputeAabb := λ x inds type expansion s,
    let v := Z.to_nat (default 0%Z (row inds 0 !! s)) in
    (FromBuffers x v, FromBuffers x v);
  geometry.FComputeMortonCode := λ lo hi,
    let x := fst (fst lo) in Z.div (Qnum x) (Z.pos (Qden x));
  geometry.FDetectOverlaps := λ x q inds1 bvh inds2 s, geometry.overlaps q;
|}.

(** Four points with first coordinates 3, 1, 2, 1, each a simplex. *)
Definition points : geometry.PointsImpl Q :=
  geometry.PointsImpl_init [[3; 1; 2; 1]; [0; 0; 0; 0]; [0; 0; 0; 0]]%Q.
Definition vertices : geometry.SimplicesImpl :=
  geometry.SimplicesImpl_init [[0; 1; 2; 3]]%Z.

(** The quadratic triangle: six nodes, at the vertices and the middles of
    the edges of the reference triangle, over the affine triangle with
    shape functions [1 - x - y], [x] and [y]. *)
#[export] Instance Triangle2 : fem.CElement := {|
  fem.kNodes := 6;
  fem.kDims := 2;
  fem.kOrder := 2;
  fem.Coordinates := [0; 0; 1; 0; 2; 0; 0; 1; 1; 1; 0; 2]%Z;
  fem.kVerticesPerCell := 3;
  fem.AffineN := λ Xi,
    match Xi with
    | [x; y] => [Qred (1 - x - y); x; y]
    | _ => []
    end%Q;
|}.

(** The position of a node: the combination of the vertices of its cell
    with its affine coordinates. *)
Definition interpolate (Xc : list (list Q)) (N : list Q) : list Q :=
  foldr (λ wp acc, zip_with (λ p a, Qred (fst wp * p + a)) (snd wp) acc) [0; 0]%Q (zip N Xc).

(** The unit square, cut into two triangles along a diagonal. *)
Definition square : list (list Q) := [[0; 0]; [1; 0]; [0; 1]; [1; 1]]%Q.
Definition triangles : list (list Z) := [[0; 1; 2]; [1; 3; 2]]%Z.

End Exact.

(** ** Notions used to state the properties *)

Module spec.
Section Notions.
Import geometry vbd.
Context {GpuScalar : Type} {ops : GpuScalarOps GpuScalar}.
Local Open Scope scalar_scope.

(** The per-vertex buffers [Step] reads and writes all hold [n] vertices. *)
Definition Sized (n : nat) (s : VbdImpl GpuScalar) : Prop :=
  sized3 n (x (X s)) ∧ sized3 n (mPositionsAtT s) ∧
  sized3 n (mInertialTargetPositions s) ∧ sized3 n (mVelocitiesAtT s) ∧
  sized3 n (mVelocities s) ∧ sized3 n (mExternalAcceleration s).

(** The three-regime schedule in the words of the spec (section 4.3):
    [omega = 1] for [k = 0], [omega = 2/(2 - rho^2)] for [k = 1], and
    [omega = 4/(4 - rho^2 * omega_(k-1))] otherwise. *)
Fixpoint chebyshev_schedule (rho2 : GpuScalar) (k : nat) : GpuScalar :=
  match k with
  | O => lit 1 0
  | S k' =>
      match k' with
      | O => lit 2 0 / (lit 2 0 - rho2)
      | S _ => lit 4 0 / (lit 4 0 - rho2 * chebyshev_schedule rho2 k')
      end
  end.

(** The weight a recorded call of [ChebyshevOmega] computed, with its
    iteration index. *)
Definition weight_of (c : Call GpuScalar) : option (Z * GpuScalar) :=
  match c with
  | CallChebyshevOmega k rho2 omega => Some (k, ChebyshevOmega k rho2 omega)
  | _ => None
  end.
Definition weights (cs : list (Call GpuScalar)) : list (Z * GpuScalar) := omap weight_of cs.

Definition is_omega_call (c : Call GpuScalar) : bool :=
  match c with CallChebyshevOmega _ _ _ => true | _ => false end.
Definition is_update_call (c : Call GpuScalar) : bool :=
  match c with ForEachChebyshevUpdate _ _ _ => true | _ => false end.
Definition is_chebyshev_call (c : Call GpuScalar) : bool :=
  is_omega_call c || is_update_call c.
Definition count (p : Call GpuScalar → bool) (cs : list (Call GpuScalar)) : nat :=
  length (List.filter p cs).

(** A member function run on the object [s] with an empty record of calls:
    whether it returned, the object it leaves, the calls it made. *)
Definition outcome {A} (m : M (Run GpuScalar) A) (s : VbdImpl GpuScalar) : exception + A :=
  fst (m (mkRun s [])).
Definition object_after {A} (m : M (Run GpuScalar) A) (s : VbdImpl GpuScalar)
  : VbdImpl GpuScalar :=
  self (snd (m (mkRun s []))).
Definition calls_of {A} (m : M (Run GpuScalar) A) (s : VbdImpl GpuScalar)
  : list (Call GpuScalar) :=
  calls (snd (m (mkRun s []))).

(** The calls of one outer iteration. *)
Definition iteration_calls (bUse : bool) (nVertices : nat) (rho2 : GpuScalar)
    (partitions : list (list Z)) (k : Z) (omega : GpuScalar) : list (Call GpuScalar) :=
  (if bUse then [CallChebyshevOmega k rho2 omega] else []) ++
  (LaunchMinimizeBackwardEuler <$> partitions) ++
  (if bUse then [ForEachChebyshevUpdate nVertices k (ChebyshevOmega k rho2 omega)] else []).

(** The local [omega] after [j] passes through the loop at line 159. *)
Fixpoint omega_after (bUse : bool) (rho2 : GpuScalar) (j : nat) : GpuScalar :=
  match j with
  | O => lit 0 0
  | S j' => if bUse then ChebyshevOmega (Z.of_nat j') rho2 (omega_after bUse rho2 j')
            else omega_after bUse rho2 j'
  end.

(** The object a substep leaves, given the positions [bx] its outer
    iterations end with: the snapshot [xt], the inertial targets, the rolled
    velocities and the new velocities, each computed as lines 99-220 do. *)
Definition substep_state (nVertices : nat) (sdt sdt2 : GpuScalar)
    (bx : Buffer3 GpuScalar) (s : VbdImpl GpuScalar) : VbdImpl GpuScalar :=
  let xt := copy3 (mPositionsAtT s) (x (X s)) in
  let xtilde :=
    scatter nVertices
      (λ i, InertialTarget (FromBuffers xt i) (FromBuffers (mVelocities s) i)
              (FromBuffers (mExternalAcceleration s) i) sdt sdt2)
      (mInertialTargetPositions s) in
  let v :=
    scatter nVertices (λ i, IntegrateVelocity (FromBuffers xt i) (FromBuffers bx i) sdt)
      (mVelocities s) in
  set_mVelocities v
    (set_mVelocitiesAtT (copy3 (mVelocitiesAtT s) (mVelocities s))
       (set_x bx (set_mInertialTargetPositions xtilde (set_mPositionsAtT xt s)))).

(** The calls of [j] outer iterations, of one substep, and of [Step]. *)
Fixpoint minimize_calls (bUse : bool) (nVertices : nat) (rho2 : GpuScalar)
    (partitions : list (list Z)) (j : nat) : list (Call GpuScalar) :=
  match j with
  | O => []
  | S j' => minimize_calls bUse nVertices rho2 partitions j' ++
            iteration_calls bUse nVertices rho2 partitions (Z.of_nat j')
              (omega_after bUse rho2 j')
  end.

Definition substep_calls (bUse : bool) (nVertices : nat) (iterations : Z)
    (sdt sdt2 rho : GpuScalar) (partitions : list (list Z)) : list (Call GpuScalar) :=
  [CopyPositionsAtT 0; CopyPositionsAtT 1; CopyPositionsAtT 2;
   ForEachInertialTarget nVertices sdt sdt2;
   ForEachInitialPositionsForSolve nVertices sdt sdt2] ++
  minimize_calls bUse nVertices (rho * rho) partitions (Z.to_nat iterations) ++
  [CopyVelocitiesAtT 0; CopyVelocitiesAtT 1; CopyVelocitiesAtT 2;
   ForEachIntegrateVelocity nVertices sdt].

Definition step_calls (dt : GpuScalar) (iterations substeps : Z) (rho : GpuScalar)
    (nVertices : nat) (partitions : list (list Z)) : list (Call GpuScalar) :=
  let sdt := dt / of_index substeps in
  [MakeCurrent] ++
  concat (replicate (Z.to_nat substeps)
            (substep_calls (bUseChebyshevAcceleration rho) nVertices iterations
               sdt (sdt * sdt) rho partitions)) ++
  [Synchronize].

(** The elements incident to vertex [i] in the compressed adjacency
    [(GVTp, GVTn)], and the invariant of a partition (section 3): within a
    group, no two vertices share an incident element. *)
Definition incident (GVTp GVTn : list Z) (i : Z) : list Z :=
  let first := Z.to_nat (default 0%Z (GVTp !! Z.to_nat i)) in
  let last := Z.to_nat (default 0%Z (GVTp !! S (Z.to_nat i))) in
  take (last - first) (drop first GVTn).

Definition share_element (GVTp GVTn : list Z) (i j : Z) : bool :=
  existsb (λ t, existsb (Z.eqb t) (incident GVTp GVTn j)) (incident GVTp GVTn i).

Fixpoint independent (GVTp GVTn : list Z) (group : list Z) : bool :=
  match group with
  | [] => true
  | i :: rest =>
      forallb (λ j, negb (share_element GVTp GVTn i j)) rest && independent GVTp GVTn rest
  end.

Definition partition_invariant (s : VbdImpl GpuScalar) (partitions : list (list Z)) : bool :=
  forallb (independent (mVertexTetrahedronPrefix s) (mVertexTetrahedronNeighbours s))
    partitions.

(** The sizes fixed by the constructor (lines 30-49), for [n] vertices and
    [m] tetrahedra, and the cap on colliding triangles per vertex. *)
Definition sizes_as_declared (s : VbdImpl GpuScalar) : bool :=
  let n := NumberOfPoints (X s) in
  let m := NumberOfSimplices (T s) in
  forallb (λ buf : Buffer3 GpuScalar,
             Nat.eqb (length (d0 buf)) n && Nat.eqb (length (d1 buf)) n
             && Nat.eqb (length (d2 buf)) n)
    [x (X s); mPositionsAtT s; mInertialTargetPositions s; mChebyshevPositionsM2 s;
     mChebyshevPositionsM1 s; mVelocitiesAtT s; mVelocities s; mExternalAcceleration s]
  && Nat.eqb (length (mMass s)) n
  && Nat.eqb (length (mQuadratureWeights s)) m
  && Nat.eqb (length (mShapeFunctionGradients s)) (m * 4 * 3)
  && Nat.eqb (length (mLameCoefficients s)) (2 * m)
  && Nat.eqb (length (mVertexTetrahedronPrefix s)) (n + 1)
  && Nat.eqb (length (mCollidingTriangles s)) (8 * n)
  && Nat.eqb (length (mCollidingTriangleCount s)) n.

Definition within_capacity (s : VbdImpl GpuScalar) : bool :=
  forallb (λ c, Z.leb c (mMaxCollidingTrianglesPerVertex s)) (mCollidingTriangleCount s).

(** The partition a recorded kernel launch was given, and the partitions
    launched by a list of calls, in order. *)
Definition launch_of (c : Call GpuScalar) : option (list Z) :=
  match c with
  | LaunchMinimizeBackwardEuler partition => Some partition
  | _ => None
  end.
Definition launched (cs : list (Call GpuScalar)) : list (list Z) := omap launch_of cs.

(** The members [Step] hands to its kernels for reading, or does not touch
    at all, are in [s'] as in [s]: the simplices, the external
    accelerations, the masses, the data of the elements, the adjacency, the
    damping, the collision data, the partitions, the strategy and the block
    size.  The relation says nothing of the positions, their snapshot, the
    inertial targets, the velocities, the previous velocities and the two
    Chebyshev history buffers. *)
Definition keeps_configuration (s s' : VbdImpl GpuScalar) : Prop :=
  V s' = V s ∧ F s' = F s ∧ T s' = T s ∧
  mExternalAcceleration s' = mExternalAcceleration s ∧
  mMass s' = mMass s ∧
  mQuadratureWeights s' = mQuadratureWeights s ∧
  mShapeFunctionGradients s' = mShapeFunctionGradients s ∧
  mLameCoefficients s' = mLameCoefficients s ∧
  mDetHZero s' = mDetHZero s ∧
  mVertexTetrahedronPrefix s' = mVertexTetrahedronPrefix s ∧
  mVertexTetrahedronNeighbours s' = mVertexTetrahedronNeighbours s ∧
  mVertexTetrahedronLocalVertexIndices s' = mVertexTetrahedronLocalVertexIndices s ∧
  mRayleighDamping s' = mRayleighDamping s ∧
  mCollisionPenalty s' = mCollisionPenalty s ∧
  mMaxCollidingTrianglesPerVertex s' = mMaxCollidingTrianglesPerVertex s ∧
  mCollidingTriangles s' = mCollidingTriangles s ∧
  mCollidingTriangleCount s' = mCollidingTriangleCount s ∧
  mPartitions s' = mPartitions s ∧
  mInitializationStrategy s' = mInitializationStrategy s ∧
  mGpuThreadBlockSize s' = mGpuThreadBlockSize s.

(** A member function whose result and whose effect on the object do not
    depend on the calls recorded so far. *)
Definition oblivious {A} (m : M (Run GpuScalar) A) : Prop :=
  ∀ σ σ', self σ = self σ' →
          fst (m σ) = fst (m σ') ∧ self (snd (m σ)) = self (snd (m σ')).

(** The buffers of a [BvhQueryImpl] all hold [m] boxes, as the constructor
    at line 22 leaves them. *)
Definition allocated_for (m : nat) (q : BvhQueryImpl GpuScalar) : Prop :=
  length (simplex q) = m ∧ length (morton q) = m ∧ sized3 m (b q) ∧ sized3 m (e q).

(** The order a stable sort by key leaves: the entry [a] goes before [b]
    when its key is smaller, or the keys are equal and [a] came first in the
    input ([idx] gives the position in the input). *)
Definition before {A} (idx : A → Z) (a b : Z * A) : Prop :=
  a.1 < b.1 ∨ (a.1 = b.1 ∧ idx a.2 < idx b.2).

End Notions.

Section Substeps.
Import geometry vbd.
Context {GpuScalar : Type} {ops : GpuScalarOps GpuScalar} {kernels : Kernels GpuScalar}.
Local Open Scope scalar_scope.

(** The object at the start of substep [j] of [Step(dt, iterations,
    substeps, rho)] called on [s], which is the object at the end of substep
    [j - 1]: the body of the loop at line 96 run [j] times from [s], with
    the vertex count, the flag and the sub-step size of lines 65-68. *)
Fixpoint after_substeps (dt : GpuScalar) (iterations substeps : Z) (rho : GpuScalar)
    (s : VbdImpl GpuScalar) (j : nat) : VbdImpl GpuScalar :=
  match j with
  | O => s
  | S j' =>
      let sdt := dt / of_index substeps in
      object_after
        (Substep (bUseChebyshevAcceleration rho) (NumberOfPoints (X s)) iterations
           sdt (sdt * sdt) rho)
        (after_substeps dt iterations substeps rho s j')
  end.

End Substeps.

Section Configuration.
Import geometry vbd.
Context {GpuScalar : Type} {ops : GpuScalarOps GpuScalar}.

(** A call of one of the setters that fill a buffer from an array. *)
Inductive Setter : Type :=
| CallSetMass (m : list GpuScalar)
| CallSetQuadratureWeights (wg : list GpuScalar)
| CallSetVertexTetrahedronAdjacencyList (GVTp GVTn GVTilocal : list Z)
| CallSetVertexPartitions (partitions : list (list Z)).

Definition run_setter (c : Setter) : M (VbdImpl GpuScalar) unit :=
  match c with
  | CallSetMass m => SetMass m
  | CallSetQuadratureWeights wg => SetQuadratureWeights wg
  | CallSetVertexTetrahedronAdjacencyList GVTp GVTn GVTilocal =>
      SetVertexTetrahedronAdjacencyList GVTp GVTn GVTilocal
  | CallSetVertexPartitions partitions => SetVertexPartitions partitions
  end.

(** The object a caller holds after the constructor and a sequence of such
    calls, each made on the object the previous one left, whether it
    returned or threw. *)
Definition configured (Xin : Matrix GpuScalar) (Vin Fin Tin : Matrix Z) (cs : list Setter)
  : VbdImpl GpuScalar :=
  foldl (λ s c, snd (run_setter c s)) (VbdImpl_init Xin Vin Fin Tin) cs.

(** The input of a call matches the sizes fixed at construction for [n]
    vertices and [m] tetrahedra.  The neighbour and ilocal arrays have no
    fixed size, they have to agree with each other; the partitions have
    none either. *)
Definition fits (n m : nat) (c : Setter) : bool :=
  match c with
  | CallSetMass mass => Nat.eqb (length mass) n
  | CallSetQuadratureWeights wg => Nat.eqb (length wg) m
  | CallSetVertexTetrahedronAdjacencyList GVTp GVTn GVTilocal =>
      Nat.eqb (length GVTn) (length GVTilocal) && Nat.eqb (length GVTp) (n + 1)
  | CallSetVertexPartitions _ => true
  end.

(** The object holds the input of the call, whole. *)
Definition stored (c : Setter) (s : VbdImpl GpuScalar) : Prop :=
  match c with
  | CallSetMass mass => mMass s = mass
  | CallSetQuadratureWeights wg => mQuadratureWeights s = wg
  | CallSetVertexTetrahedronAdjacencyList GVTp GVTn GVTilocal =>
      mVertexTetrahedronPrefix s = GVTp ∧ mVertexTetrahedronNeighbours s = GVTn ∧
      mVertexTetrahedronLocalVertexIndices s = GVTilocal
  | CallSetVertexPartitions partitions => mPartitions s = partitions
  end.

(** The object has [n] points and [m] tetrahedra, its buffers the sizes the
    constructor gives them for these counts, and no vertex more colliding
    triangles than the cap. *)
Definition as_declared (n m : nat) (s : VbdImpl GpuScalar) : Prop :=
  NumberOfPoints (X s) = n ∧ NumberOfSimplices (T s) = m ∧
  sizes_as_declared s = true ∧ within_capacity s = true.

End Configuration.

Arguments Setter _ : clear implicits.

Section BuildStages.
Import geometry.
Context {GpuScalar : Type} {ops : GpuScalarOps GpuScalar}.
Context {bvh_kernels : BvhQueryImplKernels GpuScalar}.

(** The four device stages of [Build], each as the transformation of the
    object it performs: the loop of lines 38-48, the loop of lines 50-54,
    [thrust::sequence] (line 56) and [thrust::stable_sort_by_key] (line 65). *)
Definition aabb_stage (P : PointsImpl GpuScalar) (S : SimplicesImpl) (expansion : GpuScalar)
    (n : nat) (q : BvhQueryImpl GpuScalar) : BvhQueryImpl GpuScalar :=
  for_each n (λ s q,
    let '(lo, hi) := FComputeAabb (x P) (inds S) (eSimplexType S) expansion s in
    set_boxes (ToBuffers lo (b q) s) (ToBuffers hi (e q) s) q) q.

Definition morton_stage (n : nat) (q : BvhQueryImpl GpuScalar) : BvhQueryImpl GpuScalar :=
  for_each n (λ s q,
    set_morton (<[s := FComputeMortonCode (FromBuffers (b q) s) (FromBuffers (e q) s)]>
                  (morton q)) q) q.

Definition sequence_stage (q : BvhQueryImpl GpuScalar) : BvhQueryImpl GpuScalar :=
  set_simplex (Z.of_nat <$> seq 0 (length (simplex q))) q.

Definition sort_stage (n : nat) (q : BvhQueryImpl GpuScalar) : BvhQueryImpl GpuScalar :=
  let sorted := stable_sort_by_key (zip (take n (morton q)) (take n (zip7 q))) in
  unzip7 (sorted.*2) (set_morton (sorted.*1 ++ drop n (morton q)) q).

End BuildStages.

(** The first difference of the sequences [f] and [g] over the indices
    [i, i + n): [None] when they agree throughout, and otherwise [Some] of
    whether, at the first index where they differ, the entry of [f] is below
    that of [g]. *)
Fixpoint first_difference {X} (eqb ltb : X → X → bool) (f g : nat → X) (i n : nat)
  : option bool :=
  match n with
  | O => None
  | S n' => if negb (eqb (f i) (g i)) then Some (ltb (f i) (g i))
            else first_difference eqb ltb f g (S i) n'
  end.

(** The entries of the sort order a key is built from whose shape function
    does not vanish, in their order. *)
Definition supporting (sortOrder : list Z) (N : list fem.Rational) : list Z :=
  List.filter (λ o, negb (fem.Rational_eqb (fem.coeff 0%Q N o) 0%Q)) sortOrder.

Section MeshNotions.
Import fem.
Context {element : CElement}.

(** The key the constructor of [Mesh] builds for node [i] of cell [c]. *)
Definition node_key (C : list (list Z)) (c i : nat) : NodalKey :=
  let cellVertices := default [] (C !! c) in
  NodalKey_init cellVertices (sort_order cellVertices) (AffineN (nodalCoordinates i)).

(** [E(i, c)], when [c] is an element and [i] one of its nodes. *)
Definition E_at (E : list (list Z)) (c i : nat) : option Z := E !! c ≫= (.!! i).

(** The positions [Xc] of the vertices of cell [c], and the position the
    constructor computes for node [i] of that cell (line 253). *)
Definition cell_positions {Scalar} (V : list (list Scalar)) (C : list (list Z)) (c : nat)
  : list (list Scalar) :=
  (λ v, coeff [] V v) <$> default [] (C !! c).
Definition node_position {Scalar} (product : list (list Scalar) → list Rational → list Scalar)
    (V : list (list Scalar)) (C : list (list Z)) (c i : nat) : list Scalar :=
  product (cell_positions V C c) (AffineN (nodalCoordinates i)).

(** The nodes visited when the loops of the constructor stand at node [i0]
    of cell [c0]: the nodes of the cells before [c0], and the nodes of [c0]
    before [i0]. *)
Definition visited (c0 i0 c i : nat) : Prop :=
  (i < kNodes)%nat ∧ (c < c0 ∨ (c = c0 ∧ i < i0))%nat.

(** What holds of the state of the constructor at that point:
    - the nodes in the map are numbered in the order of their creation;
    - no two keys in the map are [==];
    - a visited node of an element has its entry in [E], the number of the
      node in the map whose key is [==] to its own;
    - every key in the map is the key of a visited node, and the position
      stored for it is the one computed for that node;
    - [E] has one column of [kNodes] entries per cell. *)
Definition consistent {Scalar} (product : list (list Scalar) → list Rational → list Scalar)
    (V : list (list Scalar)) (C : list (list Z)) (c0 i0 : nat)
    (st : Construction Scalar) : Prop :=
  (nodeMap st).*2 = Z.of_nat <$> seq 0 (length (nodes st)) ∧
  (∀ j j' kv kv', nodeMap st !! j = Some kv → nodeMap st !! j' = Some kv' →
                  operator_eq kv.1 kv'.1 = true → j = j') ∧
  (∀ c i, visited c0 i0 c i →
          ∃ j kv, nodeMap st !! j = Some kv ∧
                  operator_eq kv.1 (node_key C c i) = true ∧
                  E_at (elements st) c i = Some (Z.of_nat j)) ∧
  (∀ j kv, nodeMap st !! j = Some kv →
           ∃ c i, visited c0 i0 c i ∧ kv.1 = node_key C c i ∧
                  nodes st !! j = Some (node_position product V C c i)) ∧
  (length (elements st) = length C ∧
   ∀ c col, elements st !! c = Some col → length col = kNodes).

End MeshNotions.

End spec.

(** * Properties *)

(** ** Reasoning about member functions *)

Section Returns.
Context {Σ : Type}.

Lemma returns_ret {A} (a : A) (σ : Σ) Q : Q a σ → returns (ret a) σ Q.
Proof. intros HQ. exists a, σ. done. Qed.

Lemma returns_gets {A} (f : Σ → A) (σ : Σ) Q : Q (f σ) σ → returns (gets f) σ Q.
Proof. intros HQ. exists (f σ), σ. done. Qed.

Lemma returns_modify (f : Σ → Σ) (σ : Σ) Q : Q tt (f σ) → returns (modify f) σ Q.
Proof. intros HQ. exists tt, (f σ). done. Qed.

Lemma returns_bind {A B} (m : M Σ A) (f : A → M Σ B) (σ : Σ) Q :
  returns m σ (λ a σ', returns (f a) σ' Q) → returns (bind m f) σ Q.
Proof.
  intros (a & σ' & Hm & b & σ'' & Hf & HQ).
  exists b, σ''. split; [|done]. unfold bind. by rewrite Hm.
Qed.

Lemma bind_assoc {A B C} (m : M Σ A) (f : A → M Σ B) (g : B → M Σ C) (σ : Σ) :
  bind (bind m f) g σ = bind m (λ a, bind (f a) g) σ.
Proof. unfold bind. by destruct (m σ) as [[e|a] σ']. Qed.

Lemma returns_mono {A} (m : M Σ A) (σ : Σ) (Q Q' : A → Σ → Prop) :
  returns m σ Q → (∀ a σ', Q a σ' → Q' a σ') → returns m σ Q'.
Proof. intros (a & σ' & Hm & HQ) Himp. exists a, σ'. auto. Qed.

Lemma returns_fst {A} (m : M Σ A) (σ : Σ) Q :
  returns m σ Q → ∃ a, fst (m σ) = inr a ∧ Q a (snd (m σ)).
Proof. intros (a & σ' & Hm & HQ). exists a. by rewrite Hm. Qed.

(** The invariant rule for [for_loop]: [I j a σ] holds after [j] passes. *)
Lemma returns_for_loop {A} (I : nat → A → Σ → Prop) (body : Z → A → M Σ A) n :
  ∀ k j a σ,
    I j a σ →
    (∀ i a' σ', (j ≤ i < j + n)%nat → I i a' σ' →
       returns (body (k + Z.of_nat (i - j)) a') σ' (I (S i))) →
    returns (for_loop n k body a) σ (I (j + n)%nat).
Proof.
  induction n as [|n IH]; intros k j a σ HI Hbody; simpl.
  - apply returns_ret. by rewrite Nat.add_0_r.
  - apply returns_bind.
    eapply returns_mono.
    + specialize (Hbody j a σ). rewrite Nat.sub_diag, Z.add_0_r in Hbody.
      apply Hbody; [lia | done].
    + intros a' σ' HI'. simpl.
      replace (j + S n)%nat with (S j + n)%nat by lia.
      apply IH; [done|].
      intros i a'' σ'' Hi HI''.
      replace (k + 1 + Z.of_nat (i - S j)) with (k + Z.of_nat (i - j)) by lia.
      apply Hbody; [lia | done].
Qed.

Lemma returns_for_range {A} (I : nat → A → Σ → Prop) (body : Z → A → M Σ A) n a σ :
  I 0%nat a σ →
  (∀ i a' σ', (i < Z.to_nat n)%nat → I i a' σ' →
     returns (body (Z.of_nat i) a') σ' (I (S i))) →
  returns (for_range n body a) σ (I (Z.to_nat n)).
Proof.
  intros HI Hbody. unfold for_range.
  change (Z.to_nat n) with (0 + Z.to_nat n)%nat at 2.
  apply returns_for_loop; [done|].
  intros i a' σ' Hi HI'. rewrite Nat.sub_0_r, Z.add_0_l. apply Hbody; [lia | done].
Qed.

(** The invariant rule for [for_in]: [I done σ] holds once the entries
    [done] have been visited. *)
Lemma returns_for_in {E} (I : list E → Σ → Prop) (body : E → M Σ unit) range :
  ∀ visited σ,
    I visited σ →
    (∀ pre e post σ', visited ++ range = pre ++ e :: post → I pre σ' →
       returns (body e) σ' (λ _, I (pre ++ [e]))) →
    returns (for_in range body) σ (λ _, I (visited ++ range)).
Proof.
  induction range as [|e rest IH]; intros visited σ HI Hbody; simpl.
  - apply returns_ret. by rewrite app_nil_r.
  - apply returns_bind. eapply returns_mono.
    + by apply (Hbody visited e rest).
    + intros [] σ' HI'. simpl in *.
      replace (visited ++ e :: rest) with ((visited ++ [e]) ++ rest)
        by (by rewrite <- app_assoc).
      apply IH; [done|].
      intros pre e' post σ'' Heq. apply (Hbody pre e' post). by rewrite <- Heq, <- app_assoc.
Qed.

End Returns.

(** ** Device buffers *)

Section BufferFacts.
Context {GpuScalar : Type} {ops : GpuScalarOps GpuScalar}.

Lemma sized3_ToBuffers n (v : Vec3 GpuScalar) buf i :
  sized3 n buf → sized3 n (ToBuffers v buf i).
Proof.
  destruct v as [[v0 v1] v2]. intros (H0 & H1 & H2).
  unfold sized3; simpl. by rewrite !length_insert.
Qed.

Lemma FromBuffers_ToBuffers_eq n (v : Vec3 GpuScalar) buf i :
  sized3 n buf → (i < n)%nat → FromBuffers (ToBuffers v buf i) i = v.
Proof.
  destruct v as [[v0 v1] v2]. intros (H0 & H1 & H2) Hi.
  unfold FromBuffers; simpl.
  by rewrite !list_lookup_insert_eq by lia.
Qed.

Lemma FromBuffers_ToBuffers_ne (v : Vec3 GpuScalar) buf i j :
  i ≠ j → FromBuffers (ToBuffers v buf i) j = FromBuffers buf j.
Proof.
  destruct v as [[v0 v1] v2]. intros Hne.
  unfold FromBuffers; simpl.
  by rewrite !list_lookup_insert_ne by done.
Qed.

Lemma memcpy_all {A} n (dst src : list A) :
  length dst = n → length src = n → memcpy dst src n = src.
Proof.
  intros Hdst Hsrc. unfold memcpy.
  rewrite take_ge, drop_ge by lia. apply app_nil_r.
Qed.

Lemma for_each_S {Σ} n (f : nat → Σ → Σ) σ :
  for_each (S n) f σ = f n (for_each n f σ).
Proof. unfold for_each. by rewrite seq_S, foldl_snoc. Qed.

Lemma for_each_preserves {Σ A} (g : Σ → A) n (f : nat → Σ → Σ) σ :
  (∀ i σ', g (f i σ') = g σ') → g (for_each n f σ) = g σ.
Proof.
  intros Hf. induction n as [|n IH]; [done|]. by rewrite for_each_S, Hf.
Qed.

Lemma for_each_id {Σ} n (f : nat → Σ → Σ) σ :
  (∀ i σ', f i σ' = σ') → for_each n f σ = σ.
Proof.
  intros Hf. induction n as [|n IH]; [done|]. by rewrite for_each_S, Hf.
Qed.

Lemma same_size_refl {A} (b : Buffer3 A) : same_size b b.
Proof. done. Qed.

Lemma same_size_trans {A} (b1 b2 b3 : Buffer3 A) :
  same_size b1 b2 → same_size b2 b3 → same_size b1 b3.
Proof. intros (?&?&?) (?&?&?). unfold same_size. split_and!; congruence. Qed.

Lemma same_size_ToBuffers (v : Vec3 GpuScalar) buf i : same_size (ToBuffers v buf i) buf.
Proof. destruct v as [[v0 v1] v2]. unfold same_size; simpl. by rewrite !length_insert. Qed.

Lemma same_size_sized3 {A} n (b b' : Buffer3 A) : same_size b b' → sized3 n b' → sized3 n b.
Proof. intros (?&?&?) (?&?&?). unfold sized3. split_and!; congruence. Qed.

Lemma copy3_sized {A} n (dst src : Buffer3 A) :
  sized3 n dst → sized3 n src → copy3 dst src = src.
Proof.
  intros (Hd0 & Hd1 & Hd2) (Hs0 & Hs1 & Hs2). unfold copy3, Size3.
  rewrite Hs0, !(memcpy_all n) by done. by destruct src.
Qed.

Lemma scatter_S n (h : nat → Vec3 GpuScalar) buf :
  scatter (S n) h buf = ToBuffers (h n) (scatter n h buf) n.
Proof. unfold scatter. by rewrite seq_S, foldl_snoc. Qed.

Lemma same_size_scatter n (h : nat → Vec3 GpuScalar) buf : same_size (scatter n h buf) buf.
Proof.
  induction n as [|n IH]; [done|]. rewrite scatter_S.
  eapply same_size_trans; [apply same_size_ToBuffers | done].
Qed.

(** After the loop, entry [i] holds [h i] for every [i] below the bound,
    and the entries from the bound on are untouched. *)
Lemma FromBuffers_scatter m n (h : nat → Vec3 GpuScalar) buf :
  sized3 m buf → (n ≤ m)%nat →
  (∀ i, (i < n)%nat → FromBuffers (scatter n h buf) i = h i) ∧
  (∀ i, (n ≤ i)%nat → FromBuffers (scatter n h buf) i = FromBuffers buf i).
Proof.
  intros Hsz. induction n as [|n IH]; intros Hn.
  - split; [lia | done].
  - destruct IH as [Hlt Hge]; [lia|]. rewrite scatter_S.
    assert (sized3 m (scatter n h buf)) as Hsz'
      by (eapply same_size_sized3; [apply same_size_scatter | done]).
    split; intros i Hi.
    + destruct (decide (i = n)) as [->|Hne].
      * by apply (FromBuffers_ToBuffers_eq m).
      * rewrite FromBuffers_ToBuffers_ne by done. apply Hlt. lia.
    + rewrite FromBuffers_ToBuffers_ne by lia. apply Hge. lia.
Qed.

(** A parallel loop whose functor of index [i] writes the vector [g i] to
    entry [i] of one member buffer (reached through [get] and [put]) and
    reads only other members leaves that buffer [scatter]ed with the values
    of [g] before the loop. *)
Section Scatter.
Context {Σ : Type} (get : Σ → Buffer3 GpuScalar) (put : Buffer3 GpuScalar → Σ → Σ).
Context (g : nat → Σ → Vec3 GpuScalar).
Hypothesis get_put : ∀ buf σ, get (put buf σ) = buf.
Hypothesis put_get : ∀ σ, put (get σ) σ = σ.
Hypothesis put_put : ∀ buf buf' σ, put buf (put buf' σ) = put buf σ.
Hypothesis g_put : ∀ i buf σ, g i (put buf σ) = g i σ.

Lemma for_each_scatter n σ :
  for_each n (λ i σ', put (ToBuffers (g i σ') (get σ') i) σ') σ
  = put (scatter n (λ i, g i σ) (get σ)) σ.
Proof using get_put put_get put_put g_put.
  induction n as [|n IH].
  - unfold for_each, scatter; simpl. by rewrite put_get.
  - by rewrite for_each_S, IH, get_put, put_put, g_put, scatter_S.
Qed.

End Scatter.
End BufferFacts.

(** ** The time step *)

Section StepFacts.
Import geometry vbd spec.
Context {GpuScalar : Type} {ops : GpuScalarOps GpuScalar} {kernels : Kernels GpuScalar}.
Local Open Scope scalar_scope.
Local Open Scope obj_scope.

Implicit Types (s : VbdImpl GpuScalar) (σ : Run GpuScalar) (buf : Buffer3 GpuScalar).

Lemma set_x_id s : set_x (x (X s)) s = s.
Proof. by destruct s as [[?] ?]. Qed.

Lemma set_mInertialTargetPositions_id s :
  set_mInertialTargetPositions (mInertialTargetPositions s) s = s.
Proof. by destruct s. Qed.

Lemma set_mVelocities_id s : set_mVelocities (mVelocities s) s = s.
Proof. by destruct s. Qed.

(** *** The phases of a substep, as equations *)

Lemma StorePreviousPositions_eq σ :
  StorePreviousPositions σ =
    (inr tt,
     mkRun (set_mPositionsAtT (copy3 (mPositionsAtT (self σ)) (x (X (self σ)))) (self σ))
           (calls σ ++ [CopyPositionsAtT 0; CopyPositionsAtT 1; CopyPositionsAtT 2])).
Proof.
  unfold StorePreviousPositions, for_range, Dimensions.
  change (Z.to_nat 3) with 3%nat.
  unfold for_loop, bind, call, device, modify, ret; simpl.
  by rewrite <- !app_assoc.
Qed.

Lemma ComputeInertialTargets_eq n sdt sdt2 σ :
  ComputeInertialTargets n sdt sdt2 σ =
    (inr tt,
     mkRun (set_mInertialTargetPositions
              (scatter n
                 (λ i, InertialTarget (FromBuffers (mPositionsAtT (self σ)) i)
                         (FromBuffers (mVelocities (self σ)) i)
                         (FromBuffers (mExternalAcceleration (self σ)) i) sdt sdt2)
                 (mInertialTargetPositions (self σ)))
              (self σ))
           (calls σ ++ [ForEachInertialTarget n sdt sdt2])).
Proof.
  unfold ComputeInertialTargets, bind, call, device, modify; simpl.
  do 2 f_equal.
  apply (for_each_scatter mInertialTargetPositions set_mInertialTargetPositions
           (λ i s, InertialTarget (FromBuffers (mPositionsAtT s) i)
                     (FromBuffers (mVelocities s) i)
                     (FromBuffers (mExternalAcceleration s) i) sdt sdt2));
    [done | apply set_mInertialTargetPositions_id | done | done].
Qed.

Lemma InitializeSolve_eq n sdt sdt2 σ :
  InitializeSolve n sdt sdt2 σ =
    (inr tt,
     mkRun (set_x
              (scatter n
                 (λ i, InitialPositionsForSolve (FromBuffers (mPositionsAtT (self σ)) i)
                         (FromBuffers (mVelocitiesAtT (self σ)) i)
                         (FromBuffers (mVelocities (self σ)) i)
                         (FromBuffers (mExternalAcceleration (self σ)) i) sdt sdt2
                         (mInitializationStrategy (self σ)))
                 (x (X (self σ))))
              (self σ))
           (calls σ ++ [ForEachInitialPositionsForSolve n sdt sdt2])).
Proof.
  unfold InitializeSolve, bind, call, device, modify; simpl.
  do 2 f_equal.
  apply (for_each_scatter (λ s, x (X s)) set_x
           (λ i s, InitialPositionsForSolve (FromBuffers (mPositionsAtT s) i)
                     (FromBuffers (mVelocitiesAtT s) i) (FromBuffers (mVelocities s) i)
                     (FromBuffers (mExternalAcceleration s) i) sdt sdt2
                     (mInitializationStrategy s)));
    [done | apply set_x_id | done | done].
Qed.

Lemma UpdateVelocities_eq n sdt σ :
  UpdateVelocities n sdt σ =
    (inr tt,
     mkRun (set_mVelocities
              (scatter n
                 (λ i, IntegrateVelocity (FromBuffers (mPositionsAtT (self σ)) i)
                         (FromBuffers (x (X (self σ))) i) sdt)
                 (mVelocities (self σ)))
              (set_mVelocitiesAtT (copy3 (mVelocitiesAtT (self σ)) (mVelocities (self σ)))
                 (self σ)))
           (calls σ ++ [CopyVelocitiesAtT 0; CopyVelocitiesAtT 1; CopyVelocitiesAtT 2;
                        ForEachIntegrateVelocity n sdt])).
Proof.
  unfold UpdateVelocities, for_range, Dimensions.
  change (Z.to_nat 3) with 3%nat.
  unfold for_loop, bind, call, device, modify, ret; simpl.
  rewrite <- !app_assoc; simpl. do 2 f_equal.
  exact (for_each_scatter mVelocities set_mVelocities
           (λ i s, IntegrateVelocity (FromBuffers (mPositionsAtT s) i)
                     (FromBuffers (x (X s)) i) sdt)
           (λ _ _, eq_refl) set_mVelocities_id (λ _ _ _, eq_refl) (λ _ _ _, eq_refl) n
           (set_mVelocitiesAtT (copy3 (mVelocitiesAtT (self σ)) (mVelocities (self σ)))
              (self σ))).
Qed.

(** The Chebyshev functor ends without writing its locals back: the loop
    over the vertices leaves device memory as it was. *)
Lemma ChebyshevUpdateFunctor_id k omega i s : ChebyshevUpdateFunctor k omega i s = s.
Proof. reflexivity. Qed.

Lemma for_each_ChebyshevUpdateFunctor n k omega s :
  for_each n (ChebyshevUpdateFunctor k omega) s = s.
Proof. apply for_each_id. intros. apply ChebyshevUpdateFunctor_id. Qed.

(** *** The block coordinate descent *)

(** One kernel launch changes the positions only, and records itself. *)
Lemma MinimizeBackwardEuler_returns sdt sdt2 partition σ :
  returns (MinimizeBackwardEuler sdt sdt2 partition) σ
    (λ _ σ', ∃ buf, σ' = mkRun (set_x buf (self σ))
                               (calls σ ++ [LaunchMinimizeBackwardEuler partition])
                    ∧ same_size buf (x (X (self σ)))).
Proof.
  unfold MinimizeBackwardEuler, call. apply returns_bind, returns_modify.
  eapply returns_mono.
  - apply (returns_for_in
             (λ _ σ', ∃ buf, σ' = mkRun (set_x buf (self σ))
                                        (calls σ ++ [LaunchMinimizeBackwardEuler partition])
                             ∧ same_size buf (x (X (self σ))))
             _ partition []).
    + exists (x (X (self σ))). by rewrite set_x_id.
    + intros pre i post σ' _ (buf & -> & Hsz). unfold device. apply returns_modify.
      eexists. split; [reflexivity|]. simpl.
      eapply same_size_trans; [apply same_size_ToBuffers | done].
  - by intros [] σ' H.
Qed.

Lemma weights_launches (partitions : list (list Z)) :
  weights (LaunchMinimizeBackwardEuler <$> partitions) = @nil (Z * GpuScalar).
Proof. by induction partitions. Qed.

(** Outer iteration [k]: the weight is computed first, the partitions are
    swept in order, and the Chebyshev update is launched with that weight;
    without acceleration only the sweep remains.  Positions apart, the
    object is left as it was. *)
Lemma OuterIteration_returns bUse nVertices sdt sdt2 rho2 k omega σ :
  returns (OuterIteration bUse nVertices sdt sdt2 rho2 k omega) σ
    (λ omega' σ',
       omega' = (if bUse then ChebyshevOmega k rho2 omega else omega) ∧
       ∃ buf, σ' = mkRun (set_x buf (self σ))
                         (calls σ ++ iteration_calls bUse nVertices rho2
                                       (mPartitions (self σ)) k omega)
              ∧ same_size buf (x (X (self σ)))).
Proof.
  unfold OuterIteration.
  set (first := if bUse then [CallChebyshevOmega k rho2 omega] else []).
  set (omega' := if bUse then ChebyshevOmega k rho2 omega else omega).
  assert (∀ Q : GpuScalar → Run GpuScalar → Prop,
            Q omega' (mkRun (self σ) (calls σ ++ first)) →
            returns (if bUse
                     then call (CallChebyshevOmega k rho2 omega) ;;
                          ret (ChebyshevOmega k rho2 omega)
                     else ret omega) σ Q) as Hfirst.
  { intros Q HQ. subst first omega'. destruct bUse.
    - unfold call. apply returns_bind, returns_modify. by apply returns_ret.
    - apply returns_ret. rewrite app_nil_r in HQ. by destruct σ. }
  apply returns_bind, Hfirst. apply returns_bind, returns_gets. simpl.
  apply returns_bind. eapply returns_mono.
  - apply (returns_for_in
             (λ visited σ',
                ∃ buf, σ' = mkRun (set_x buf (self σ))
                                  (calls σ ++ first ++ (LaunchMinimizeBackwardEuler <$> visited))
                       ∧ same_size buf (x (X (self σ))))
             _ (mPartitions (self σ)) []).
    + exists (x (X (self σ))). rewrite set_x_id. simpl. by rewrite app_nil_r.
    + intros pre partition post σ' _ (buf & -> & Hsz).
      eapply returns_mono; [apply MinimizeBackwardEuler_returns|].
      intros [] σ'' (buf' & -> & Hsz'). simpl in *.
      exists buf'. split.
      * rewrite fmap_app. simpl. by rewrite <- !app_assoc.
      * by eapply same_size_trans.
  - intros [] σ' (buf & -> & Hsz). simpl.
    apply returns_bind.
    assert (∀ Q : unit → Run GpuScalar → Prop,
              Q tt (mkRun (set_x buf (self σ))
                          (calls σ ++ iteration_calls bUse nVertices rho2
                                        (mPartitions (self σ)) k omega)) →
              returns (if bUse
                       then call (ForEachChebyshevUpdate nVertices k omega') ;;
                            device (for_each nVertices (ChebyshevUpdateFunctor k omega'))
                       else ret tt)
                (mkRun (set_x buf (self σ))
                   (calls σ ++ first ++
                      (LaunchMinimizeBackwardEuler <$> mPartitions (self σ)))) Q) as Hlast.
    { intros Q HQ. unfold iteration_calls in HQ. subst first omega'. destruct bUse.
      - unfold call, device. apply returns_bind, returns_modify.
        apply returns_modify. simpl.
        rewrite for_each_ChebyshevUpdateFunctor. by rewrite <- !app_assoc.
      - apply returns_ret. by rewrite app_nil_r in HQ. }
    apply Hlast. apply returns_ret. eauto.
Qed.

Lemma Minimize_returns bUse nVertices iterations sdt sdt2 rho σ :
  returns (Minimize bUse nVertices iterations sdt sdt2 rho) σ
    (λ omega σ',
       omega = omega_after bUse (rho * rho) (Z.to_nat iterations) ∧
       ∃ buf, σ' = mkRun (set_x buf (self σ))
                         (calls σ ++ minimize_calls bUse nVertices (rho * rho)
                                       (mPartitions (self σ)) (Z.to_nat iterations))
              ∧ same_size buf (x (X (self σ)))).
Proof.
  unfold Minimize.
  apply (returns_for_range
           (λ j omega σ',
              omega = omega_after bUse (rho * rho) j ∧
              ∃ buf, σ' = mkRun (set_x buf (self σ))
                                (calls σ ++ minimize_calls bUse nVertices (rho * rho)
                                              (mPartitions (self σ)) j)
                     ∧ same_size buf (x (X (self σ))))).
  - split; [done|]. exists (x (X (self σ))). rewrite set_x_id. simpl.
    rewrite app_nil_r. by destruct σ.
  - intros j omega σ' Hj (-> & buf & -> & Hsz).
    eapply returns_mono; [apply OuterIteration_returns|].
    intros omega' σ'' (-> & buf' & -> & Hsz'). simpl in *.
    split; [done|]. exists buf'. split.
    + by rewrite <- app_assoc.
    + by eapply same_size_trans.
Qed.

(** *** A substep and the whole step *)

Lemma Substep_returns bUse nVertices iterations sdt sdt2 rho σ :
  returns (Substep bUse nVertices iterations sdt sdt2 rho) σ
    (λ _ σ', ∃ bx,
       σ' = mkRun (substep_state nVertices sdt sdt2 bx (self σ))
                  (calls σ ++ substep_calls bUse nVertices iterations sdt sdt2 rho
                                (mPartitions (self σ)))
       ∧ same_size bx (x (X (self σ)))).
Proof.
  unfold Substep.
  apply returns_bind. eexists _, _. split; [apply StorePreviousPositions_eq|].
  apply returns_bind. eexists _, _. split; [apply ComputeInertialTargets_eq|].
  apply returns_bind. eexists _, _. split; [apply InitializeSolve_eq|].
  apply returns_bind. eapply returns_mono; [apply Minimize_returns|].
  intros omega σ' (_ & bx & -> & Hsz). simpl in *.
  eexists _, _. split; [apply UpdateVelocities_eq|]. simpl.
  exists bx. split.
  - unfold substep_state, substep_calls. f_equal. by rewrite <- !app_assoc.
  - eapply same_size_trans; [done | apply same_size_scatter].
Qed.

Lemma concat_replicate_S {A} n (l : list A) :
  concat (replicate (S n) l) = concat (replicate n l) ++ l.
Proof.
  induction n as [|n IH]; simpl in *; [by rewrite app_nil_r|].
  rewrite <- app_assoc. by f_equal.
Qed.

(** [Step] returns normally from every state; the calls it makes are the
    same for every substep, and the partitions are left as they were. *)
Lemma Step_returns dt iterations substeps rho σ :
  returns (Step dt iterations substeps rho) σ
    (λ _ σ',
       calls σ' = calls σ ++ step_calls dt iterations substeps rho
                               (NumberOfPoints (X (self σ))) (mPartitions (self σ))
       ∧ mPartitions (self σ') = mPartitions (self σ)).
Proof.
  unfold Step, step_calls.
  set (sdt := dt / of_index substeps).
  set (sc := substep_calls _ _ _ _ _ _ _).
  apply returns_bind, returns_gets.
  unfold call at 1. apply returns_bind, returns_modify.
  apply returns_bind. eapply returns_mono.
  - apply (returns_for_range
             (λ j _ σ',
                calls σ' = calls σ ++ [MakeCurrent] ++ concat (replicate j sc)
                ∧ mPartitions (self σ') = mPartitions (self σ))).
    + done.
    + intros j [] σ' Hj [Hcalls Hparts].
      eapply returns_mono; [apply Substep_returns|].
      intros [] σ'' (bx & -> & _). cbn [calls self]. split; [|exact Hparts].
      rewrite Hcalls, Hparts, concat_replicate_S. fold sc.
      by rewrite <- !app_assoc.
  - intros [] σ' [Hcalls Hparts]. unfold call. apply returns_modify. simpl.
    split; [|done]. rewrite Hcalls. by rewrite <- !app_assoc.
Qed.

(** *** The calls of a step, counted *)

Lemma count_app p (cs1 cs2 : list (Call GpuScalar)) :
  count p (cs1 ++ cs2) = (count p cs1 + count p cs2)%nat.
Proof. unfold count. by rewrite List.filter_app, length_app. Qed.

Lemma count_launches (p : Call GpuScalar → bool) (partitions : list (list Z)) :
  (∀ partition, p (LaunchMinimizeBackwardEuler partition) = false) →
  count p (LaunchMinimizeBackwardEuler <$> partitions) = 0%nat.
Proof.
  intros Hp. induction partitions as [|partition rest IH]; [done|].
  unfold count in *. simpl. by rewrite Hp.
Qed.

Lemma count_concat_replicate p n (cs : list (Call GpuScalar)) :
  count p (concat (replicate n cs)) = (n * count p cs)%nat.
Proof.
  induction n as [|n IH]; [done|]. simpl. rewrite count_app, IH. lia.
Qed.

Lemma count_minimize_calls bUse nVertices rho2 partitions j :
  count is_omega_call (minimize_calls bUse nVertices rho2 partitions j)
    = (if bUse then j else 0%nat) ∧
  count is_update_call (minimize_calls bUse nVertices rho2 partitions j)
    = (if bUse then j else 0%nat).
Proof.
  induction j as [|j [IHo IHu]]; [by destruct bUse|].
  simpl. unfold iteration_calls. rewrite !count_app, IHo, IHu, !count_launches by done.
  destruct bUse; unfold count; simpl; lia.
Qed.

Lemma count_is_chebyshev_call (cs : list (Call GpuScalar)) :
  count is_omega_call cs = 0%nat → count is_update_call cs = 0%nat →
  count is_chebyshev_call cs = 0%nat.
Proof.
  unfold count, is_chebyshev_call. induction cs as [|c cs IH]; [done|]. simpl.
  destruct (is_omega_call c), (is_update_call c); simpl; done.
Qed.

Lemma count_substep_calls bUse nVertices iterations sdt sdt2 rho partitions :
  count is_omega_call (substep_calls bUse nVertices iterations sdt sdt2 rho partitions)
    = (if bUse then Z.to_nat iterations else 0%nat) ∧
  count is_update_call (substep_calls bUse nVertices iterations sdt sdt2 rho partitions)
    = (if bUse then Z.to_nat iterations else 0%nat).
Proof.
  unfold substep_calls.
  destruct (count_minimize_calls bUse nVertices (rho * rho) partitions (Z.to_nat iterations))
    as [Ho Hu].
  rewrite !count_app, Ho, Hu. unfold count; simpl. lia.
Qed.

Lemma omega_after_schedule rho2 k :
  omega_after true rho2 (S k) = chebyshev_schedule rho2 k.
Proof.
  induction k as [|k IH]; [done|].
  change (omega_after true rho2 (S (S k)))
    with (ChebyshevOmega (Z.of_nat (S k)) rho2 (omega_after true rho2 (S k))).
  rewrite IH. destruct k as [|k]; [done|].
  unfold ChebyshevOmega.
  destruct (Z.eqb_spec (Z.of_nat (S (S k))) 0) as [?|_]; [lia|].
  by destruct (Z.eqb_spec (Z.of_nat (S (S k))) 1) as [?|_]; [lia|].
Qed.

Lemma weights_minimize_calls nVertices rho2 partitions j :
  weights (minimize_calls true nVertices rho2 partitions j)
  = (λ k, (Z.of_nat k, chebyshev_schedule rho2 k)) <$> seq 0 j.
Proof.
  induction j as [|j IH]; [done|].
  simpl minimize_calls. unfold weights, iteration_calls in *.
  rewrite !omap_app, IH, seq_S, fmap_app. f_equal.
  fold (weights (LaunchMinimizeBackwardEuler <$> partitions)).
  rewrite weights_launches. simpl. do 2 f_equal. apply (omega_after_schedule rho2 j).
Qed.

(** *** The solve of a substep *)

(** Lines 99-200: the substep up to the end of its outer iterations.  The
    snapshot and the inertial targets are as computed at its start; the
    positions are those the iterations end with. *)
Lemma Solve_returns bUse nVertices iterations sdt sdt2 rho σ :
  returns (StorePreviousPositions ;; ComputeInertialTargets nVertices sdt sdt2 ;;
           InitializeSolve nVertices sdt sdt2 ;;
           Minimize bUse nVertices iterations sdt sdt2 rho) σ
    (λ _ σ', ∃ bx cs,
       let xt := copy3 (mPositionsAtT (self σ)) (x (X (self σ))) in
       let xtilde :=
         scatter nVertices
           (λ i, InertialTarget (FromBuffers xt i) (FromBuffers (mVelocities (self σ)) i)
                   (FromBuffers (mExternalAcceleration (self σ)) i) sdt sdt2)
           (mInertialTargetPositions (self σ)) in
       σ' = mkRun (set_x bx (set_mInertialTargetPositions xtilde
                               (set_mPositionsAtT xt (self σ))))
                  (calls σ ++ cs)
       ∧ same_size bx (x (X (self σ)))).
Proof.
  apply returns_bind. eexists _, _. split; [apply StorePreviousPositions_eq|].
  apply returns_bind. eexists _, _. split; [apply ComputeInertialTargets_eq|].
  apply returns_bind. eexists _, _. split; [apply InitializeSolve_eq|].
  eapply returns_mono; [apply Minimize_returns|].
  intros omega σ' (_ & bx & -> & Hsz). simpl in *.
  eexists bx, _. split.
  - f_equal. rewrite <- !app_assoc. reflexivity.
  - eapply same_size_trans; [done | apply same_size_scatter].
Qed.

Lemma Substep_after_solve bUse nVertices iterations sdt sdt2 rho σ :
  Substep bUse nVertices iterations sdt sdt2 rho σ
  = ((StorePreviousPositions ;; ComputeInertialTargets nVertices sdt sdt2 ;;
      InitializeSolve nVertices sdt sdt2 ;;
      Minimize bUse nVertices iterations sdt sdt2 rho) ;;
     UpdateVelocities nVertices sdt) σ.
Proof.
  unfold Substep, bind.
  destruct (StorePreviousPositions σ) as [[e|[]] σ1]; [done|].
  destruct (ComputeInertialTargets nVertices sdt sdt2 σ1) as [[e|[]] σ2]; [done|].
  destruct (InitializeSolve nVertices sdt sdt2 σ2) as [[e|[]] σ3]; [done|].
  by destruct (Minimize bUse nVertices iterations sdt sdt2 rho σ3) as [[e|omega] σ4].
Qed.

(** A substep keeps the per-vertex buffers at their size, so every substep
    of a step starts from a sized object when the first one does. *)
Lemma substep_state_Sized n sdt sdt2 bx s :
  Sized n s → same_size bx (x (X s)) → Sized n (substep_state n sdt sdt2 bx s).
Proof.
  intros (Hx & Hxt & Hxtilde & Hvt & Hv & Ha) Hbx.
  unfold Sized, substep_state; simpl.
  rewrite !(copy3_sized n) by done.
  split_and!; try done.
  - by eapply same_size_sized3.
  - eapply same_size_sized3; [apply same_size_scatter | done].
  - eapply same_size_sized3; [apply same_size_scatter | done].
Qed.

Lemma Substep_preserves bUse n iterations sdt sdt2 rho s :
  let s' := object_after (Substep bUse n iterations sdt sdt2 rho) s in
  NumberOfPoints (X s') = NumberOfPoints (X s) ∧ mPartitions s' = mPartitions s ∧
  (Sized n s → Sized n s').
Proof.
  intros s'. subst s'. unfold object_after.
  destruct (Substep_returns bUse n iterations sdt sdt2 rho (mkRun s []))
    as ([] & σ' & -> & bx & -> & Hbx).
  cbn [snd self] in *. split_and!.
  - unfold NumberOfPoints, Size3. apply Hbx.
  - done.
  - intros HS. by apply substep_state_Sized.
Qed.

(** *** The Chebyshev weights *)

(** C1.  With acceleration enabled, outer iteration [k] first calls
    [ChebyshevOmega(k, rho2, omega)] on the weight carried over from the
    previous iteration, then sweeps the partitions, and hands the result to
    the Chebyshev update; over the loop of a substep the weights so computed
    are, for [k = 0, 1, 2, ...], those of the three-regime schedule:
    1, then 2/(2 - rho^2), then 4/(4 - rho^2 * omega_(k-1)). *)
Theorem Minimize_chebyshev_schedule nVertices iterations sdt sdt2 rho s :
  let rho2 := rho * rho in
  (∀ k omega,
     outcome (OuterIteration true nVertices sdt sdt2 rho2 k omega) s
       = inr (ChebyshevOmega k rho2 omega) ∧
     calls_of (OuterIteration true nVertices sdt sdt2 rho2 k omega) s
       = CallChebyshevOmega k rho2 omega ::
         (LaunchMinimizeBackwardEuler <$> mPartitions s) ++
         [ForEachChebyshevUpdate nVertices k (ChebyshevOmega k rho2 omega)]) ∧
  weights (calls_of (Minimize true nVertices iterations sdt sdt2 rho) s)
  = (λ k, (Z.of_nat k, chebyshev_schedule rho2 k)) <$> seq 0 (Z.to_nat iterations).
Proof.
  intros rho2. split.
  - intros k omega. unfold outcome, calls_of.
    destruct (OuterIteration_returns true nVertices sdt sdt2 rho2 k omega (mkRun s []))
      as (omega' & σ' & -> & -> & buf & -> & _).
    done.
  - unfold calls_of.
    destruct (Minimize_returns true nVertices iterations sdt sdt2 rho (mkRun s []))
      as (omega' & σ' & -> & _ & buf & -> & _).
    apply weights_minimize_calls.
Qed.

(** *** The Chebyshev update *)

(** The loop over the vertices launched at lines 184-198 changes nothing:
    positions and both history buffers are as before it, whatever [k] and
    [omega] are. *)
Lemma ChebyshevUpdate_discarded nVertices k omega s :
  let s' := for_each nVertices (ChebyshevUpdateFunctor k omega) s in
  x (X s') = x (X s) ∧ mChebyshevPositionsM1 s' = mChebyshevPositionsM1 s ∧
  mChebyshevPositionsM2 s' = mChebyshevPositionsM2 s.
Proof. intros s'. subst s'. by rewrite for_each_ChebyshevUpdateFunctor. Qed.

(** *** The condition on the spectral radius *)

(** C3.  Acceleration is in use exactly when [0 < rho] and [rho < 1].  A
    step with acceleration in use calls [ChebyshevOmega] and launches the
    Chebyshev update once per outer iteration of every substep; a step
    without it makes neither call, in any iteration. *)
Theorem Step_chebyshev_enabled dt iterations substeps rho s :
  let cs := calls_of (Step dt iterations substeps rho) s in
  let n := (Z.to_nat substeps * Z.to_nat iterations)%nat in
  (bUseChebyshevAcceleration rho = true ↔
     (lit 0 0 <? rho) = true ∧ (rho <? lit 1 0) = true) ∧
  (bUseChebyshevAcceleration rho = true →
     count is_omega_call cs = n ∧ count is_update_call cs = n) ∧
  (bUseChebyshevAcceleration rho = false → count is_chebyshev_call cs = 0%nat).
Proof.
  intros cs n. subst cs. unfold calls_of.
  destruct (Step_returns dt iterations substeps rho (mkRun s []))
    as ([] & σ' & -> & Hcalls & _).
  cbn [snd calls self] in *. rewrite Hcalls. clear Hcalls.
  split_and!.
  - unfold bUseChebyshevAcceleration. apply andb_true_iff.
  - intros Huse. unfold step_calls. rewrite Huse.
    destruct (count_substep_calls true (NumberOfPoints (X s)) iterations
                (dt / of_index substeps) (dt / of_index substeps * (dt / of_index substeps))
                rho (mPartitions s)) as [Ho Hu].
    cbv zeta. rewrite !count_app, !count_concat_replicate, Ho, Hu.
    unfold count; simpl. subst n. lia.
  - intros Huse. unfold step_calls. rewrite Huse.
    destruct (count_substep_calls false (NumberOfPoints (X s)) iterations
                (dt / of_index substeps) (dt / of_index substeps * (dt / of_index substeps))
                rho (mPartitions s)) as [Ho Hu].
    apply count_is_chebyshev_call;
      cbv zeta; rewrite !count_app, !count_concat_replicate, ?Ho, ?Hu;
      unfold count; simpl; lia.
Qed.

(** *** The inertial target *)

(** One substep, from the object [s] it starts with, its per-vertex buffers
    holding [n] vertices.  Once the positions are stored and the inertial
    targets computed (lines 99-128), the target of every vertex [i < n] is
    [x_i + sdt*v_i + sdt2*aext_i], with [x], [v] and [aext] as in [s]; the
    substep is this prologue followed by the initial guess, the outer
    iterations and the velocity update, none of which writes the targets. *)
Lemma Substep_prologue_target bUse n iterations sdt rho s i :
  let sdt2 := sdt * sdt in
  Sized n s → (i < n)%nat →
  let prologue := StorePreviousPositions ;; ComputeInertialTargets n sdt sdt2 in
  let s1 := object_after prologue s in
  FromBuffers (mInertialTargetPositions s1) i
    = vadd (vadd (FromBuffers (x (X s)) i) (vscale sdt (FromBuffers (mVelocities s) i)))
           (vscale (sdt * sdt) (FromBuffers (mExternalAcceleration s) i)) ∧
  (∀ σ, Substep bUse n iterations sdt sdt2 rho σ
        = (prologue ;; InitializeSolve n sdt sdt2 ;;
           Minimize bUse n iterations sdt sdt2 rho ;; UpdateVelocities n sdt) σ) ∧
  mInertialTargetPositions (object_after (Substep bUse n iterations sdt sdt2 rho) s)
    = mInertialTargetPositions s1.
Proof.
  intros sdt2 (Hx & Hxt & Hxtilde & Hvt & Hv & Ha) Hi prologue s1.
  assert (prologue (mkRun s [])
          = ComputeInertialTargets n sdt sdt2
              (mkRun (set_mPositionsAtT (copy3 (mPositionsAtT s) (x (X s))) s)
                     [CopyPositionsAtT 0; CopyPositionsAtT 1; CopyPositionsAtT 2]))
    as Hprologue.
  { unfold prologue, bind. by rewrite StorePreviousPositions_eq. }
  rewrite ComputeInertialTargets_eq in Hprologue.
  split_and!.
  - subst s1. unfold object_after. rewrite Hprologue. cbn [snd self].
    cbn [mInertialTargetPositions set_mInertialTargetPositions
         mPositionsAtT set_mPositionsAtT mVelocities mExternalAcceleration].
    rewrite (copy3_sized n) by done.
    edestruct (FromBuffers_scatter n n) as [Hlt _]; [exact Hxtilde | lia |].
    by rewrite Hlt.
  - intros σ. unfold Substep, prologue. symmetry. apply bind_assoc.
  - subst s1. unfold object_after. rewrite Hprologue.
    destruct (Substep_returns bUse n iterations sdt sdt2 rho (mkRun s []))
      as ([] & σ' & -> & bx & -> & _).
    reflexivity.
Qed.

(** *** The velocity update *)

(** One substep, from the object [s] it starts with, its per-vertex buffers
    holding [n] vertices, [x_new] being the positions the outer iterations
    end with.  At the end of the substep the velocity of every vertex
    [i < n] is [(x_new_i - x_i) / sdt], with [x] as in [s] (nothing else
    enters it); the positions are still [x_new], and the previous-velocity
    buffer holds the velocities of [s]. *)
Lemma Substep_finite_difference bUse n iterations sdt rho s i :
  let sdt2 := sdt * sdt in
  Sized n s → (i < n)%nat →
  let solve := StorePreviousPositions ;; ComputeInertialTargets n sdt sdt2 ;;
               InitializeSolve n sdt sdt2 ;; Minimize bUse n iterations sdt sdt2 rho in
  let x_new := x (X (object_after solve s)) in
  let s' := object_after (Substep bUse n iterations sdt sdt2 rho) s in
  FromBuffers (mVelocities s') i
    = vdiv (vsub (FromBuffers x_new i) (FromBuffers (x (X s)) i)) sdt ∧
  x (X s') = x_new ∧
  mVelocitiesAtT s' = mVelocities s.
Proof.
  intros sdt2 (Hx & Hxt & Hxtilde & Hvt & Hv & Ha) Hi solve x_new s'.
  subst x_new s'. unfold object_after.
  destruct (Solve_returns bUse n iterations sdt sdt2 rho (mkRun s []))
    as (omega & σ1 & Hsolve & bx & cs & -> & Hbx).
  fold solve in Hsolve.
  assert (Substep bUse n iterations sdt sdt2 rho (mkRun s [])
          = UpdateVelocities n sdt (solve (mkRun s [])).2) as ->.
  { rewrite Substep_after_solve. fold solve. unfold bind. by rewrite Hsolve. }
  rewrite Hsolve, UpdateVelocities_eq.
  cbn [snd self mVelocities set_mVelocities mVelocitiesAtT set_mVelocitiesAtT x X set_x
       mPositionsAtT set_mInertialTargetPositions set_mPositionsAtT].
  rewrite !(copy3_sized n) by done.
  split_and!; [|done|done].
  edestruct (FromBuffers_scatter n n) as [Hlt _]; [exact Hv | lia |].
  by rewrite Hlt.
Qed.

(** *** The substeps of a step *)

Lemma oblivious_ret {A} (a : A) : oblivious (ret a : M (Run GpuScalar) A).
Proof. by intros σ σ' H. Qed.

Lemma oblivious_bind {A B} (m : M (Run GpuScalar) A) (f : A → M (Run GpuScalar) B) :
  oblivious m → (∀ a, oblivious (f a)) → oblivious (bind m f).
Proof.
  intros Hm Hf σ σ' H. unfold bind.
  destruct (Hm σ σ' H) as [Hfst Hself].
  destruct (m σ) as [[e|a] σ1], (m σ') as [[e'|a'] σ1']; simpl in *; simplify_eq.
  - done.
  - by apply Hf.
Qed.

Lemma oblivious_call (c : Call GpuScalar) : oblivious (call c).
Proof. by intros σ σ' H. Qed.

Lemma oblivious_device (f : VbdImpl GpuScalar → VbdImpl GpuScalar) : oblivious (device f).
Proof. intros σ σ' H. unfold device, modify. simpl. by rewrite H. Qed.

Lemma oblivious_gets {A} (g : VbdImpl GpuScalar → A) : oblivious (gets (λ r, g (self r))).
Proof. intros σ σ' H. unfold gets. simpl. by rewrite H. Qed.

Lemma oblivious_for_loop {A} n k (body : Z → A → M (Run GpuScalar) A) a :
  (∀ k a, oblivious (body k a)) → oblivious (for_loop n k body a).
Proof.
  intros Hbody. revert k a. induction n as [|n IH]; intros k a.
  - apply oblivious_ret.
  - apply oblivious_bind; [apply Hbody | intros a'; apply IH].
Qed.

Lemma oblivious_for_in {E} (range : list E) (body : E → M (Run GpuScalar) unit) :
  (∀ e, oblivious (body e)) → oblivious (for_in range body).
Proof.
  intros Hbody. induction range as [|e rest IH].
  - apply oblivious_ret.
  - apply oblivious_bind; [apply Hbody | intros _; apply IH].
Qed.

Local Ltac oblivious_step :=
  first [ apply oblivious_bind; [|intros ?]
        | apply oblivious_for_loop; intros ? ?
        | apply oblivious_for_in; intros ?
        | apply oblivious_call
        | apply oblivious_device
        | apply oblivious_ret
        | apply (oblivious_gets (λ s, mPartitions s)) ].

(** The object a substep leaves depends on the object it starts from, not
    on the calls recorded before it. *)
Lemma oblivious_Substep bUse n iterations sdt sdt2 rho :
  oblivious (Substep bUse n iterations sdt sdt2 rho).
Proof.
  unfold Substep, StorePreviousPositions, ComputeInertialTargets, InitializeSolve,
    Minimize, UpdateVelocities, for_range, OuterIteration, MinimizeBackwardEuler.
  destruct bUse; repeat oblivious_step.
Qed.

Lemma Substep_self bUse n iterations sdt sdt2 rho σ :
  self (snd (Substep bUse n iterations sdt sdt2 rho σ))
  = object_after (Substep bUse n iterations sdt sdt2 rho) (self σ).
Proof. unfold object_after. by apply oblivious_Substep. Qed.

(** [Step] runs the body of its loop [substeps] times, with
    [sdt = dt/substeps]: the object it leaves is the one after that many
    substeps. *)
Lemma Step_after_substeps dt iterations substeps rho s :
  object_after (Step dt iterations substeps rho) s
  = after_substeps dt iterations substeps rho s (Z.to_nat substeps).
Proof.
  cut (returns (Step dt iterations substeps rho) (mkRun s [])
         (λ _ σ', self σ' = after_substeps dt iterations substeps rho s (Z.to_nat substeps))).
  { intros ([] & σ' & Hstep & H). unfold object_after. by rewrite Hstep. }
  unfold Step. apply returns_bind, returns_gets. cbn [self].
  unfold call at 1. apply returns_bind, returns_modify.
  apply returns_bind. eapply returns_mono.
  - apply (returns_for_range
             (λ (j : nat) (_ : unit) σ',
                self σ' = after_substeps dt iterations substeps rho s j)).
    + done.
    + intros j [] σ' Hj Hself.
      destruct (Substep_returns (bUseChebyshevAcceleration rho) (NumberOfPoints (X s))
                  iterations (dt / of_index substeps)
                  (dt / of_index substeps * (dt / of_index substeps)) rho σ')
        as ([] & σ'' & Hsub & _).
      exists tt, σ''. split; [exact Hsub|].
      cbn [after_substeps]. rewrite <- Hself, <- Substep_self. by rewrite Hsub.
  - intros [] σ' H. unfold call. by apply returns_modify.
Qed.

(** Every substep of a step starts from an object whose per-vertex buffers
    hold the vertices of the first. *)
Lemma after_substeps_Sized dt iterations substeps rho s j :
  let n := NumberOfPoints (X s) in
  Sized n s → Sized n (after_substeps dt iterations substeps rho s j).
Proof.
  intros n HS. induction j as [|j IH]; [done|].
  cbn [after_substeps]. by apply Substep_preserves.
Qed.

(** *** The inertial target *)

(** C4.  [Step(dt, iterations, substeps, rho)] runs [substeps] substeps with
    [sdt = dt/substeps]: the object it leaves is the one after that many
    passes through the body of its loop.  In substep [j] of them, once the
    positions are stored and the inertial targets computed (lines 99-128),
    the target of every vertex [i < n] is [x_i + sdt*v_i + sdt^2*aext_i],
    with [x], [v] and [aext] as in the object the substep starts from; the
    substep is this prologue followed by the initial guess, the outer
    iterations and the velocity update, none of which writes the targets,
    which are therefore still the same at the end of the substep. *)
Theorem Step_inertial_target dt iterations substeps rho s j i :
  let n := NumberOfPoints (X s) in
  let sdt := dt / of_index substeps in
  let sdt2 := sdt * sdt in
  let bUse := bUseChebyshevAcceleration rho in
  Sized n s → (j < Z.to_nat substeps)%nat → (i < n)%nat →
  let s_j := after_substeps dt iterations substeps rho s j in
  let prologue := StorePreviousPositions ;; ComputeInertialTargets n sdt sdt2 in
  let s1 := object_after prologue s_j in
  object_after (Step dt iterations substeps rho) s
    = after_substeps dt iterations substeps rho s (Z.to_nat substeps) ∧
  FromBuffers (mInertialTargetPositions s1) i
    = vadd (vadd (FromBuffers (x (X s_j)) i) (vscale sdt (FromBuffers (mVelocities s_j) i)))
           (vscale (sdt * sdt) (FromBuffers (mExternalAcceleration s_j) i)) ∧
  (∀ σ, Substep bUse n iterations sdt sdt2 rho σ
        = (prologue ;; InitializeSolve n sdt sdt2 ;;
           Minimize bUse n iterations sdt sdt2 rho ;; UpdateVelocities n sdt) σ) ∧
  mInertialTargetPositions (after_substeps dt iterations substeps rho s (S j))
    = mInertialTargetPositions s1.
Proof.
  intros n sdt sdt2 bUse HS Hj Hi s_j prologue s1.
  split; [apply Step_after_substeps|].
  apply (Substep_prologue_target bUse n iterations sdt rho s_j i); [|done].
  by apply after_substeps_Sized.
Qed.

(** *** The velocity update *)

(** C5.  [Step(dt, iterations, substeps, rho)] runs [substeps] substeps with
    [sdt = dt/substeps]: the object it leaves is the one after that many
    passes through the body of its loop.  At the end of substep [j] of them
    the velocity of every vertex [i < n] is [(x_new_i - xt_i) / sdt], where
    [xt] are the positions the substep started from and [x_new] the
    positions its outer iterations ended with (nothing else enters it, no
    damping term in particular); the positions are still [x_new], and the
    previous-velocity buffer holds the velocities the substep started
    from. *)
Theorem Step_velocity dt iterations substeps rho s j i :
  let n := NumberOfPoints (X s) in
  let sdt := dt / of_index substeps in
  let sdt2 := sdt * sdt in
  let bUse := bUseChebyshevAcceleration rho in
  Sized n s → (j < Z.to_nat substeps)%nat → (i < n)%nat →
  let s_j := after_substeps dt iterations substeps rho s j in
  let s' := after_substeps dt iterations substeps rho s (S j) in
  let solve := StorePreviousPositions ;; ComputeInertialTargets n sdt sdt2 ;;
               InitializeSolve n sdt sdt2 ;; Minimize bUse n iterations sdt sdt2 rho in
  let x_new := x (X (object_after solve s_j)) in
  object_after (Step dt iterations substeps rho) s
    = after_substeps dt iterations substeps rho s (Z.to_nat substeps) ∧
  FromBuffers (mVelocities s') i
    = vdiv (vsub (FromBuffers x_new i) (FromBuffers (x (X s_j)) i)) sdt ∧
  x (X s') = x_new ∧
  mVelocitiesAtT s' = mVelocities s_j.
Proof.
  intros n sdt sdt2 bUse HS Hj Hi s_j s' solve x_new.
  split; [apply Step_after_substeps|].
  apply (Substep_finite_difference bUse n iterations sdt rho s_j i); [|done].
  by apply after_substeps_Sized.
Qed.

End StepFacts.

(** ** Construction and setters *)

Section ObjectFacts.
Import geometry vbd spec.
Context {GpuScalar : Type} {ops : GpuScalarOps GpuScalar}.
Local Open Scope obj_scope.

Implicit Types (s : VbdImpl GpuScalar).

(** C9.  After construction from [Xin] with [n] columns: the velocities, the
    previous velocities and the external accelerations are [n] zero
    vectors, the masses are [n] times 1e3, the positions (and their
    snapshot) are the rows of [Xin], the Hessian-determinant threshold is
    1e-10, the Rayleigh damping 0, the collision penalty 1e3 and the cap on
    colliding triangles per vertex 8. *)
Theorem VbdImpl_init_defaults (Xin : Matrix GpuScalar) (Vin Fin Tin : Matrix Z) :
  let s := VbdImpl_init Xin Vin Fin Tin in
  let n := cols Xin in
  let zero := (lit 0 0, lit 0 0, lit 0 0) in
  (mVelocities s = Buffer3_n (lit 0 0) n ∧
   mVelocitiesAtT s = Buffer3_n (lit 0 0) n ∧
   mExternalAcceleration s = Buffer3_n (lit 0 0) n ∧
   mMass s = replicate n (lit 1 3)) ∧
  (∀ i, (i < n)%nat →
     FromBuffers (mVelocities s) i = zero ∧ FromBuffers (mVelocitiesAtT s) i = zero ∧
     FromBuffers (mExternalAcceleration s) i = zero ∧ mMass s !! i = Some (lit 1 3)) ∧
  (x (X s) = mkBuffer3 (row Xin 0) (row Xin 1) (row Xin 2) ∧ mPositionsAtT s = x (X s)) ∧
  mDetHZero s = lit 1 (-10) ∧
  mRayleighDamping s = lit 0 0 ∧
  mCollisionPenalty s = lit 1 3 ∧
  mMaxCollidingTrianglesPerVertex s = 8.
Proof.
  intros s n zero.
  assert (mVelocities s = Buffer3_n (lit 0 0) n ∧
          mVelocitiesAtT s = Buffer3_n (lit 0 0) n ∧
          mExternalAcceleration s = Buffer3_n (lit 0 0) n ∧
          mMass s = replicate n (lit 1 3)) as Hbufs.
  { subst s. unfold VbdImpl_init, SetConstant3, SetConstant, Buffer3_n. simpl.
    by rewrite !length_replicate. }
  split; [exact Hbufs|]. split; [|by split_and!].
  destruct Hbufs as (Hv & Hvt & Ha & Hm). intros i Hi.
  rewrite Hv, Hvt, Ha, Hm.
  unfold FromBuffers, Buffer3_n. simpl.
  by rewrite !lookup_replicate_2 by done.
Qed.

(** A body built from three rows of [n] coordinates is sized. *)
Lemma VbdImpl_init_Sized (Xin : Matrix GpuScalar) (Vin Fin Tin : Matrix Z) :
  length (row Xin 1) = cols Xin → length (row Xin 2) = cols Xin →
  Sized (cols Xin) (VbdImpl_init Xin Vin Fin Tin).
Proof.
  intros H1 H2.
  unfold Sized, sized3, VbdImpl_init, SetConstant3, Buffer3_n. simpl.
  rewrite !length_replicate. by split_and!.
Qed.

(** The two messages cannot be confused. *)
Lemma ToBuffer_what_adjacency_what expected actual neighbours ilocal :
  ToBuffer_what expected actual ≠ adjacency_what neighbours ilocal.
Proof. unfold ToBuffer_what, adjacency_what. simpl. discriminate. Qed.

Lemma ToBuffer_member_ok {A} (input : list A) member assign s :
  length input = length (member s) →
  ToBuffer_member input member assign s = (inr tt, assign input s).
Proof.
  intros Hlen. unfold ToBuffer_member, bind, gets, lift, modify, ToBuffer.
  by rewrite Hlen, Nat.eqb_refl.
Qed.

Lemma ToBuffer_member_mismatch {A} (input : list A) member assign s :
  length input ≠ length (member s) →
  ToBuffer_member input member assign s
  = (inl (invalid_argument (ToBuffer_what (length (member s)) (length input))), s).
Proof.
  intros Hlen. unfold ToBuffer_member, bind, gets, lift, modify, ToBuffer.
  by destruct (Nat.eqb_spec (length input) (length (member s))).
Qed.

(** With arrays of one size, the setter either stores all three arrays or
    stops at the prefix array, whose size is fixed; nothing is stored then. *)
Lemma SetVertexTetrahedronAdjacencyList_same_size GVTp GVTn GVTilocal s :
  length GVTn = length GVTilocal →
  SetVertexTetrahedronAdjacencyList GVTp GVTn GVTilocal s =
    if Nat.eqb (length GVTp) (length (mVertexTetrahedronPrefix s))
    then (inr tt,
          set_mVertexTetrahedronLocalVertexIndices GVTilocal
            (set_mVertexTetrahedronNeighbours GVTn (set_mVertexTetrahedronPrefix GVTp s)))
    else (inl (invalid_argument
                 (ToBuffer_what (length (mVertexTetrahedronPrefix s)) (length GVTp))), s).
Proof.
  intros Hlen. unfold SetVertexTetrahedronAdjacencyList.
  rewrite Hlen, Nat.eqb_refl. simpl.
  destruct (Nat.eqb_spec (length GVTp) (length (mVertexTetrahedronPrefix s))) as [Hp|Hp].
  - unfold bind at 1. rewrite ToBuffer_member_ok by done.
    unfold bind at 1. unfold modify at 1.
    unfold bind at 1. unfold modify at 1.
    unfold bind at 1.
    rewrite ToBuffer_member_ok by (simpl; unfold Resize; by rewrite length_resize, Hlen).
    rewrite ToBuffer_member_ok by (simpl; unfold Resize; by rewrite length_resize).
    reflexivity.
  - unfold bind at 1. by rewrite ToBuffer_member_mismatch.
Qed.

(** C7.  [SetVertexTetrahedronAdjacencyList] throws the invalid-argument
    error whose message gives the size of the neighbour array and the size
    of the ilocal array exactly when those sizes differ; it then carries the
    two sizes of the call and leaves the object as it was. *)
Theorem SetVertexTetrahedronAdjacencyList_validation GVTp GVTn GVTilocal s :
  ((∃ neighbours ilocal,
      fst (SetVertexTetrahedronAdjacencyList GVTp GVTn GVTilocal s)
      = inl (invalid_argument (adjacency_what neighbours ilocal)))
   ↔ length GVTn ≠ length GVTilocal) ∧
  (length GVTn ≠ length GVTilocal →
   SetVertexTetrahedronAdjacencyList GVTp GVTn GVTilocal s
   = (inl (invalid_argument (adjacency_what (length GVTn) (length GVTilocal))), s)).
Proof.
  assert (length GVTn ≠ length GVTilocal →
          SetVertexTetrahedronAdjacencyList GVTp GVTn GVTilocal s
          = (inl (invalid_argument (adjacency_what (length GVTn) (length GVTilocal))), s))
    as Hthrow.
  { intros Hne. unfold SetVertexTetrahedronAdjacencyList.
    by destruct (Nat.eqb_spec (length GVTn) (length GVTilocal)). }
  split; [split|done].
  - intros (neighbours & ilocal & Hfst) Heq.
    rewrite SetVertexTetrahedronAdjacencyList_same_size in Hfst by done.
    destruct (Nat.eqb (length GVTp) (length (mVertexTetrahedronPrefix s)));
      cbn [fst] in Hfst; [discriminate|].
    apply (ToBuffer_what_adjacency_what (length (mVertexTetrahedronPrefix s)) (length GVTp)
             neighbours ilocal).
    congruence.
  - intros Hne. exists (length GVTn), (length GVTilocal). by rewrite Hthrow.
Qed.

(** Storing group [j] of the input over what occupies slot [j]. *)
Lemma insert_take_drop {A} (P R : list A) j a :
  P !! j = Some a → (j < length R)%nat →
  <[j := a]> (take j P ++ drop j R) = take (S j) P ++ drop (S j) R.
Proof.
  intros HP HR.
  assert (j < length P)%nat as Hj by (by eapply lookup_lt_Some).
  destruct (lookup_lt_is_Some_2 R j HR) as [r Hr].
  rewrite insert_app_r_alt by (rewrite length_take; lia).
  rewrite length_take, Nat.min_l, Nat.sub_diag by lia.
  rewrite (drop_S R r j Hr). simpl.
  rewrite (take_S_r P j a HP). by rewrite <- app_assoc.
Qed.

(** C8 (as amended).  [SetVertexPartitions] checks nothing: it returns
    normally on every input and stores the groups as given, in order,
    leaving every other member as it was. *)
Theorem SetVertexPartitions_stores partitions s :
  SetVertexPartitions partitions s = (inr tt, set_mPartitions partitions s).
Proof.
  cut (returns (SetVertexPartitions partitions) s
         (λ _ s', s' = set_mPartitions partitions s)).
  { by intros ([] & s' & -> & ->). }
  unfold SetVertexPartitions. apply returns_bind, returns_modify.
  set (R := resize (length partitions) [] (mPartitions s)).
  eapply returns_mono.
  - apply (returns_for_range
             (λ j (_ : unit) s',
                s' = set_mPartitions (take j partitions ++ drop j R) s)).
    + done.
    + intros j [] s' Hj ->. rewrite Nat2Z.id in *. apply returns_modify. simpl.
      destruct (lookup_lt_is_Some_2 partitions j Hj) as [group Hgroup].
      rewrite Hgroup. simpl.
      assert (thrust_copy group
                (Resize (length group)
                   (default [] ((take j partitions ++ drop j R) !! j)))
              = group) as ->.
      { unfold thrust_copy, Resize. rewrite drop_ge by (by rewrite length_resize).
        apply app_nil_r. }
      rewrite insert_take_drop; [done | done |].
      subst R. by rewrite length_resize.
  - intros [] s' ->. rewrite Nat2Z.id. simpl. f_equal.
    rewrite take_ge, drop_ge by (subst R; rewrite ?length_resize; lia).
    by rewrite app_nil_r.
Qed.

End ObjectFacts.

(** ** Material parameters *)

Section LameFacts.
Import physics.
Context {Scalar : Type} {ops : GpuScalarOps Scalar}.
Local Open Scope scalar_scope.

Lemma zip_with_replicate {A B C} (f : A → B → C) n a b :
  zip_with f (replicate n a) (replicate n b) = replicate n (f a b).
Proof. induction n as [|n IH]; [done|]. simpl. by rewrite IH. Qed.

(** C10.  [LameCoefficients(Y, nu)] is the pair of [mu = Y/(2(1 + nu))] and
    [lambda = Y nu/((1 + nu)(1 - 2 nu))], and the overload on vectors, on
    constant vectors of one length, returns constant vectors of these two
    values.  The identities hold for every [nu], also where a divisor
    vanishes ([nu = -1], [nu = 1/2]). *)
Theorem LameCoefficients_formula (Y nu : Scalar) (n : nat) :
  LameCoefficients Y nu
  = (Y / (lit 2 0 * (lit 1 0 + nu)), Y * nu / ((lit 1 0 + nu) * (lit 1 0 - lit 2 0 * nu))) ∧
  LameCoefficientsX (Constant n Y) (Constant n nu)
  = (Constant n (fst (LameCoefficients Y nu)), Constant n (snd (LameCoefficients Y nu))).
Proof.
  split; [done|].
  unfold LameCoefficientsX, Constant. by rewrite !zip_with_replicate.
Qed.

End LameFacts.

(** ** The capacity checks of the bounding-box query *)

Section ValidationFacts.
Import geometry vbd spec.
Context {GpuScalar : Type} {ops : GpuScalarOps GpuScalar}.
Context {kernels : Kernels GpuScalar} {bvh_kernels : BvhQueryImplKernels GpuScalar}.
Local Open Scope obj_scope.

(** [Build] with room for the simplices returns normally, after its four
    device calls. *)
Lemma Build_within_capacity P S expansion (q : Query GpuScalar) :
  (NumberOfSimplices S ≤ NumberOfAllocatedBoxes (this q))%nat →
  ∃ this',
    Build P S expansion q
    = (inr tt,
       mkQuery this'
         (launches q ++ [ForEachComputeAabb (NumberOfSimplices S);
                         ForEachComputeMortonCode (NumberOfSimplices S);
                         Sequence (NumberOfAllocatedBoxes (this q));
                         StableSortByKey (NumberOfSimplices S)])).
Proof.
  intros Hn. unfold Build, bind at 1, gets at 1. cbv beta iota.
  destruct (Nat.ltb_spec (NumberOfAllocatedBoxes (this q)) (NumberOfSimplices S)); [lia|].
  unfold bind, launch, on_device, modify, gets. simpl.
  eexists. rewrite <- !app_assoc. simpl. unfold NumberOfAllocatedBoxes.
  rewrite (for_each_preserves simplex);
    [rewrite (for_each_preserves simplex); [reflexivity|] |];
    intros i q'; [by destruct (FComputeAabb _ _ _ _ _) | done].
Qed.

(** [DetectOverlaps] guards its queries the same way. *)
Lemma DetectOverlaps_over_capacity P S1 S2 bvh (q : Query GpuScalar) :
  (NumberOfAllocatedBoxes (this q) < NumberOfSimplices S1)%nat →
  DetectOverlaps P S1 S2 bvh q
  = (inl (invalid_argument
            (DetectOverlaps_what (NumberOfAllocatedBoxes (this q)) (NumberOfSimplices S1))),
     q).
Proof.
  intros Hlt. unfold DetectOverlaps, bind at 1, gets at 1. cbv beta iota.
  by destruct (Nat.ltb_spec (NumberOfAllocatedBoxes (this q)) (NumberOfSimplices S1));
    [|lia].
Qed.

(** X20.  [BvhQueryImpl::Build] checks the capacity where the simplices
    are handed over: given more simplices than boxes were allocated it
    throws an invalid-argument error naming the allocated and the received
    count, before any device call and leaving its buffers as they were;
    otherwise it returns normally, after its four device calls. *)
Theorem Build_checks_capacity P S expansion (q : Query GpuScalar) :
  let n := NumberOfSimplices S in
  let allocated := NumberOfAllocatedBoxes (this q) in
  ((allocated < n)%nat ↔
   Build P S expansion q = (inl (invalid_argument (Build_what allocated n)), q)) ∧
  ((n ≤ allocated)%nat ↔
   fst (Build P S expansion q) = inr tt ∧
   launches (snd (Build P S expansion q))
   = launches q ++ [ForEachComputeAabb n; ForEachComputeMortonCode n;
                    Sequence allocated; StableSortByKey n]).
Proof.
  intros n allocated.
  assert ((allocated < n)%nat →
          Build P S expansion q = (inl (invalid_argument (Build_what allocated n)), q))
    as Hover.
  { intros Hlt. unfold Build, bind at 1, gets at 1. cbv beta iota. fold n allocated.
    by destruct (Nat.ltb_spec allocated n); [|lia]. }
  assert ((n ≤ allocated)%nat →
          fst (Build P S expansion q) = inr tt ∧
          launches (snd (Build P S expansion q))
          = launches q ++ [ForEachComputeAabb n; ForEachComputeMortonCode n;
                           Sequence allocated; StableSortByKey n])
    as Hwithin.
  { intros Hle. by destruct (Build_within_capacity P S expansion q Hle) as [this' ->]. }
  split; (split; [done|]).
  - intros Hthrow. destruct (Nat.lt_ge_cases allocated n) as [Hlt|Hle]; [done|].
    destruct (Hwithin Hle) as [Hret _]. by rewrite Hthrow in Hret.
  - intros [Hret _]. destruct (Nat.lt_ge_cases allocated n) as [Hlt|Hle]; [|done].
    by rewrite (Hover Hlt) in Hret.
Qed.

End ValidationFacts.

(** ** Worked examples in exact arithmetic *)

Section ExactFacts.
Import geometry vbd spec Exact.
Local Open Scope obj_scope.

(** In exact arithmetic the condition of line 68 is the open interval (0, 1). *)
Lemma bUseChebyshevAcceleration_exact (rho : Q) :
  bUseChebyshevAcceleration rho = true ↔ (0 < rho ∧ rho < 1)%Q.
Proof.
  unfold bUseChebyshevAcceleration. rewrite andb_true_iff.
  change (ltb (lit 0 0) rho) with (Qltb 0 rho).
  change (ltb rho (lit 1 0)) with (Qltb rho 1).
  unfold Qltb. rewrite !Qlt_alt.
  split; intros [H0 H1]; split.
  - by destruct (0 ?= rho)%Q.
  - by destruct (rho ?= 1)%Q.
  - by rewrite H0.
  - by rewrite H1.
Qed.

(** The falling body stepped by 1/100 in two substeps of one outer
    iteration each.  Vertex 1 starts the second substep at
    (1, 0, -9.81/80000), falling at -9.81/400. *)
Lemma falling_second_substep :
  Sized 2 falling ∧
  FromBuffers (x (X (after_substeps (Qmake 1 100) 1 2 0%Q falling 1))) 1
  = (1, 0, Qmake (-981) 8000000)%Q ∧
  FromBuffers (mVelocities (after_substeps (Qmake 1 100) 1 2 0%Q falling 1)) 1
  = (0, 0, Qmake (-981) 40000)%Q ∧
  FromBuffers (mExternalAcceleration (after_substeps (Qmake 1 100) 1 2 0%Q falling 1)) 1
  = (0, 0, Qmake (-981) 100)%Q.
Proof. vm_compute. by split_and!. Qed.

(** C4, a witness.  In that second substep (sdt = 1/200) the position, the
    velocity and the acceleration of vertex 1 all enter its inertial
    target: (1, 0, z) with
    z = -9.81/80000 + (1/200)(-9.81/400) + (1/200)^2 (-9.81) = -9.81/20000,
    and the targets are the same at the end of the substep, which is the
    end of the step. *)
Lemma Step_inertial_target_witness :
  Sized 2 falling ∧ (1 < Z.to_nat 2)%nat ∧ (1 < 2)%nat ∧
  FromBuffers
    (mInertialTargetPositions
       (object_after
          (StorePreviousPositions ;;
           ComputeInertialTargets 2 (Qmake 1 200) (Qmake 1 40000))
          (after_substeps (Qmake 1 100) 1 2 0%Q falling 1))) 1
  = (1, 0, Qmake (-981) 2000000)%Q ∧
  FromBuffers
    (mInertialTargetPositions (object_after (Step (Qmake 1 100) 1 2 0%Q) falling)) 1
  = (1, 0, Qmake (-981) 2000000)%Q.
Proof.
  assert (Sized (NumberOfPoints (X falling)) falling) as HS by (vm_compute; done).
  assert (1 < Z.to_nat 2)%nat as Hj by (vm_compute; lia).
  assert (1 < NumberOfPoints (X falling))%nat as Hi by (vm_compute; lia).
  destruct (@Step_inertial_target Q QOps ToyKernels (Qmake 1 100) 1 2 0%Q falling
              1%nat 1%nat HS Hj Hi) as (Hstep & Htarget & _ & Hkept).
  split_and!; [exact HS | exact Hj | exact Hi | |].
  - etransitivity; [exact Htarget|]. vm_compute. reflexivity.
  - rewrite Hstep. etransitivity; [exact (f_equal (λ b, FromBuffers b 1%nat) Hkept)|].
    etransitivity; [exact Htarget|]. vm_compute. reflexivity.
Defined.

(** C5, a witness.  In the same substep the iteration moves vertex 1 from
    (1, 0, -9.81/80000) halfway to its target, to (1, 0, -5 * 9.81/160000);
    its velocity at the end of the step is the difference of the two
    divided by 1/200, (0, 0, -3 * 9.81/800), and the previous velocity is
    the one the substep started with. *)
Lemma Step_velocity_witness :
  Sized 2 falling ∧ (1 < Z.to_nat 2)%nat ∧ (1 < 2)%nat ∧
  FromBuffers (x (X (object_after (Step (Qmake 1 100) 1 2 0%Q) falling))) 1
  = (1, 0, Qmake (-981) 3200000)%Q ∧
  FromBuffers (mVelocities (object_after (Step (Qmake 1 100) 1 2 0%Q) falling)) 1
  = (0, 0, Qmake (-2943) 80000)%Q ∧
  FromBuffers (mVelocitiesAtT (object_after (Step (Qmake 1 100) 1 2 0%Q) falling)) 1
  = (0, 0, Qmake (-981) 40000)%Q.
Proof.
  assert (Sized (NumberOfPoints (X falling)) falling) as HS by (vm_compute; done).
  assert (1 < Z.to_nat 2)%nat as Hj by (vm_compute; lia).
  assert (1 < NumberOfPoints (X falling))%nat as Hi by (vm_compute; lia).
  destruct (@Step_velocity Q QOps ToyKernels (Qmake 1 100) 1 2 0%Q falling
              1%nat 1%nat HS Hj Hi) as (Hstep & Hvelocity & Hx & Hvt).
  rewrite Hstep.
  split_and!; [exact HS | exact Hj | exact Hi | | |].
  - etransitivity; [exact (f_equal (λ b, FromBuffers b 1%nat) Hx)|].
    vm_compute. reflexivity.
  - etransitivity; [exact Hvelocity|]. vm_compute. reflexivity.
  - etransitivity; [exact (f_equal (λ b, FromBuffers b 1%nat) Hvt)|].
    vm_compute. reflexivity.
Defined.

(** C2, at a failing input.  The falling body is stepped by 1/100 with
    rho = 1/2.  Vertex 0 stands at z = t/2, 3t/4, 7t/8 (t = -9.81e-4) after
    one, two and three outer iterations.  With the weight 14/13 of iteration
    [k = 2], the Chebyshev update of these three iterates is z = 47t/52, yet
    the step with three iterations leaves the vertex at 7t/8, the position
    the sweep produced; and both history buffers hold zeros after one
    iteration and after three, not the iterates. *)
Lemma ChebyshevUpdate_lost :
  FromBuffers (x (X (object_after (Step (Qmake 1 100) 1 1 (Qmake 1 2)) falling))) 0
  = (0, 0, Qmake (-981) 2000000)%Q ∧
  FromBuffers (x (X (object_after (Step (Qmake 1 100) 2 1 (Qmake 1 2)) falling))) 0
  = (0, 0, Qmake (-2943) 4000000)%Q ∧
  FromBuffers (x (X (object_after (Step (Qmake 1 100) 3 1 (Qmake 1 2)) falling))) 0
  = (0, 0, Qmake (-6867) 8000000)%Q ∧
  weights (calls_of (Step (Qmake 1 100) 3 1 (Qmake 1 2)) falling)
  = [(0, 1%Q); (1, Qmake 8 7); (2, Qmake 14 13)] ∧
  ChebyshevUpdate 2 (Qmake 14 13) (0, 0, Qmake (-981) 2000000)%Q
    (0, 0, Qmake (-2943) 4000000)%Q (0, 0, Qmake (-6867) 8000000)%Q
  = ((0, 0, Qmake (-2943) 4000000), (0, 0, Qmake (-46107) 52000000),
     (0, 0, Qmake (-46107) 52000000))%Q ∧
  mChebyshevPositionsM1 (object_after (Step (Qmake 1 100) 1 1 (Qmake 1 2)) falling)
  = Buffer3_n 0%Q 2 ∧
  mChebyshevPositionsM1 (object_after (Step (Qmake 1 100) 3 1 (Qmake 1 2)) falling)
  = Buffer3_n 0%Q 2 ∧
  mChebyshevPositionsM2 (object_after (Step (Qmake 1 100) 3 1 (Qmake 1 2)) falling)
  = Buffer3_n 0%Q 2.
Proof. vm_compute. by split_and!. Qed.

(** C8, a counterexample.  In the single tetrahedron, vertices 0 and 1
    share the element; the group made of both violates the invariant, and
    [SetVertexPartitions] stores it without a complaint. *)
Lemma SetVertexPartitions_accepts_shared_element :
  partition_invariant tetrahedron [[0; 1]] = false ∧
  fst (SetVertexPartitions [[0; 1]] tetrahedron) = inr tt ∧
  GetPartitions (snd (SetVertexPartitions [[0; 1]] tetrahedron)) = [[0; 1]].
Proof. vm_compute. by split_and!. Qed.

(** The message for a neighbour array of size 2 and an ilocal array of
    size 1, and the setter thrown out with it, the body untouched. *)
Lemma adjacency_what_example :
  adjacency_what 2 1
  = ("Expected vertex-tetrahedron adjacency graph's neighbour array and data (ilocal) "
     ++ "array to have the same size, but got neighbours=2, ilocal=1 "
     ++ String (Ascii.ascii_of_nat 10) EmptyString)%string ∧
  SetVertexTetrahedronAdjacencyList [0; 1; 2] [0; 0] [0] body
  = (inl (invalid_argument (adjacency_what 2 1)), body).
Proof. vm_compute. by split. Qed.

(** One simplex handed to a query built for no box, and to one built for
    two boxes. *)
Lemma Build_example :
  Build (PointsImpl_init Xin) (SimplicesImpl_init Tin) 0%Q (mkQuery (BvhQueryImpl_init 0 0) [])
  = (inl (invalid_argument "Allocated memory for 0 boxes, but received 1 simplices."),
     mkQuery (BvhQueryImpl_init 0 0) []) ∧
  fst (Build (PointsImpl_init Xin) (SimplicesImpl_init Tin) 0%Q
         (mkQuery (BvhQueryImpl_init 2 0) [])) = inr tt.
Proof. vm_compute. by split. Qed.

(** The reference material of the tests: Y = 1e6 and nu = 0.45. *)
Lemma LameCoefficients_reference :
  physics.LameCoefficients (lit 1 6) (lit 45 (-2))
  = (Qmake 10000000 29, Qmake 90000000 29).
Proof. vm_compute. reflexivity. Qed.

End ExactFacts.

(** ** The time step: edge cases, frame and invariants *)

Section StepEdgeFacts.
Import geometry vbd spec.
Context {GpuScalar : Type} {ops : GpuScalarOps GpuScalar} {kernels : Kernels GpuScalar}.
Local Open Scope scalar_scope.
Local Open Scope obj_scope.

Implicit Types (s : VbdImpl GpuScalar) (σ : Run GpuScalar) (buf : Buffer3 GpuScalar).

(** The loop at line 159 with a non-positive bound: no pass, no call. *)
Lemma Minimize_without_iterations bUse n iterations sdt sdt2 rho σ :
  iterations ≤ 0 → Minimize bUse n iterations sdt sdt2 rho σ = (inr (lit 0 0), σ).
Proof.
  intros Hle. unfold Minimize, for_range.
  by replace (Z.to_nat iterations) with 0%nat by lia.
Qed.

(** X1.  With [substeps <= 0] the loop at line 96 is not entered: [Step]
    makes the device current, synchronises the stream and returns, and the
    object is exactly as before (the quotient [dt / substeps] is computed but
    never used). *)
Theorem Step_without_substeps dt iterations substeps rho σ :
  substeps ≤ 0 →
  Step dt iterations substeps rho σ
  = (inr tt, mkRun (self σ) (calls σ ++ [MakeCurrent; Synchronize])).
Proof.
  intros Hle. unfold Step, for_range.
  replace (Z.to_nat substeps) with 0%nat by lia.
  unfold bind, gets, call, modify, for_loop, ret. cbn [self calls].
  by rewrite <- app_assoc.
Qed.

(** X2.  With [iterations <= 0] a substep launches no minimisation kernel:
    its calls are the three position copies, the two loops over the
    vertices, the three velocity copies and the velocity integration.  The
    position of every vertex [i < n] is then the initial guess, computed by
    [InitialPositionsForSolve] from the position at the start of the
    substep, the previous velocity, the velocity, the external acceleration,
    [sdt], [sdt2] and the strategy of the object. *)
Theorem Substep_without_iterations bUse iterations sdt sdt2 rho s i :
  let n := NumberOfPoints (X s) in
  iterations ≤ 0 → Sized n s → (i < n)%nat →
  FromBuffers (x (X (object_after (Substep bUse n iterations sdt sdt2 rho) s))) i
  = InitialPositionsForSolve (FromBuffers (x (X s)) i) (FromBuffers (mVelocitiesAtT s) i)
      (FromBuffers (mVelocities s) i) (FromBuffers (mExternalAcceleration s) i)
      sdt sdt2 (mInitializationStrategy s) ∧
  calls_of (Substep bUse n iterations sdt sdt2 rho) s
  = [CopyPositionsAtT 0; CopyPositionsAtT 1; CopyPositionsAtT 2;
     ForEachInertialTarget n sdt sdt2; ForEachInitialPositionsForSolve n sdt sdt2;
     CopyVelocitiesAtT 0; CopyVelocitiesAtT 1; CopyVelocitiesAtT 2;
     ForEachIntegrateVelocity n sdt].
Proof.
  intros n Hle (Hx & Hxt & Hxtilde & Hvt & Hv & Ha) Hi.
  unfold object_after, calls_of, Substep, bind.
  rewrite StorePreviousPositions_eq. cbv beta iota.
  rewrite ComputeInertialTargets_eq. cbv beta iota.
  rewrite InitializeSolve_eq. cbv beta iota.
  rewrite Minimize_without_iterations by done. cbv beta iota.
  rewrite UpdateVelocities_eq.
  cbn [snd self calls app mVelocities set_mVelocities mVelocitiesAtT set_mVelocitiesAtT x X
       set_x mPositionsAtT set_mInertialTargetPositions set_mPositionsAtT
       mExternalAcceleration mInitializationStrategy].
  split; [|done].
  rewrite (copy3_sized n) by done.
  edestruct (FromBuffers_scatter n n) as [Hlt _]; [exact Hx | lia |].
  by rewrite Hlt.
Qed.

(** A substep keeps the configuration: none of its loops and copies, and
    no block of the minimisation kernel as modelled, writes it. *)
Lemma substep_state_keeps_configuration n sdt sdt2 bx s0 s :
  keeps_configuration s0 s → keeps_configuration s0 (substep_state n sdt sdt2 bx s).
Proof. intros H. exact H. Qed.

(** X3.  [Step] leaves the configuration of the object as it was: the
    simplices, the external accelerations, the masses, the quadrature
    weights, the shape function gradients, the Lame coefficients, the
    adjacency, the damping, the collision data, the partitions, the
    strategy and the block size are after the call what they were before
    it (the minimisation kernel being taken to write positions only, as
    the argument block of lines 167-179 is read).  Nothing is said here of
    the positions, their snapshot, the inertial targets, the velocities, the
    previous velocities and the two Chebyshev history buffers. *)
Theorem Step_keeps_configuration dt iterations substeps rho s :
  keeps_configuration s (object_after (Step dt iterations substeps rho) s).
Proof.
  cut (returns (Step dt iterations substeps rho) (mkRun s [])
         (λ _ σ', keeps_configuration s (self σ'))).
  { intros ([] & σ' & Hstep & H). unfold object_after. by rewrite Hstep. }
  unfold Step. apply returns_bind, returns_gets.
  unfold call at 1. apply returns_bind, returns_modify.
  apply returns_bind. eapply returns_mono.
  - apply (returns_for_range
             (λ (_ : nat) (_ : unit) σ', keeps_configuration s (self σ'))).
    + cbn [self]. unfold keeps_configuration. by split_and!.
    + intros j [] σ' Hj Hkeeps.
      eapply returns_mono; [apply Substep_returns|].
      intros [] σ'' (bx' & -> & _). cbn [self].
      by apply substep_state_keeps_configuration.
  - intros [] σ' H. unfold call. by apply returns_modify.
Qed.

(** X4.  [Step] keeps the per-vertex buffers at their size: from an object
    whose positions, snapshot, inertial targets, velocities, previous
    velocities and external accelerations all hold [n] vertices it leaves
    one that does, with [n] points still. *)
Theorem Step_preserves_sizes dt iterations substeps rho s :
  let n := NumberOfPoints (X s) in
  Sized n s →
  let s' := object_after (Step dt iterations substeps rho) s in
  NumberOfPoints (X s') = n ∧ Sized n s'.
Proof.
  intros n HS s'. subst s'.
  cut (returns (Step dt iterations substeps rho) (mkRun s [])
         (λ _ σ', NumberOfPoints (X (self σ')) = n ∧ Sized n (self σ'))).
  { intros ([] & σ' & Hstep & H). unfold object_after. by rewrite Hstep. }
  unfold Step. apply returns_bind, returns_gets. cbn [self]. fold n.
  unfold call at 1. apply returns_bind, returns_modify.
  apply returns_bind. eapply returns_mono.
  - apply (returns_for_range
             (λ (_ : nat) (_ : unit) σ',
                NumberOfPoints (X (self σ')) = n ∧ Sized n (self σ'))).
    + done.
    + intros j [] σ' Hj [Hn HS'].
      eapply returns_mono; [apply Substep_returns|].
      intros [] σ'' (bx' & -> & Hbx). cbn [self]. split.
      * unfold substep_state. cbn [X set_mVelocities set_mVelocitiesAtT set_x].
        unfold NumberOfPoints, Size3 in *. cbn [x]. rewrite <- Hn. apply Hbx.
      * by apply substep_state_Sized.
  - intros [] σ' H. unfold call. by apply returns_modify.
Qed.

(** *** The kernel launches of a step *)

Lemma launched_app (cs1 cs2 : list (Call GpuScalar)) :
  launched (cs1 ++ cs2) = launched cs1 ++ launched cs2.
Proof. apply omap_app. Qed.

Lemma launched_launches (partitions : list (list Z)) :
  launched (LaunchMinimizeBackwardEuler (GpuScalar := GpuScalar) <$> partitions) = partitions.
Proof.
  induction partitions as [|p ps IH]; [done|].
  unfold launched in *. simpl in *. by f_equal.
Qed.

Lemma launched_iteration_calls bUse n rho2 partitions k omega :
  launched (iteration_calls bUse n rho2 partitions k omega) = partitions.
Proof.
  unfold iteration_calls. rewrite !launched_app, launched_launches.
  destruct bUse; simpl; by rewrite app_nil_r.
Qed.

Lemma launched_minimize_calls bUse n rho2 partitions j :
  launched (minimize_calls bUse n rho2 partitions j) = concat (replicate j partitions).
Proof.
  induction j as [|j IH]; [done|].
  cbn [minimize_calls]. by rewrite launched_app, IH, launched_iteration_calls, concat_replicate_S.
Qed.

Lemma launched_concat_replicate k (cs : list (Call GpuScalar)) :
  launched (concat (replicate k cs)) = concat (replicate k (launched cs)).
Proof. induction k as [|k IH]; [done|]. simpl. by rewrite launched_app, IH. Qed.

Lemma concat_replicate_mul {A} a b (l : list A) :
  concat (replicate a (concat (replicate b l))) = concat (replicate (a * b) l).
Proof.
  induction a as [|a IH]; [done|].
  simpl. by rewrite IH, replicate_add, concat_app.
Qed.

Lemma launched_step_calls dt iterations substeps rho n (partitions : list (list Z)) :
  launched (step_calls dt iterations substeps rho n partitions)
  = concat (replicate (Z.to_nat substeps * Z.to_nat iterations) partitions).
Proof.
  unfold step_calls, substep_calls.
  cbv zeta. rewrite !launched_app, launched_concat_replicate, !launched_app.
  rewrite launched_minimize_calls. unfold launched at 1 2 3. simpl.
  rewrite !app_nil_r. apply concat_replicate_mul.
Qed.

(** X5.  The minimisation kernel is launched once per partition, in the
    order the partitions are stored, in every outer iteration of every
    substep, and at no other point: the partitions launched by a step are
    the stored list repeated [substeps * iterations] times. *)
Theorem Step_launches_partitions dt iterations substeps rho s :
  launched (calls_of (Step dt iterations substeps rho) s)
  = concat (replicate (Z.to_nat substeps * Z.to_nat iterations) (mPartitions s)).
Proof.
  unfold calls_of.
  destruct (Step_returns dt iterations substeps rho (mkRun s []))
    as ([] & σ' & -> & Hcalls & _).
  cbn [snd calls self app] in *. rewrite Hcalls. apply launched_step_calls.
Qed.

(** [SetVertexPartitions] returns, the groups stored as given. *)
Lemma SetVertexPartitions_returns partitions s :
  returns (SetVertexPartitions partitions) s (λ _ s', s' = set_mPartitions partitions s).
Proof.
  unfold SetVertexPartitions. apply returns_bind, returns_modify.
  set (R := resize (length partitions) [] (mPartitions s)).
  eapply returns_mono.
  - apply (returns_for_range
             (λ j (_ : unit) s',
                s' = set_mPartitions (take j partitions ++ drop j R) s)).
    + done.
    + intros j [] s' Hj ->. rewrite Nat2Z.id in *. apply returns_modify. simpl.
      destruct (lookup_lt_is_Some_2 partitions j Hj) as [group Hgroup].
      rewrite Hgroup. simpl.
      assert (thrust_copy group
                (Resize (length group)
                   (default [] ((take j partitions ++ drop j R) !! j)))
              = group) as ->.
      { unfold thrust_copy, Resize. rewrite drop_ge by (by rewrite length_resize).
        apply app_nil_r. }
      rewrite insert_take_drop; [done | done |].
      subst R. by rewrite length_resize.
  - intros [] s' ->. rewrite Nat2Z.id. simpl. f_equal.
    rewrite take_ge, drop_ge by (subst R; rewrite ?length_resize; lia).
    by rewrite app_nil_r.
Qed.

(** X17.  The groups handed to [SetVertexPartitions] are the ones [Step]
    then launches: whatever partitions the object held before, a step after
    the setter launches the minimisation kernel on the given groups, in the
    given order, once per outer iteration of every substep. *)
Theorem Step_launches_given_partitions dt iterations substeps rho partitions s :
  fst (SetVertexPartitions partitions s) = inr tt ∧
  launched (calls_of (Step dt iterations substeps rho) (snd (SetVertexPartitions partitions s)))
  = concat (replicate (Z.to_nat substeps * Z.to_nat iterations) partitions).
Proof.
  destruct (SetVertexPartitions_returns partitions s) as ([] & s' & -> & ->).
  split; [done|]. cbn [snd]. unfold calls_of.
  destruct (Step_returns dt iterations substeps rho (mkRun (set_mPartitions partitions s) []))
    as ([] & σ' & -> & Hcalls & _).
  cbn [snd calls self app] in *. rewrite Hcalls. apply launched_step_calls.
Qed.

(** *** The buffers a step leaves *)

(** At the end of a substep the velocities and the inertial targets are
    those of the snapshot, the positions and the previous velocities it
    leaves. *)
Lemma substep_state_coherent n sdt sdt2 bx s i :
  Sized n s → same_size bx (x (X s)) → (i < n)%nat →
  let s' := substep_state n sdt sdt2 bx s in
  FromBuffers (mVelocities s') i
    = IntegrateVelocity (FromBuffers (mPositionsAtT s') i) (FromBuffers (x (X s')) i) sdt ∧
  FromBuffers (mInertialTargetPositions s') i
    = InertialTarget (FromBuffers (mPositionsAtT s') i) (FromBuffers (mVelocitiesAtT s') i)
        (FromBuffers (mExternalAcceleration s') i) sdt sdt2.
Proof.
  intros (Hx & Hxt & Hxtilde & Hvt & Hv & Ha) Hbx Hi s'. subst s'.
  unfold substep_state.
  cbn [mVelocities set_mVelocities mVelocitiesAtT set_mVelocitiesAtT x X set_x
       mPositionsAtT set_mInertialTargetPositions set_mPositionsAtT
       mInertialTargetPositions mExternalAcceleration].
  split.
  - edestruct (FromBuffers_scatter n n) as [Hlt _]; [exact Hv | lia |].
    by rewrite Hlt.
  - edestruct (FromBuffers_scatter n n) as [Hlt _]; [exact Hxtilde | lia |].
    by rewrite Hlt, (copy3_sized n (mVelocitiesAtT s)).
Qed.

(** X18.  The buffers [Step] leaves are coherent: after a step of at least
    one substep on an object whose per-vertex buffers hold [n] vertices, the
    velocity of every vertex is [IntegrateVelocity] of its snapshot position,
    its position and [sdt = dt/substeps], and its inertial target is
    [InertialTarget] of its snapshot position, its previous velocity, its
    external acceleration, [sdt] and [sdt * sdt]. *)
Theorem Step_final_state dt iterations substeps rho s i :
  let n := NumberOfPoints (X s) in
  let sdt := dt / of_index substeps in
  0 < substeps → Sized n s → (i < n)%nat →
  let s' := object_after (Step dt iterations substeps rho) s in
  FromBuffers (mVelocities s') i
    = IntegrateVelocity (FromBuffers (mPositionsAtT s') i) (FromBuffers (x (X s')) i) sdt ∧
  FromBuffers (mInertialTargetPositions s') i
    = InertialTarget (FromBuffers (mPositionsAtT s') i) (FromBuffers (mVelocitiesAtT s') i)
        (FromBuffers (mExternalAcceleration s') i) sdt (sdt * sdt).
Proof.
  intros n sdt Hsubsteps HS Hi s'. subst s'.
  set (coherent := λ s' : VbdImpl GpuScalar,
         FromBuffers (mVelocities s') i
           = IntegrateVelocity (FromBuffers (mPositionsAtT s') i)
               (FromBuffers (x (X s')) i) sdt ∧
         FromBuffers (mInertialTargetPositions s') i
           = InertialTarget (FromBuffers (mPositionsAtT s') i)
               (FromBuffers (mVelocitiesAtT s') i)
               (FromBuffers (mExternalAcceleration s') i) sdt (sdt * sdt)).
  cut (returns (Step dt iterations substeps rho) (mkRun s [])
         (λ _ σ', coherent (self σ'))).
  { intros ([] & σ' & Hstep & H). unfold object_after. by rewrite Hstep. }
  unfold Step. apply returns_bind, returns_gets. cbn [self]. fold n sdt.
  unfold call at 1. apply returns_bind, returns_modify.
  apply returns_bind. eapply returns_mono.
  - apply (returns_for_range
             (λ (j : nat) (_ : unit) σ',
                NumberOfPoints (X (self σ')) = n ∧ Sized n (self σ') ∧
                ((0 < j)%nat → coherent (self σ')))).
    + split_and!; [done | done | lia].
    + intros j [] σ' Hj (Hn & HS' & _).
      eapply returns_mono; [apply Substep_returns|].
      intros [] σ'' (bx' & -> & Hbx). cbn [self]. split_and!.
      * unfold substep_state. cbn [X set_mVelocities set_mVelocitiesAtT set_x].
        unfold NumberOfPoints, Size3 in *. cbn [x]. rewrite <- Hn. apply Hbx.
      * by apply substep_state_Sized.
      * intros _. by apply substep_state_coherent.
  - intros [] σ' (_ & _ & Hcoherent). unfold call. apply returns_modify.
    cbn [self]. apply Hcoherent. lia.
Qed.

End StepEdgeFacts.

(** ** The bounding-box query: building and detecting *)

Section BvhFacts.
Import geometry spec.
Context {GpuScalar : Type} {ops : GpuScalarOps GpuScalar}.
Context {bvh_kernels : BvhQueryImplKernels GpuScalar}.
Local Open Scope obj_scope.

Implicit Types (q : BvhQueryImpl GpuScalar) (buf : Buffer3 GpuScalar).

(** *** Writes at the boundary of a filled prefix *)

Lemma insert_at_boundary {A} (l R : list A) a :
  (length l < length R)%nat →
  <[length l := a]> (l ++ drop (length l) R) = (l ++ [a]) ++ drop (S (length l)) R.
Proof.
  intros Hlt. destruct (lookup_lt_is_Some_2 R (length l) Hlt) as [r Hr].
  rewrite insert_app_r_alt, Nat.sub_diag by lia.
  rewrite (drop_S R r (length l) Hr). simpl. by rewrite <- app_assoc.
Qed.

Lemma scatter_ext n (h h' : nat → Vec3 GpuScalar) buf :
  (∀ i, (i < n)%nat → h i = h' i) → scatter n h buf = scatter n h' buf.
Proof.
  induction n as [|n IH]; intros Hext; [done|].
  rewrite !scatter_S, IH by (intros; apply Hext; lia).
  by rewrite Hext by lia.
Qed.

(** *** The stable sort *)

Lemma insert_by_key_Permutation {A} (kv : Z * A) l : insert_by_key kv l ≡ₚ kv :: l.
Proof.
  induction l as [|h t IH]; [done|]. simpl.
  destruct (Z.leb (fst kv) (fst h)); [done|]. rewrite IH. apply perm_swap.
Qed.

Lemma stable_sort_by_key_Permutation {A} (l : list (Z * A)) : stable_sort_by_key l ≡ₚ l.
Proof.
  induction l as [|kv l IH]; [done|]. unfold stable_sort_by_key in *. simpl.
  by rewrite insert_by_key_Permutation, IH.
Qed.

Lemma insert_by_key_sorted {A} (idx : A → Z) (kv : Z * A) l :
  StronglySorted (before idx) l → Forall (λ h, idx kv.2 < idx h.2) l →
  StronglySorted (before idx) (insert_by_key kv l).
Proof using Type.
  induction l as [|h t IH]; intros Hs Hall; simpl.
  - repeat constructor.
  - apply StronglySorted_inv in Hs as [Hst Hht].
    apply Forall_cons in Hall as [Hh Hall].
    destruct (Z.leb_spec (fst kv) (fst h)) as [Hle|Hgt].
    + constructor; [by constructor|]. constructor.
      * unfold before. simpl in *. lia.
      * rewrite Forall_forall in *. intros y Hy.
        specialize (Hht y Hy). specialize (Hall y Hy).
        unfold before in *. simpl in *. lia.
    + constructor; [by apply IH|].
      rewrite insert_by_key_Permutation. constructor; [|done].
      unfold before. simpl in *. lia.
Qed.

Lemma stable_sort_by_key_sorted {A} (idx : A → Z) (l : list (Z * A)) :
  StronglySorted (λ a b, idx a.2 < idx b.2) l →
  StronglySorted (before idx) (stable_sort_by_key l).
Proof.
  induction l as [|kv l IH]; intros Hs; [constructor|].
  apply StronglySorted_inv in Hs as [Hs Hkv].
  change (stable_sort_by_key (kv :: l)) with (insert_by_key kv (stable_sort_by_key l)).
  apply insert_by_key_sorted; [by apply IH|].
  by rewrite stable_sort_by_key_Permutation.
Qed.

Lemma StronglySorted_lookup {A} (R : A → A → Prop) l i j a b :
  StronglySorted R l → (i < j)%nat → l !! i = Some a → l !! j = Some b → R a b.
Proof.
  intros Hs. revert i j. induction Hs as [|h t Hs IH Hh]; intros i j Hij Hi Hj; [done|].
  destruct j as [|j]; [lia|]. destruct i as [|i]; simpl in *.
  - injection Hi as ->. rewrite Forall_forall in Hh. apply Hh.
    by eapply list_elem_of_lookup_2.
  - apply (IH i j); [lia | done | done].
Qed.

Lemma StronglySorted_fmap_seq {A} (f : nat → A) (R : A → A → Prop) j n :
  (∀ i i', (i < i')%nat → R (f i) (f i')) → StronglySorted R (f <$> seq j n).
Proof.
  intros Hf. revert j. induction n as [|n IH]; intros j; [constructor|].
  simpl. constructor; [apply IH|].
  rewrite Forall_fmap, Forall_forall. intros i Hi. apply Hf.
  apply elem_of_seq in Hi. lia.
Qed.

(** *** The loops of [Build] *)

Lemma set_boxes_id q : set_boxes (b q) (e q) q = q.
Proof. by destruct q. Qed.

Lemma set_morton_id q : set_morton (morton q) q = q.
Proof. by destruct q. Qed.

(** Lines 38-48: the boxes of the simplices [0, n). *)
Lemma for_each_ComputeAabb (box : nat → Vec3 GpuScalar * Vec3 GpuScalar) n q :
  for_each n (λ s q', let '(lo, hi) := box s in
                      set_boxes (ToBuffers lo (b q') s) (ToBuffers hi (e q') s) q') q
  = set_boxes (scatter n (λ s, (box s).1) (b q)) (scatter n (λ s, (box s).2) (e q)) q.
Proof.
  induction n as [|n IH].
  - unfold for_each, scatter. simpl. by rewrite set_boxes_id.
  - rewrite for_each_S, IH, !scatter_S. by destruct (box n) as [lo hi].
Qed.

(** Lines 50-54: the codes of the boxes [0, n). *)
Lemma for_each_ComputeMortonCode n q :
  (n ≤ length (morton q))%nat →
  for_each n (λ s q', set_morton
                        (<[s := FComputeMortonCode (FromBuffers (b q') s)
                                  (FromBuffers (e q') s)]> (morton q')) q') q
  = set_morton
      (((λ s, FComputeMortonCode (FromBuffers (b q) s) (FromBuffers (e q) s)) <$> seq 0 n)
       ++ drop n (morton q)) q.
Proof.
  induction n as [|n IH]; intros Hn.
  - unfold for_each. simpl. by destruct q.
  - rewrite for_each_S, IH by lia.
    set (c := λ s, FComputeMortonCode (FromBuffers (b q) s) (FromBuffers (e q) s)).
    unfold set_morton. cbn [morton b e simplex overlaps]. f_equal.
    change (FComputeMortonCode (FromBuffers (b q) n) (FromBuffers (e q) n)) with (c n).
    pose proof (insert_at_boundary (c <$> seq 0 n) (morton q) (c n)) as Hins.
    rewrite length_fmap, length_seq in Hins. rewrite Hins by lia.
    by rewrite seq_S, fmap_app.
Qed.

(** Line 65, the values written back through the zip iterator: entry [i]
    of [b], [e] and [simplex] receives the [i]-th sorted value. *)
Lemma unzip7_eq (zero : Vec3 GpuScalar * Vec3 GpuScalar * Z) vals q :
  (length vals ≤ length (simplex q))%nat →
  unzip7 vals q
  = set_simplex (vals.*2 ++ drop (length vals) (simplex q))
      (set_boxes (scatter (length vals) (λ i, (default zero (vals !! i)).1.1) (b q))
                 (scatter (length vals) (λ i, (default zero (vals !! i)).1.2) (e q)) q).
Proof.
  induction vals as [|v vals IH] using rev_ind; intros Hlen.
  - unfold unzip7, scatter. simpl. by destruct q.
  - rewrite length_app in Hlen. simpl in Hlen.
    unfold unzip7 in *. rewrite length_app. simpl length.
    rewrite seq_app. simpl seq.
    rewrite zip_with_app by (by rewrite length_seq).
    rewrite foldl_app, IH by lia. simpl.
    destruct v as [[lo hi] s]. unfold set_simplex, set_boxes. simpl.
    rewrite Nat.add_1_r, !scatter_S.
    rewrite lookup_app_r, Nat.sub_diag by done. simpl.
    pose proof (insert_at_boundary (vals.*2) (simplex q) s) as Hins.
    rewrite length_fmap in Hins. rewrite Hins by lia.
    rewrite fmap_app. simpl. f_equal.
    + f_equal. apply scatter_ext. intros i Hi. by rewrite lookup_app_l.
    + f_equal. apply scatter_ext. intros i Hi. by rewrite lookup_app_l.
Qed.

(** [Build] given no more simplices than boxes runs its four stages. *)
Lemma Build_this P S expansion (σ : Query GpuScalar) :
  (NumberOfSimplices S ≤ NumberOfAllocatedBoxes (this σ))%nat →
  this (snd (Build P S expansion σ))
  = sort_stage (NumberOfSimplices S)
      (sequence_stage
         (morton_stage (NumberOfSimplices S)
            (aabb_stage P S expansion (NumberOfSimplices S) (this σ)))).
Proof.
  intros Hn. unfold Build, bind at 1, gets at 1. cbv beta iota.
  destruct (Nat.ltb_spec (NumberOfAllocatedBoxes (this σ)) (NumberOfSimplices S)); [lia|].
  unfold bind, launch, on_device, modify, gets. reflexivity.
Qed.

(** The entries a sort of the first [n] boxes starts from and ends with. *)
Lemma sort_stage_eq n m q (code : nat → Z) (lo hi : nat → Vec3 GpuScalar) R :
  (n ≤ m)%nat → simplex q = Z.of_nat <$> seq 0 m → morton q = (code <$> seq 0 n) ++ R →
  (∀ i, (i < n)%nat → FromBuffers (b q) i = lo i ∧ FromBuffers (e q) i = hi i) →
  ∃ order : list nat,
    order ≡ₚ seq 0 n ∧
    StronglySorted (before (λ v : Vec3 GpuScalar * Vec3 GpuScalar * Z, v.2))
      ((λ s, (code s, (lo s, hi s, Z.of_nat s))) <$> order) ∧
    sort_stage n q
    = set_simplex ((Z.of_nat <$> order) ++ drop n (simplex q))
        (set_boxes (scatter n (λ i, lo (default 0%nat (order !! i))) (b q))
                   (scatter n (λ i, hi (default 0%nat (order !! i))) (e q))
           (set_morton ((code <$> order) ++ R) q)).
Proof.
  intros Hn Hsimplex Hmorton Hboxes.
  set (val := λ s : nat, (lo s, hi s, Z.of_nat s)).
  set (entry := λ s : nat, (code s, val s)).
  assert (take n (morton q) = code <$> seq 0 n) as Htake.
  { rewrite Hmorton. apply take_app_length'. by rewrite length_fmap, length_seq. }
  assert (drop n (morton q) = R) as Hdrop.
  { rewrite Hmorton. apply drop_app_length'. by rewrite length_fmap, length_seq. }
  assert (take n (zip7 q) = val <$> seq 0 n) as Hvals.
  { unfold zip7. rewrite Hsimplex, length_fmap, length_seq.
    rewrite zip_with_fmap_r, zip_with_diag, <- fmap_take, take_seq, Nat.min_l by done.
    apply list_fmap_ext. intros i s [Heq Hs]%lookup_seq. simpl in Heq. subst s.
    destruct (Hboxes i Hs) as [-> ->]. done. }
  assert (zip (take n (morton q)) (take n (zip7 q)) = entry <$> seq 0 n) as Hzip.
  { rewrite Htake, Hvals. by rewrite zip_with_fmap_l, zip_with_fmap_r, zip_with_diag. }
  unfold sort_stage. rewrite Hdrop. cbv zeta.
  set (sorted := stable_sort_by_key (zip (take n (morton q)) (take n (zip7 q)))).
  assert (sorted ≡ₚ entry <$> seq 0 n) as Hperm.
  { subst sorted. rewrite Hzip. apply stable_sort_by_key_Permutation. }
  assert (StronglySorted (before (λ v : Vec3 GpuScalar * Vec3 GpuScalar * Z, v.2)) sorted)
    as Hss.
  { subst sorted. rewrite Hzip. apply stable_sort_by_key_sorted.
    apply StronglySorted_fmap_seq. intros i i' Hi. simpl. lia. }
  clearbody sorted.
  destruct (@Permutation_map_inv _ _ entry sorted (seq 0 n) Hperm) as (order & Hsorted & Horder).
  change (map entry order) with (entry <$> order) in Hsorted. subst sorted.
  exists order. split; [done|]. split; [exact Hss|].
  assert (length order = n) as Hlen by (by rewrite <- Horder, length_seq).
  rewrite (unzip7_eq (lo 0%nat, hi 0%nat, 0)).
  2:{ cbn [simplex set_morton]. rewrite Hsimplex, !length_fmap, length_seq. lia. }
  rewrite <- !list_fmap_compose, length_fmap, Hlen.
  unfold set_simplex, set_boxes, set_morton. cbn [simplex morton b e overlaps].
  assert (∀ i, (i < n)%nat →
            default (lo 0%nat, hi 0%nat, 0) ((snd ∘ entry <$> order) !! i)
            = val (default 0%nat (order !! i))) as Hval.
  { intros i Hi. rewrite list_lookup_fmap.
    destruct (lookup_lt_is_Some_2 order i) as [s ->]; [lia | done]. }
  f_equal.
  - apply scatter_ext. intros i Hi. by rewrite Hval.
  - apply scatter_ext. intros i Hi. by rewrite Hval.
Qed.

(** X6.  [Build], given [n] simplices and buffers allocated for [m >= n]
    boxes, leaves the first [n] entries sorted by Morton code: entry [i]
    holds a simplex index [s < n], each index once, together with the box
    of [s] and the code of that box, so that boxes stay paired with their
    simplices; the codes are in non-decreasing order, and simplices of equal
    code are in increasing order of index (the sort is stable).  The entries
    from [n] on keep their box and code, and hold their own index as simplex.
    The sizes of the buffers and the overlaps are as before. *)
Theorem Build_sorts_boxes P S expansion (σ : Query GpuScalar) m :
  let n := NumberOfSimplices S in
  allocated_for m (this σ) → (n ≤ m)%nat →
  let q' := this (snd (Build P S expansion σ)) in
  let box s := FComputeAabb (x P) (inds S) (eSimplexType S) expansion s in
  let code s := FComputeMortonCode (box s).1 (box s).2 in
  (allocated_for m q' ∧ overlaps q' = overlaps (this σ)) ∧
  (∃ order : list nat,
     order ≡ₚ seq 0 n ∧
     (∀ i s, order !! i = Some s →
        simplex q' !! i = Some (Z.of_nat s) ∧ morton q' !! i = Some (code s) ∧
        FromBuffers (b q') i = (box s).1 ∧ FromBuffers (e q') i = (box s).2) ∧
     (∀ i j s t, (i < j)%nat → order !! i = Some s → order !! j = Some t →
        code s < code t ∨ (code s = code t ∧ (s < t)%nat))) ∧
  (∀ i, (n ≤ i < m)%nat →
     simplex q' !! i = Some (Z.of_nat i) ∧ morton q' !! i = morton (this σ) !! i ∧
     FromBuffers (b q') i = FromBuffers (b (this σ)) i ∧
     FromBuffers (e q') i = FromBuffers (e (this σ)) i).
Proof.
  intros n (Hs & Hm & Hb & He) Hn q' box code. subst q'.
  rewrite Build_this by (unfold NumberOfAllocatedBoxes; lia). fold n.
  set (B1 := scatter n (λ s, (box s).1) (b (this σ))).
  set (E1 := scatter n (λ s, (box s).2) (e (this σ))).
  assert (sized3 m B1 ∧ sized3 m E1) as [HB1 HE1].
  { split; (eapply same_size_sized3; [apply same_size_scatter | done]). }
  destruct (FromBuffers_scatter m n (λ s, (box s).1) (b (this σ)) Hb Hn) as [HB1lt HB1ge].
  destruct (FromBuffers_scatter m n (λ s, (box s).2) (e (this σ)) He Hn) as [HE1lt HE1ge].
  fold B1 in HB1lt, HB1ge. fold E1 in HE1lt, HE1ge.
  assert (aabb_stage P S expansion n (this σ) = set_boxes B1 E1 (this σ)) as ->
    by exact (for_each_ComputeAabb box n (this σ)).
  set (R := drop n (morton (this σ))).
  assert (morton_stage n (set_boxes B1 E1 (this σ))
          = set_morton ((code <$> seq 0 n) ++ R) (set_boxes B1 E1 (this σ))) as ->.
  { unfold morton_stage. rewrite for_each_ComputeMortonCode by (cbn [morton set_boxes]; lia).
    cbn [b e morton set_boxes]. do 2 f_equal.
    apply list_fmap_ext. intros i s [Heq Hi]%lookup_seq. simpl in Heq. subst s.
    unfold code. by rewrite HB1lt, HE1lt. }
  set (q3 := sequence_stage _).
  destruct (sort_stage_eq n m q3 code (λ s, (box s).1) (λ s, (box s).2) R)
    as (order & Horder & Hss & ->).
  { done. }
  { subst q3. unfold sequence_stage. cbn [simplex set_simplex set_morton set_boxes]. by rewrite Hs. }
  { done. }
  { intros i Hi. subst q3. cbn. by rewrite HB1lt, HE1lt. }
  assert (length order = n) as Hlen by (by rewrite Horder, length_seq).
  subst q3. unfold sequence_stage.
  cbn [simplex morton b e overlaps set_simplex set_boxes set_morton]. rewrite Hs.
  set (B2 := scatter n _ B1). set (E2 := scatter n _ E1).
  destruct (FromBuffers_scatter m n (λ i, (box (default 0%nat (order !! i))).1) B1 HB1 Hn)
    as [HB2lt HB2ge].
  destruct (FromBuffers_scatter m n (λ i, (box (default 0%nat (order !! i))).2) E1 HE1 Hn)
    as [HE2lt HE2ge].
  fold B2 in HB2lt, HB2ge. fold E2 in HE2lt, HE2ge.
  split_and!.
  - unfold allocated_for. cbn [simplex morton b e set_simplex set_boxes set_morton].
    subst R. rewrite !length_app, !length_fmap, !length_drop, length_fmap, length_seq, Hlen, Hm.
    split_and!; [lia | lia | |].
    + eapply same_size_sized3; [apply same_size_scatter | done].
    + eapply same_size_sized3; [apply same_size_scatter | done].
  - done.
  - exists order. split_and!; [done | |].
    + intros i s Hi.
      assert (i < n)%nat as Hlt by (rewrite <- Hlen; by eapply lookup_lt_Some).
      rewrite !lookup_app_l by (rewrite length_fmap; lia).
      rewrite !list_lookup_fmap, Hi, HB2lt, HE2lt, Hi by done. done.
    + intros i j s t Hij Hi Hj.
      set (entry := λ s : nat, (code s, ((box s).1, (box s).2, Z.of_nat s))) in Hss.
      assert (before (λ v : Vec3 GpuScalar * Vec3 GpuScalar * Z, v.2) (entry s) (entry t))
        as Hbefore.
      { apply (StronglySorted_lookup _ (entry <$> order) i j); [done | done | |];
          by rewrite list_lookup_fmap, ?Hi, ?Hj. }
      unfold before in Hbefore. simpl in Hbefore. lia.
  - intros i [Hi Him].
    rewrite !lookup_app_r by (rewrite length_fmap; lia).
    rewrite !length_fmap, Hlen. subst R. rewrite !lookup_drop.
    replace (n + (i - n))%nat with i by lia.
    rewrite list_lookup_fmap, lookup_seq_lt by done.
    rewrite HB2ge, HE2ge, HB1ge, HE1ge by done. done.
Qed.

(** *** The allocation over [Build] *)

Lemma unzip7_allocation vals q :
  NumberOfAllocatedBoxes (unzip7 vals q) = NumberOfAllocatedBoxes q.
Proof.
  unfold unzip7. generalize (zip (seq 0 (length vals)) vals). intros ivs.
  revert q. induction ivs as [|[i [[lo hi] s]] ivs IH]; intros q; [done|].
  simpl. rewrite IH. unfold NumberOfAllocatedBoxes. simpl. apply length_insert.
Qed.

(** X19.  [Build] never changes the number of allocated boxes, whether it
    throws or returns; hence, once [Build] has returned for the simplices
    [S], [DetectOverlaps] on the object it leaves does not throw for any
    query set with no more simplices than [S]. *)
Theorem Build_keeps_allocation P S expansion (σ : Query GpuScalar) P' S1 S2 bvh :
  let σ' := snd (Build P S expansion σ) in
  NumberOfAllocatedBoxes (this σ') = NumberOfAllocatedBoxes (this σ) ∧
  (fst (Build P S expansion σ) = inr tt →
   (NumberOfSimplices S1 ≤ NumberOfSimplices S)%nat →
   fst (DetectOverlaps P' S1 S2 bvh σ') = inr tt).
Proof.
  intros σ'. subst σ'.
  destruct (Nat.ltb_spec (NumberOfAllocatedBoxes (this σ)) (NumberOfSimplices S))
    as [Hlt|Hle].
  - assert (Build P S expansion σ
            = (inl (invalid_argument
                      (Build_what (NumberOfAllocatedBoxes (this σ)) (NumberOfSimplices S))),
               σ)) as ->.
    { unfold Build, bind at 1, gets at 1. cbv beta iota.
      by destruct (Nat.ltb_spec (NumberOfAllocatedBoxes (this σ)) (NumberOfSimplices S));
        [|lia]. }
    by split.
  - assert (NumberOfAllocatedBoxes (this (snd (Build P S expansion σ)))
            = NumberOfAllocatedBoxes (this σ)) as Hkept.
    { rewrite Build_this by done. unfold sort_stage. rewrite unzip7_allocation.
      unfold NumberOfAllocatedBoxes, sequence_stage, morton_stage, aabb_stage.
      cbn [simplex set_morton set_simplex]. rewrite length_fmap, length_seq.
      rewrite (for_each_preserves simplex);
        [rewrite (for_each_preserves simplex); [reflexivity|] |];
        intros i q'; [by destruct (FComputeAabb _ _ _ _ _) | done]. }
    split; [done|]. intros _ Hqueries.
    unfold DetectOverlaps, bind at 1, gets at 1. cbv beta iota. rewrite Hkept.
    destruct (Nat.ltb_spec (NumberOfAllocatedBoxes (this σ)) (NumberOfSimplices S1));
      [lia | done].
Qed.

(** X7.  [DetectOverlaps] checks the number of query simplices against the
    boxes allocated: with more queries than boxes it throws an
    invalid-argument error naming both counts, before any device call and
    leaving the object as it was; otherwise it returns normally after one
    launch over the queries.  With no query simplex the object is left as it
    was. *)
Theorem DetectOverlaps_checks_capacity P S1 S2 bvh (σ : Query GpuScalar) :
  let nQueries := NumberOfSimplices S1 in
  let allocated := NumberOfAllocatedBoxes (this σ) in
  ((allocated < nQueries)%nat →
   DetectOverlaps P S1 S2 bvh σ
   = (inl (invalid_argument (DetectOverlaps_what allocated nQueries)), σ)) ∧
  ((nQueries ≤ allocated)%nat →
   fst (DetectOverlaps P S1 S2 bvh σ) = inr tt ∧
   launches (snd (DetectOverlaps P S1 S2 bvh σ))
   = launches σ ++ [ForEachDetectOverlaps nQueries]) ∧
  (nQueries = 0%nat → this (snd (DetectOverlaps P S1 S2 bvh σ)) = this σ).
Proof.
  intros nQueries allocated.
  assert (DetectOverlaps P S1 S2 bvh σ
          = (if Nat.ltb allocated nQueries
             then throw (invalid_argument (DetectOverlaps_what allocated nQueries))
             else launch (ForEachDetectOverlaps nQueries) ;;
                  on_device (for_each nQueries (λ s q,
                    set_overlaps (FDetectOverlaps (x P) q (inds S1) bvh (inds S2) s) q))) σ)
    as -> by reflexivity.
  destruct (Nat.ltb_spec allocated nQueries) as [Hlt|Hle].
  - split_and!; [done | lia | lia].
  - split_and!; [lia | done |]. intros ->. reflexivity.
Qed.

End BvhFacts.

(** ** The keys of the nodes of a mesh *)

Section OrderFacts.
Import spec.
Context {X : Type} (eqb ltb : X → X → bool).
Hypothesis eqb_refl : ∀ x, eqb x x = true.
Hypothesis eqb_l : ∀ x y z, eqb x y = true → eqb x z = eqb y z.
Hypothesis ltb_l : ∀ x y z, eqb x y = true → ltb x z = ltb y z.
Hypothesis ltb_r : ∀ x y z, eqb y z = true → ltb x y = ltb x z.
Hypothesis ltb_flip : ∀ x y, eqb x y = false → ltb y x = negb (ltb x y).
Hypothesis ltb_irrefl : ∀ x y, ltb x y = true → eqb x y = false.
Hypothesis ltb_trans : ∀ x y z, ltb x y = true → ltb y z = true → ltb x z = true.

Lemma eqb_sym x y : eqb x y = eqb y x.
Proof using eqb_refl eqb_l.
  destruct (eqb x y) eqn:Hxy.
  - by rewrite <- (eqb_l x y x Hxy), eqb_refl.
  - destruct (eqb y x) eqn:Hyx; [|done].
    by rewrite <- (eqb_l y x y Hyx), eqb_refl in Hxy.
Qed.

Lemma eqb_r x y z : eqb y z = true → eqb x y = eqb x z.
Proof using eqb_refl eqb_l.
  intros Hyz. rewrite (eqb_sym x y), (eqb_sym x z). by apply eqb_l.
Qed.

Lemma first_difference_refl f i n : first_difference eqb ltb f f i n = None.
Proof using eqb_refl.
  revert i. induction n as [|n IH]; intros i; [done|]. simpl. rewrite eqb_refl. apply IH.
Qed.

Lemma first_difference_flip f g i n : first_difference eqb ltb g f i n = negb <$> first_difference eqb ltb f g i n.
Proof using eqb_refl eqb_l ltb_flip.
  revert i. induction n as [|n IH]; intros i; [done|]. simpl.
  rewrite (eqb_sym (g i) (f i)). destruct (eqb (f i) (g i)) eqn:Heq; simpl; [done|].
  by rewrite ltb_flip.
Qed.

Lemma first_difference_None_l f g h i n :
  first_difference eqb ltb f g i n = None → first_difference eqb ltb f h i n = first_difference eqb ltb g h i n.
Proof using eqb_l ltb_l.
  revert i. induction n as [|n IH]; intros i; [done|]. simpl.
  destruct (eqb (f i) (g i)) eqn:Heq; simpl; [|done]. intros Hrest.
  by rewrite (eqb_l _ _ (h i) Heq), (ltb_l _ _ (h i) Heq), IH.
Qed.

Lemma first_difference_None_r f g h i n :
  first_difference eqb ltb g h i n = None → first_difference eqb ltb f h i n = first_difference eqb ltb f g i n.
Proof using eqb_refl eqb_l ltb_r.
  revert i. induction n as [|n IH]; intros i; [done|]. simpl.
  destruct (eqb (g i) (h i)) eqn:Heq; simpl; [|done]. intros Hrest.
  by rewrite <- (eqb_r (f i) _ _ Heq), <- (ltb_r (f i) _ _ Heq), IH.
Qed.

Lemma first_difference_trans f g h i n :
  first_difference eqb ltb f g i n = Some true → first_difference eqb ltb g h i n = Some true → first_difference eqb ltb f h i n = Some true.
Proof using eqb_refl eqb_l ltb_l ltb_r ltb_irrefl ltb_trans.
  revert i. induction n as [|n IH]; intros i; [done|]. simpl.
  destruct (eqb (f i) (g i)) eqn:Hfg, (eqb (g i) (h i)) eqn:Hgh; simpl.
  - rewrite (eqb_l _ _ (h i) Hfg), Hgh. simpl. apply IH.
  - intros _ [= Hlt]. rewrite (eqb_l _ _ (h i) Hfg), Hgh. simpl.
    by rewrite (ltb_l _ _ (h i) Hfg), Hlt.
  - intros [= Hlt] _. rewrite <- (eqb_r (f i) _ _ Hgh), Hfg. simpl.
    by rewrite <- (ltb_r (f i) _ _ Hgh), Hlt.
  - intros [= Hlt1] [= Hlt2].
    by rewrite (ltb_irrefl _ _ (ltb_trans _ _ _ Hlt1 Hlt2)), (ltb_trans _ _ _ Hlt1 Hlt2).
Qed.

End OrderFacts.

Section NodalKeyFacts.
Import fem spec.

Implicit Types (a b c : NodalKey).

(** *** The orders on indices and on rationals *)

Lemma Z_eqb_l (x y z : Z) : Z.eqb x y = true → Z.eqb x z = Z.eqb y z.
Proof. by intros ->%Z.eqb_eq. Qed.

Lemma Z_ltb_l (x y z : Z) : Z.eqb x y = true → Z.ltb x z = Z.ltb y z.
Proof. by intros ->%Z.eqb_eq. Qed.

Lemma Z_ltb_r (x y z : Z) : Z.eqb y z = true → Z.ltb x y = Z.ltb x z.
Proof. by intros ->%Z.eqb_eq. Qed.

Lemma Z_ltb_flip (x y : Z) : Z.eqb x y = false → Z.ltb y x = negb (Z.ltb x y).
Proof.
  intros Hne%Z.eqb_neq. destruct (Z.ltb_spec y x), (Z.ltb_spec x y); simpl; try done; lia.
Qed.

Lemma Z_ltb_irrefl (x y : Z) : Z.ltb x y = true → Z.eqb x y = false.
Proof. intros Hlt%Z.ltb_lt. apply Z.eqb_neq. lia. Qed.

Lemma Z_ltb_trans (x y z : Z) : Z.ltb x y = true → Z.ltb y z = true → Z.ltb x z = true.
Proof. rewrite !Z.ltb_lt. lia. Qed.

Lemma Rational_eqb_eq (x y : Rational) : Rational_eqb x y = true ↔ (x == y)%Q.
Proof. apply Qeq_bool_iff. Qed.

Lemma Rational_eqb_neq (x y : Rational) : Rational_eqb x y = false ↔ ¬ (x == y)%Q.
Proof. rewrite <- Rational_eqb_eq. by destruct (Rational_eqb x y). Qed.

Lemma Rational_ltb_lt (x y : Rational) : Rational_ltb x y = true ↔ (x < y)%Q.
Proof. unfold Rational_ltb. rewrite Qlt_alt. by destruct (x ?= y)%Q. Qed.

Lemma Rational_ltb_ge (x y : Rational) : Rational_ltb x y = false ↔ (y <= x)%Q.
Proof.
  rewrite <- not_true_iff_false, Rational_ltb_lt. split.
  - apply Qnot_lt_le.
  - apply Qle_not_lt.
Qed.

Lemma Rational_eqb_refl (x : Rational) : Rational_eqb x x = true.
Proof. by apply Rational_eqb_eq. Qed.

Lemma Rational_eqb_l (x y z : Rational) :
  Rational_eqb x y = true → Rational_eqb x z = Rational_eqb y z.
Proof.
  intros Hxy%Rational_eqb_eq.
  destruct (Rational_eqb y z) eqn:Hyz.
  - apply Rational_eqb_eq. apply Rational_eqb_eq in Hyz. by rewrite Hxy.
  - apply Rational_eqb_neq. apply Rational_eqb_neq in Hyz. by rewrite Hxy.
Qed.

Lemma Rational_ltb_l (x y z : Rational) :
  Rational_eqb x y = true → Rational_ltb x z = Rational_ltb y z.
Proof.
  intros Hxy%Rational_eqb_eq.
  destruct (Rational_ltb y z) eqn:Hyz.
  - apply Rational_ltb_lt. apply Rational_ltb_lt in Hyz. by rewrite Hxy.
  - apply Rational_ltb_ge. apply Rational_ltb_ge in Hyz. by rewrite Hxy.
Qed.

Lemma Rational_ltb_r (x y z : Rational) :
  Rational_eqb y z = true → Rational_ltb x y = Rational_ltb x z.
Proof.
  intros Hyz%Rational_eqb_eq.
  destruct (Rational_ltb x z) eqn:Hxz.
  - apply Rational_ltb_lt. apply Rational_ltb_lt in Hxz. by rewrite Hyz.
  - apply Rational_ltb_ge. apply Rational_ltb_ge in Hxz. by rewrite Hyz.
Qed.

Lemma Rational_ltb_flip (x y : Rational) :
  Rational_eqb x y = false → Rational_ltb y x = negb (Rational_ltb x y).
Proof.
  intros Hne%Rational_eqb_neq.
  destruct (Rational_ltb x y) eqn:Hxy; simpl.
  - apply Rational_ltb_ge, Qlt_le_weak. by apply Rational_ltb_lt.
  - apply Rational_ltb_lt. apply Rational_ltb_ge in Hxy.
    apply Qle_lteq in Hxy as [Hlt|Heq]; [done|]. by destruct Hne.
Qed.

Lemma Rational_ltb_irrefl (x y : Rational) :
  Rational_ltb x y = true → Rational_eqb x y = false.
Proof.
  intros Hlt%Rational_ltb_lt. apply Rational_eqb_neq. by apply Qlt_not_eq.
Qed.

Lemma Rational_ltb_trans (x y z : Rational) :
  Rational_ltb x y = true → Rational_ltb y z = true → Rational_ltb x z = true.
Proof. rewrite !Rational_ltb_lt. apply Qlt_trans. Qed.

(** *** The loops of the comparisons *)

Lemma lt_vertices_first_difference a b i n :
  lt_vertices a b i n = first_difference Z.eqb Z.ltb (vertex a) (vertex b) i n.
Proof. revert i. induction n as [|n IH]; intros i; [done|]. simpl. by rewrite IH. Qed.

Lemma lt_weights_first_difference a b i n :
  lt_weights a b i n
  = first_difference Rational_eqb Rational_ltb (weight a) (weight b) i n.
Proof. revert i. induction n as [|n IH]; intros i; [done|]. simpl. by rewrite IH. Qed.

(** The loop of [operator==] falls through exactly when both loops of
    [operator<] do. *)
Lemma eq_loop_lt_loops a b i n :
  eq_loop a b i n = true ↔ lt_vertices a b i n = None ∧ lt_weights a b i n = None.
Proof.
  revert i. induction n as [|n IH]; intros i; [done|]. simpl.
  destruct (Z.eqb (vertex a i) (vertex b i)); simpl; [|split; [done | by intros [? _]]].
  destruct (Rational_eqb (weight a i) (weight b i)); simpl; [|split; [done | by intros [_ ?]]].
  apply IH.
Qed.

Lemma lt_vertices_refl a i n : lt_vertices a a i n = None.
Proof.
  rewrite lt_vertices_first_difference. apply first_difference_refl, Z.eqb_refl.
Qed.

Lemma lt_weights_refl a i n : lt_weights a a i n = None.
Proof.
  rewrite lt_weights_first_difference. apply first_difference_refl, Rational_eqb_refl.
Qed.

Lemma lt_vertices_flip a b i n : lt_vertices b a i n = negb <$> lt_vertices a b i n.
Proof.
  rewrite !lt_vertices_first_difference.
  apply first_difference_flip; auto using Z.eqb_refl, Z_eqb_l, Z_ltb_flip.
Qed.

Lemma lt_weights_flip a b i n : lt_weights b a i n = negb <$> lt_weights a b i n.
Proof.
  rewrite !lt_weights_first_difference.
  apply first_difference_flip;
    auto using Rational_eqb_refl, Rational_eqb_l, Rational_ltb_flip.
Qed.

Lemma lt_vertices_None_l a b c i n :
  lt_vertices a b i n = None → lt_vertices a c i n = lt_vertices b c i n.
Proof.
  rewrite !lt_vertices_first_difference.
  apply first_difference_None_l; auto using Z_eqb_l, Z_ltb_l.
Qed.

Lemma lt_weights_None_l a b c i n :
  lt_weights a b i n = None → lt_weights a c i n = lt_weights b c i n.
Proof.
  rewrite !lt_weights_first_difference.
  apply first_difference_None_l; auto using Rational_eqb_l, Rational_ltb_l.
Qed.

Lemma lt_vertices_None_r a b c i n :
  lt_vertices b c i n = None → lt_vertices a c i n = lt_vertices a b i n.
Proof.
  rewrite !lt_vertices_first_difference.
  apply first_difference_None_r; auto using Z.eqb_refl, Z_eqb_l, Z_ltb_r.
Qed.

Lemma lt_weights_None_r a b c i n :
  lt_weights b c i n = None → lt_weights a c i n = lt_weights a b i n.
Proof.
  rewrite !lt_weights_first_difference.
  apply first_difference_None_r;
    auto using Rational_eqb_refl, Rational_eqb_l, Rational_ltb_r.
Qed.

Lemma lt_vertices_trans a b c i n :
  lt_vertices a b i n = Some true → lt_vertices b c i n = Some true →
  lt_vertices a c i n = Some true.
Proof.
  rewrite !lt_vertices_first_difference.
  exact (first_difference_trans Z.eqb Z.ltb Z.eqb_refl Z_eqb_l Z_ltb_l Z_ltb_r Z_ltb_irrefl
           Z_ltb_trans _ _ _ i n).
Qed.

Lemma lt_weights_trans a b c i n :
  lt_weights a b i n = Some true → lt_weights b c i n = Some true →
  lt_weights a c i n = Some true.
Proof.
  rewrite !lt_weights_first_difference.
  exact (first_difference_trans Rational_eqb Rational_ltb Rational_eqb_refl Rational_eqb_l
           Rational_ltb_l Rational_ltb_r Rational_ltb_irrefl Rational_ltb_trans _ _ _ i n).
Qed.

Lemma eq_loop_value a b i n :
  eq_loop a b i n
  = match lt_vertices a b i n, lt_weights a b i n with
    | None, None => true
    | _, _ => false
    end.
Proof.
  pose proof (eq_loop_lt_loops a b i n) as Hiff.
  destruct (eq_loop a b i n), (lt_vertices a b i n), (lt_weights a b i n);
    try done; try (by destruct Hiff as [[? ?] _]); by destruct Hiff as [_ ?]; auto.
Qed.

(** *** The comparisons *)

Lemma operator_eq_refl a : operator_eq a a = true.
Proof.
  unfold operator_eq. rewrite Z.eqb_refl. simpl.
  by rewrite eq_loop_value, lt_vertices_refl, lt_weights_refl.
Qed.

Lemma operator_eq_sym a b : operator_eq a b = operator_eq b a.
Proof.
  unfold operator_eq. rewrite (Z.eqb_sym (mSize b)).
  destruct (Z.eqb_spec (mSize a) (mSize b)) as [Heq|Hne]; simpl; [|done].
  rewrite <- Heq, !eq_loop_value, (lt_vertices_flip a b), (lt_weights_flip a b).
  by destruct (lt_vertices a b _ _), (lt_weights a b _ _).
Qed.

Lemma operator_eq_trans a b c :
  operator_eq a b = true → operator_eq b c = true → operator_eq a c = true.
Proof.
  unfold operator_eq.
  destruct (Z.eqb_spec (mSize a) (mSize b)) as [Hab|Hne]; simpl; [|done].
  destruct (Z.eqb_spec (mSize b) (mSize c)) as [Hbc|Hne]; simpl; [|done].
  rewrite <- Hab in *. rewrite <- Hbc, Z.eqb_refl. simpl.
  rewrite !eq_loop_value.
  destruct (lt_vertices a b _ _) eqn:Hv1; [done|].
  destruct (lt_weights a b _ _) eqn:Hw1; [done|].
  by rewrite (lt_vertices_None_l a b c), (lt_weights_None_l a b c).
Qed.

(** The equivalence of the map is [operator==]. *)
Lemma equivalent_operator_eq a b : equivalent a b = operator_eq a b.
Proof.
  unfold equivalent, operator_eq, operator_lt. rewrite (Z.eqb_sym (mSize b)).
  destruct (Z.eqb_spec (mSize a) (mSize b)) as [Heq|Hne]; simpl.
  - rewrite <- Heq, eq_loop_value, (lt_vertices_flip a b), (lt_weights_flip a b).
    destruct (lt_vertices a b _ _) as [[]|]; simpl; try done.
    by destruct (lt_weights a b _ _) as [[]|].
  - destruct (Z.ltb_spec (mSize a) (mSize b)), (Z.ltb_spec (mSize b) (mSize a));
      simpl; try done; lia.
Qed.

(** X8.  [operator==] on keys is an equivalence relation: it is reflexive,
    symmetric and transitive. *)
Theorem operator_eq_equivalence :
  (∀ a, operator_eq a a = true) ∧
  (∀ a b, operator_eq a b = operator_eq b a) ∧
  (∀ a b c, operator_eq a b = true → operator_eq b c = true → operator_eq a c = true).
Proof.
  split_and!; [apply operator_eq_refl | apply operator_eq_sym | apply operator_eq_trans].
Qed.

(** X9.  [operator<] on keys is a strict order compatible with
    [operator==]: no key is below itself, of two keys at most one is below
    the other, the relation is transitive, and keys that are [==] are below
    the same keys. *)
Theorem operator_lt_strict_order :
  (∀ a, operator_lt a a = false) ∧
  (∀ a b, operator_lt a b = true → operator_lt b a = false) ∧
  (∀ a b c, operator_lt a b = true → operator_lt b c = true → operator_lt a c = true) ∧
  (∀ a b c, operator_eq a b = true → operator_lt a c = operator_lt b c).
Proof.
  split_and!.
  - intros a. unfold operator_lt. rewrite Z.eqb_refl. simpl.
    by rewrite lt_vertices_refl, lt_weights_refl.
  - intros a b. unfold operator_lt. rewrite (Z.eqb_sym (mSize b)).
    destruct (Z.eqb_spec (mSize a) (mSize b)) as [Heq|Hne]; simpl.
    + rewrite <- Heq, (lt_vertices_flip a b), (lt_weights_flip a b).
      destruct (lt_vertices a b _ _) as [[]|]; simpl; try done.
      by destruct (lt_weights a b _ _) as [[]|].
    + rewrite !Z.ltb_lt, Z.ltb_ge. lia.
  - intros a b c. unfold operator_lt.
    destruct (Z.eqb_spec (mSize a) (mSize b)) as [Hab|Hab],
             (Z.eqb_spec (mSize b) (mSize c)) as [Hbc|Hbc]; simpl.
    + rewrite <- Hab in *. rewrite <- Hbc, Z.eqb_refl. simpl.
      destruct (lt_vertices a b _ _) as [r1|] eqn:Hv1.
      * intros ->. destruct (lt_vertices b c _ _) as [r2|] eqn:Hv2.
        -- intros ->. by rewrite (lt_vertices_trans a b c).
        -- intros _. by rewrite (lt_vertices_None_r a b c), Hv1.
      * rewrite (lt_vertices_None_l a b c) by done.
        destruct (lt_vertices b c _ _) as [r2|] eqn:Hv2; [done|].
        destruct (lt_weights a b _ _) as [r1|] eqn:Hw1; [|done].
        intros ->. destruct (lt_weights b c _ _) as [r2|] eqn:Hw2; [|done].
        intros ->. by rewrite (lt_weights_trans a b c).
    + rewrite <- Hab in *. intros _ Hlt.
      destruct (Z.eqb_spec (mSize a) (mSize c)) as [?|_]; [done|]. done.
    + rewrite <- Hbc in *. intros Hlt _.
      destruct (Z.eqb_spec (mSize a) (mSize b)) as [?|_]; [done|]. done.
    + rewrite !Z.ltb_lt. intros Hlt1 Hlt2.
      destruct (Z.eqb_spec (mSize a) (mSize c)) as [?|_]; simpl; [lia|].
      apply Z.ltb_lt. lia.
  - intros a b c. unfold operator_eq, operator_lt.
    destruct (Z.eqb_spec (mSize a) (mSize b)) as [Hab|Hab]; simpl; [|done].
    rewrite <- Hab, eq_loop_value.
    destruct (lt_vertices a b _ _) eqn:Hv1; [done|].
    destruct (lt_weights a b _ _) eqn:Hw1; [done|]. intros _.
    destruct (Z.eqb (mSize a) (mSize c)); simpl; [|done].
    by rewrite (lt_vertices_None_l a b c), (lt_weights_None_l a b c).
Qed.

(** X10.  Two keys are [==] exactly when neither is below the other, which
    is the equivalence [std::map] finds a key by. *)
Theorem operator_eq_lt_consistent a b :
  operator_eq a b = negb (operator_lt a b) && negb (operator_lt b a).
Proof. symmetry. apply equivalent_operator_eq. Qed.

(** *** The constructor *)

Lemma eq_loop_iff a b i n :
  eq_loop a b i n = true ↔
  ∀ j, (i ≤ j < i + n)%nat → vertex a j = vertex b j ∧ (weight a j == weight b j)%Q.
Proof.
  revert i. induction n as [|n IH]; intros i; simpl.
  - split; [intros _ j Hj; lia | done].
  - destruct (Z.eqb_spec (vertex a i) (vertex b i)) as [Hv|Hv]; simpl.
    + destruct (Rational_eqb (weight a i) (weight b i)) eqn:Hw; simpl.
      * rewrite IH. apply Rational_eqb_eq in Hw. split.
        -- intros Hrest j Hj. destruct (decide (j = i)) as [->|Hne]; [done|].
           apply Hrest. lia.
        -- intros Hall j Hj. apply Hall. lia.
      * apply Rational_eqb_neq in Hw. split; [done|]. intros Hall.
        destruct (Hall i) as [_ Hw']; [lia | done].
    + split; [done|]. intros Hall. destruct (Hall i) as [Hv' _]; [lia | done].
Qed.

Lemma coeff_lookup {A} (zero x : A) (v : list A) (i : nat) :
  v !! i = Some x → coeff zero v (Z.of_nat i) = x.
Proof.
  intros Hx. unfold coeff. destruct (Z.ltb_spec (Z.of_nat i) 0); [lia|].
  by rewrite Nat2Z.id, Hx.
Qed.

(** The entries a key reads: those of the sort order that support the node. *)
Lemma NodalKey_init_entry cv so N i o :
  supporting so N !! i = Some o →
  vertex (NodalKey_init cv so N) i = coeff 0 cv o ∧
  weight (NodalKey_init cv so N) i = coeff 0%Q N o.
Proof.
  intros Ho. unfold vertex, weight, NodalKey_init, remove_if. cbn [mCellVertices mSortOrder mN].
  rewrite (coeff_lookup 0 o); [done|].
  rewrite lookup_app_l; [done|]. by eapply lookup_lt_Some.
Qed.

(** X11.  A key built by the constructor counts in [mSize] the entries of
    the sort order whose shape function does not vanish, and two such keys
    are [==] exactly when these entries, taken in order, name the same
    vertices with the same shape function values; the vertices where the
    shape function vanishes do not enter the comparison. *)
Theorem NodalKey_init_eq cv1 so1 N1 cv2 so2 N2 :
  mSize (NodalKey_init cv1 so1 N1) = Z.of_nat (length (supporting so1 N1)) ∧
  (operator_eq (NodalKey_init cv1 so1 N1) (NodalKey_init cv2 so2 N2) = true ↔
   Forall2 (λ o1 o2, coeff 0 cv1 o1 = coeff 0 cv2 o2 ∧
                     (coeff 0%Q N1 o1 == coeff 0%Q N2 o2)%Q)
     (supporting so1 N1) (supporting so2 N2)).
Proof.
  split; [done|].
  rewrite Forall2_same_length_lookup. unfold operator_eq.
  change (mSize (NodalKey_init cv1 so1 N1)) with (Z.of_nat (length (supporting so1 N1))).
  change (mSize (NodalKey_init cv2 so2 N2)) with (Z.of_nat (length (supporting so2 N2))).
  destruct (Z.eqb_spec (Z.of_nat (length (supporting so1 N1)))
              (Z.of_nat (length (supporting so2 N2)))) as [Hlen|Hlen]; simpl.
  - apply Nat2Z.inj in Hlen. rewrite Nat2Z.id, eq_loop_iff. split.
    + intros Hall. split; [done|]. intros i o1 o2 Ho1 Ho2.
      destruct (NodalKey_init_entry cv1 so1 N1 i o1 Ho1) as [<- <-].
      destruct (NodalKey_init_entry cv2 so2 N2 i o2 Ho2) as [<- <-].
      apply Hall. apply lookup_lt_Some in Ho1. lia.
    + intros [_ Hall] j Hj.
      destruct (lookup_lt_is_Some_2 (supporting so1 N1) j) as [o1 Ho1]; [lia|].
      destruct (lookup_lt_is_Some_2 (supporting so2 N2) j) as [o2 Ho2]; [lia|].
      destruct (NodalKey_init_entry cv1 so1 N1 j o1 Ho1) as [-> ->].
      destruct (NodalKey_init_entry cv2 so2 N2 j o2 Ho2) as [-> ->].
      by apply (Hall j).
  - split; [done|]. intros [Hlen' _]. by rewrite Hlen' in Hlen.
Qed.

End NodalKeyFacts.

(** ** The constructor of a mesh *)

Section MeshFacts.
Import fem spec.
Context {Scalar : Type} {element : CElement}.
Context (product : list (list Scalar) → list Rational → list Scalar).

Implicit Types (st : Construction Scalar) (C : list (list Z)).

Lemma E_at_set_E_eq (E : list (list Z)) c i node col :
  E !! c = Some col → (i < length col)%nat → E_at (set_E i c node E) c i = Some node.
Proof.
  intros Hc Hi. unfold E_at, set_E. rewrite Hc. simpl.
  rewrite list_lookup_insert_eq by (by eapply lookup_lt_Some). simpl.
  by rewrite list_lookup_insert_eq.
Qed.

Lemma E_at_set_E_ne (E : list (list Z)) c i c' i' node :
  (c', i') ≠ (c, i) → E_at (set_E i c node E) c' i' = E_at E c' i'.
Proof.
  intros Hne. unfold E_at, set_E.
  destruct (decide (c' = c)) as [->|Hc]; [|by rewrite list_lookup_insert_ne].
  destruct (E !! c) as [col|] eqn:Hcol; simpl.
  - rewrite list_lookup_insert_eq by (by eapply lookup_lt_Some). simpl.
    rewrite list_lookup_insert_ne; [done|]. congruence.
  - rewrite list_insert_ge by (by apply lookup_ge_None). by rewrite Hcol.
Qed.

Lemma set_E_shape (E : list (list Z)) i c node n m :
  (length E = n ∧ ∀ c' col, E !! c' = Some col → length col = m) →
  length (set_E i c node E) = n ∧
  ∀ c' col, set_E i c node E !! c' = Some col → length col = m.
Proof.
  intros [Hlen Hcols]. unfold set_E. rewrite length_insert. split; [done|].
  intros c' col [(-> & <- & Hc')|[_ Hcol]]%list_lookup_insert_Some; [|by eapply Hcols].
  destruct (lookup_lt_is_Some_2 E c' Hc') as [col' Hcol'].
  rewrite Hcol', length_insert. simpl. by eapply Hcols.
Qed.

(** The five parts of [consistent]. *)
Local Ltac split_consistent := split; [|split; [|split; [|split]]].

Lemma consistent_ext V C c0 i0 c1 i1 st :
  (∀ c i, visited c0 i0 c i ↔ visited c1 i1 c i) →
  consistent product V C c0 i0 st → consistent product V C c1 i1 st.
Proof.
  intros Hext (Hidx & Hdistinct & Hvisited & Hcreated & Hshape).
  split_consistent; [done | done | | | done].
  - intros c i Hci. apply Hvisited. by apply Hext.
  - intros j kv Hkv. destruct (Hcreated j kv Hkv) as (c & i & Hci & Hkey).
    exists c, i. split; [by apply Hext | done].
Qed.

(** The nodes in the map carry their position in it as number. *)
Lemma consistent_number V C c0 i0 st j kv :
  consistent product V C c0 i0 st → nodeMap st !! j = Some kv →
  kv.2 = Z.of_nat j ∧ (j < length (nodes st))%nat.
Proof.
  intros (Hidx & _) Hkv.
  assert ((nodeMap st).*2 !! j = Some kv.2) as Hj by (by rewrite list_lookup_fmap, Hkv).
  rewrite Hidx, list_lookup_fmap in Hj.
  destruct (seq 0 (length (nodes st)) !! j) as [j'|] eqn:Hseq; [|done].
  apply lookup_seq in Hseq as [-> Hlt]. simpl in Hj. split; [congruence | done].
Qed.

Lemma consistent_length V C c0 i0 st :
  consistent product V C c0 i0 st → length (nodeMap st) = length (nodes st).
Proof.
  intros (Hidx & _). by rewrite <- (length_fmap snd), Hidx, length_fmap, length_seq.
Qed.

(** One pass of the loop over the nodes of a cell (lines 243-260). *)
Lemma visit_node_consistent V C c0 i0 st :
  (c0 < length C)%nat → (i0 < kNodes)%nat →
  consistent product V C c0 i0 st →
  consistent product V C c0 (S i0)
    (visit_node product (default [] (C !! c0)) (sort_order (default [] (C !! c0)))
       (cell_positions V C c0) c0 i0 st).
Proof.
  intros Hc0 Hi0 Hst.
  pose proof (consistent_length _ _ _ _ _ Hst) as Hlenmap.
  pose proof (λ j kv, consistent_number V C c0 i0 st j kv Hst) as Hnumber.
  destruct Hst as (Hidx & Hdistinct & Hvisited & Hcreated & Hshape).
  destruct (lookup_lt_is_Some_2 (elements st) c0) as [col Hcol]; [destruct Hshape; lia|].
  assert (length col = kNodes) as Hlencol by (by eapply Hshape).
  assert (∀ c i, visited c0 (S i0) c i → (c, i) ≠ (c0, i0) → visited c0 i0 c i) as Hold.
  { intros c i [Hi Hci] Hne. split; [done|].
    destruct Hci as [?|[-> ?]]; [by left|]. right. split; [done|].
    assert (i ≠ i0) by congruence. lia. }
  assert (∀ c i, visited c0 i0 c i → visited c0 (S i0) c i ∧ (c, i) ≠ (c0, i0)) as Hnew.
  { intros c i [Hi Hci]. split; [split; [done|]|].
    - destruct Hci as [?|[-> ?]]; [by left | right; lia].
    - intros [= -> ->]. lia. }
  unfold visit_node.
  change (NodalKey_init _ _ _) with (node_key C c0 i0). set (key := node_key C c0 i0).
  destruct (find key (nodeMap st)) as [[k' node]|] eqn:Hfind.
  - apply find_some in Hfind as [Hin Heq]. simpl in Heq.
    rewrite equivalent_operator_eq in Heq.
    apply list_elem_of_In, list_elem_of_lookup_1 in Hin as [j Hj].
    destruct (Hnumber j _ Hj) as [Hnode _]. simpl in Hnode. subst node.
    split_consistent; cbn [nodeMap nodes elements]; [done | done | | | by apply set_E_shape].
    + intros c i Hci. destruct (decide ((c, i) = (c0, i0))) as [[= -> ->]|Hne].
      * exists j, (k', Z.of_nat j). split_and!; [done | done |].
        eapply E_at_set_E_eq; [done | lia].
      * destruct (Hvisited c i) as (j1 & kv & Hkv & Hkey & HE); [by apply Hold|].
        exists j1, kv. by rewrite E_at_set_E_ne.
    + intros j1 kv Hkv. destruct (Hcreated j1 kv Hkv) as (c & i & Hci & Hkey).
      exists c, i. split; [by apply Hnew | done].
  - pose proof (find_none _ _ Hfind) as Hnone.
    assert (∀ j kv, nodeMap st !! j = Some kv → operator_eq kv.1 key = false) as Hfresh.
    { intros j kv Hkv. rewrite <- equivalent_operator_eq.
      apply (Hnone kv). by apply list_elem_of_In, list_elem_of_lookup_2 with j. }
    split_consistent; cbn [nodeMap nodes elements]; [| | | | by apply set_E_shape].
    + rewrite fmap_app, Hidx, length_app. simpl.
      by rewrite Nat.add_1_r, seq_S, fmap_app.
    + intros j j' kv kv' [Hj|[Hj Hj0]]%lookup_app_Some [Hj'|[Hj' Hj0']]%lookup_app_Some Heq.
      * by eapply Hdistinct.
      * apply list_lookup_singleton_Some in Hj0' as [_ <-]. simpl in Heq.
        by rewrite (Hfresh j kv) in Heq.
      * apply list_lookup_singleton_Some in Hj0 as [_ <-]. simpl in Heq.
        rewrite operator_eq_sym in Heq. by rewrite (Hfresh j' kv') in Heq.
      * apply list_lookup_singleton_Some in Hj0 as [Hj0 _].
        apply list_lookup_singleton_Some in Hj0' as [Hj0' _]. lia.
    + intros c i Hci. destruct (decide ((c, i) = (c0, i0))) as [[= -> ->]|Hne].
      * exists (length (nodeMap st)), (key, Z.of_nat (length (nodes st))). split_and!.
        -- by rewrite lookup_app_r, Nat.sub_diag.
        -- apply operator_eq_refl.
        -- rewrite Hlenmap. eapply E_at_set_E_eq; [done | lia].
      * destruct (Hvisited c i) as (j1 & kv & Hkv & Hkey & HE); [by apply Hold|].
        exists j1, kv. rewrite E_at_set_E_ne by done.
        split_and!; [|done|done]. rewrite lookup_app_l; [done|]. by eapply lookup_lt_Some.
    + intros j1 kv [Hkv|[Hj1 Hkv]]%lookup_app_Some.
      * destruct (Hcreated j1 kv Hkv) as (c & i & Hci & Hkey & Hpos).
        exists c, i. split_and!; [by apply Hnew | done |].
        rewrite lookup_app_l; [done|]. by eapply lookup_lt_Some.
      * apply list_lookup_singleton_Some in Hkv as [Hj0 <-].
        exists c0, i0. split_and!; [split; [done | right; lia] | done |].
        assert (j1 = length (nodes st)) as -> by lia.
        by rewrite lookup_app_r, Nat.sub_diag.
Qed.

(** One pass of the loop over the cells (lines 225-262). *)
Lemma visit_cell_consistent V C c0 st :
  (c0 < length C)%nat → consistent product V C c0 0 st →
  consistent product V C (S c0) 0 (visit_cell product V C c0 st).
Proof.
  intros Hc0 Hst. unfold visit_cell.
  set (cellVertices := default [] (C !! c0)).
  set (Xc := (λ v, coeff [] V v) <$> cellVertices).
  assert (∀ i0, (i0 ≤ kNodes)%nat →
            consistent product V C c0 i0
              (foldl (λ st i, visit_node product cellVertices (sort_order cellVertices)
                                Xc c0 i st) st (seq 0 i0))) as Hloop.
  { induction i0 as [|i0 IH]; intros Hi0; [done|].
    rewrite seq_S, foldl_app. simpl. apply visit_node_consistent; [done | lia |].
    apply IH. lia. }
  eapply consistent_ext; [|by apply (Hloop kNodes)].
  intros c i. unfold visited. lia.
Qed.

Lemma construct_consistent V C :
  consistent product V C (length C) 0 (construct product V C).
Proof.
  unfold construct.
  set (st0 := mkConstruction [] [] _).
  assert (∀ c0, (c0 ≤ length C)%nat →
            consistent product V C c0 0
              (foldl (λ st c, visit_cell product V C c st) st0 (seq 0 c0)))
    as Hloop; [|by apply Hloop].
  induction c0 as [|c0 IH]; intros Hc0.
  - subst st0. split_consistent; cbn [nodeMap nodes elements foldl seq]; try done.
    + intros c i [_ Hci]. lia.
    + split; [apply length_replicate|].
      intros c col [-> _]%lookup_replicate. apply length_replicate.
  - rewrite seq_S, foldl_app. simpl. apply visit_cell_consistent; [lia|]. apply IH. lia.
Qed.

(** What the constructor leaves for node [i] of cell [c]. *)
Lemma construct_entry V C c i :
  (c < length C)%nat → (i < kNodes)%nat →
  ∃ j kv, nodeMap (construct product V C) !! j = Some kv ∧
          operator_eq kv.1 (node_key C c i) = true ∧
          E_at (elements (construct product V C)) c i = Some (Z.of_nat j) ∧
          (j < length (nodes (construct product V C)))%nat.
Proof.
  intros Hc Hi. pose proof (construct_consistent V C) as Hst.
  pose proof (λ j kv, consistent_number _ _ _ _ _ j kv Hst) as Hnumber.
  destruct Hst as (_ & _ & Hvisited & _).
  destruct (Hvisited c i) as (j & kv & Hkv & Hkey & HE); [split; [done | by left]|].
  exists j, kv. split_and!; [done | done | done |]. by destruct (Hnumber j kv Hkv).
Qed.

(** X12.  The mesh built from the cells [C] has one column of [E] per
    cell, and every entry of [E], for node [i] of element [c], is the index
    of a node of the mesh: it lies in [0, number of columns of X). *)
Theorem Mesh_init_indices V C c i :
  let mesh := Mesh_init product V C in
  (c < length C)%nat → (i < kNodes)%nat →
  length (E mesh) = length C ∧
  ∃ node, E_at (E mesh) c i = Some node ∧ 0 ≤ node < Z.of_nat (length (X mesh)).
Proof.
  intros mesh Hc Hi. subst mesh. unfold Mesh_init. cbn [E X]. split.
  - by destruct (construct_consistent V C) as (_ & _ & _ & _ & Hlen & _).
  - destruct (construct_entry V C c i Hc Hi) as (j & kv & _ & _ & HE & Hj).
    exists (Z.of_nat j). split; [done | lia].
Qed.

(** X13.  Elements share their common nodes, and nothing else: node [i] of
    element [c] and node [i'] of element [c'] receive the same index in [E]
    exactly when their keys are [==], that is when they have the same
    affine coordinates with respect to the same vertices. *)
Theorem Mesh_init_shares_nodes V C c i c' i' :
  let mesh := Mesh_init product V C in
  (c < length C)%nat → (i < kNodes)%nat → (c' < length C)%nat → (i' < kNodes)%nat →
  E_at (E mesh) c i = E_at (E mesh) c' i' ↔
  operator_eq (node_key C c i) (node_key C c' i') = true.
Proof.
  intros mesh Hc Hi Hc' Hi'. subst mesh. unfold Mesh_init. cbn [E].
  destruct (construct_entry V C c i Hc Hi) as (j & kv & Hkv & Hkey & -> & _).
  destruct (construct_entry V C c' i' Hc' Hi') as (j' & kv' & Hkv' & Hkey' & -> & _).
  destruct (construct_consistent V C) as (_ & Hdistinct & _).
  rewrite operator_eq_sym in Hkey. split.
  - intros [= Hjj]. apply Nat2Z.inj in Hjj. subst j'.
    assert (kv' = kv) as -> by congruence.
    by apply (operator_eq_trans _ kv.1).
  - intros Heq. do 2 f_equal. apply (Hdistinct j j' kv kv'); [done | done |].
    rewrite operator_eq_sym in Hkey, Hkey'.
    eapply operator_eq_trans; [exact Hkey|]. by eapply operator_eq_trans.
Qed.

(** X14.  No node is created without being used: every column [j] of [X]
    is the node of some element, at an entry of [E] that holds [j], and
    its position is the one computed for that node of that element, the
    product of the positions of the vertices of the cell with the affine
    shape functions at the node. *)
Theorem Mesh_init_nodes_used V C j :
  let mesh := Mesh_init product V C in
  (j < length (X mesh))%nat →
  ∃ c i, (c < length C)%nat ∧ (i < kNodes)%nat ∧
         E_at (E mesh) c i = Some (Z.of_nat j) ∧
         X mesh !! j = Some (node_position product V C c i).
Proof.
  intros mesh Hj. subst mesh. unfold Mesh_init in *. cbn [E X] in *.
  pose proof (construct_consistent V C) as Hst.
  rewrite <- (consistent_length _ _ _ _ _ Hst) in Hj.
  destruct (lookup_lt_is_Some_2 _ j Hj) as [kv Hkv].
  destruct Hst as (_ & Hdistinct & _ & Hcreated & _).
  destruct (Hcreated j kv Hkv) as (c & i & [Hi [Hc|[_ ?]]] & Hkey & Hpos); [|lia].
  destruct (construct_entry V C c i Hc Hi) as (j' & kv' & Hkv' & Hkey' & HE & _).
  exists c, i. split_and!; [done | done | | done].
  rewrite HE. do 2 f_equal. apply (Hdistinct j' j kv' kv); [done | done |].
  by rewrite Hkey.
Qed.

End MeshFacts.

(** ** Construction and the adjacency setter, further *)

Section ObjectEdgeFacts.
Import geometry vbd spec.
Context {GpuScalar : Type} {ops : GpuScalarOps GpuScalar}.
Local Open Scope obj_scope.

Implicit Types (s : VbdImpl GpuScalar).

(** X15.  [SetVertexTetrahedronAdjacencyList] stores all three arrays or
    none.  The neighbour and ilocal buffers are resized to the arrays
    given, which may thus have any common size; the prefix buffer keeps the
    size fixed at construction.  When the neighbour and ilocal arrays have
    one size and the prefix array the size of its buffer, the three arrays
    are stored and nothing else changes; otherwise the call throws and the
    object is as before. *)
Theorem SetVertexTetrahedronAdjacencyList_all_or_nothing GVTp GVTn GVTilocal s :
  let accepted :=
    Nat.eqb (length GVTn) (length GVTilocal)
    && Nat.eqb (length GVTp) (length (mVertexTetrahedronPrefix s)) in
  (accepted = true →
   SetVertexTetrahedronAdjacencyList GVTp GVTn GVTilocal s
   = (inr tt,
      set_mVertexTetrahedronLocalVertexIndices GVTilocal
        (set_mVertexTetrahedronNeighbours GVTn (set_mVertexTetrahedronPrefix GVTp s)))) ∧
  (accepted = false →
   ∃ what, SetVertexTetrahedronAdjacencyList GVTp GVTn GVTilocal s
           = (inl (invalid_argument what), s)).
Proof.
  intros accepted. subst accepted.
  destruct (Nat.eqb_spec (length GVTn) (length GVTilocal)) as [Hlen|Hlen]; simpl.
  - rewrite SetVertexTetrahedronAdjacencyList_same_size by done.
    destruct (Nat.eqb (length GVTp) (length (mVertexTetrahedronPrefix s))).
    + by split.
    + split; [done|]. intros _. by eexists.
  - split; [done|]. intros _. eexists.
    unfold SetVertexTetrahedronAdjacencyList.
    by destruct (Nat.eqb_spec (length GVTn) (length GVTilocal)).
Qed.

(** X16.  The constructor sizes every buffer from its input: for positions
    given as three rows of [n] coordinates and [m] tetrahedra, the eight
    per-vertex buffers hold [n] vertices, the masses [n] entries, the
    quadrature weights [m], the shape function gradients [12 m], the Lame
    coefficients [2 m], the adjacency prefix [n + 1], the colliding
    triangles [8 n] and their counts [n]; no vertex has more colliding
    triangles than the cap, the adjacency and the partitions are empty, the
    strategy is [AdaptiveVbd] and the block size 64. *)
Theorem VbdImpl_init_sizes (Xin : Matrix GpuScalar) (Vin Fin Tin : Matrix Z) :
  length (row Xin 1) = cols Xin → length (row Xin 2) = cols Xin →
  let s := VbdImpl_init Xin Vin Fin Tin in
  (NumberOfPoints (X s) = cols Xin ∧ NumberOfSimplices (T s) = cols Tin) ∧
  sizes_as_declared s = true ∧
  within_capacity s = true ∧
  (mVertexTetrahedronNeighbours s = [] ∧ mVertexTetrahedronLocalVertexIndices s = [] ∧
   mPartitions s = []) ∧
  mInitializationStrategy s = AdaptiveVbd ∧ mGpuThreadBlockSize s = 64.
Proof.
  intros H1 H2 s. subst s. split_and!; try done.
  - unfold sizes_as_declared, VbdImpl_init, SetConstant3, SetConstant, Buffer3_n,
      NumberOfPoints, NumberOfSimplices, Size3, PointsImpl_init, SimplicesImpl_init.
    cbn -[Nat.eqb Nat.mul Nat.add cols row].
    change (length (row Xin 0)) with (cols Xin).
    by rewrite !length_replicate, H1, H2, !Nat.eqb_refl.
  - unfold within_capacity, VbdImpl_init, SetConstant. cbn -[Z.leb].
    generalize (cols Xin). intros n. induction n as [|n IH]; [done|]. exact IH.
Qed.

End ObjectEdgeFacts.

(** ** Where the sizes are checked *)

Section ConfigurationFacts.
Import geometry vbd spec.
Context {GpuScalar : Type} {ops : GpuScalarOps GpuScalar}.
Context {kernels : Kernels GpuScalar} {bvh_kernels : BvhQueryImplKernels GpuScalar}.
Local Open Scope obj_scope.

Implicit Types (s : VbdImpl GpuScalar) (c : Setter GpuScalar).

Lemma VbdImpl_init_as_declared (Xin : Matrix GpuScalar) (Vin Fin Tin : Matrix Z) :
  length (row Xin 1) = cols Xin → length (row Xin 2) = cols Xin →
  as_declared (cols Xin) (cols Tin) (VbdImpl_init Xin Vin Fin Tin).
Proof.
  intros H1 H2. unfold as_declared. split_and!; try done.
  - unfold sizes_as_declared, VbdImpl_init, SetConstant3, SetConstant, Buffer3_n,
      NumberOfPoints, NumberOfSimplices, Size3, PointsImpl_init, SimplicesImpl_init.
    cbn -[Nat.eqb Nat.mul Nat.add cols row].
    change (length (row Xin 0)) with (cols Xin).
    by rewrite !length_replicate, H1, H2, !Nat.eqb_refl.
  - unfold within_capacity, VbdImpl_init, SetConstant. cbn -[Z.leb].
    generalize (cols Xin). intros n. induction n as [|n IH]; [done|]. exact IH.
Qed.

(** The sizes of the three buffers the setters check their input against. *)
Lemma as_declared_lengths n m s :
  as_declared n m s →
  length (mMass s) = n ∧ length (mQuadratureWeights s) = m ∧
  length (mVertexTetrahedronPrefix s) = (n + 1)%nat.
Proof.
  intros (Hn & Hm & Hsizes & _). unfold sizes_as_declared in Hsizes.
  rewrite Hn, Hm in Hsizes.
  repeat (apply andb_prop in Hsizes; destruct Hsizes as [Hsizes ?]).
  repeat match goal with H : Nat.eqb _ _ = true |- _ => apply Nat.eqb_eq in H end.
  by split_and!.
Qed.

(** A call whose input fits returns with the input stored; any other throws
    an invalid-argument error and leaves the object as it was.  Either way
    the counts and the sizes fixed at construction are kept. *)
Lemma run_setter_as_declared n m c s :
  as_declared n m s →
  (if fits n m c
   then fst (run_setter c s) = inr tt ∧ stored c (snd (run_setter c s))
   else ∃ what, run_setter c s = (inl (invalid_argument what), s)) ∧
  as_declared n m (snd (run_setter c s)).
Proof.
  intros Hs. destruct (as_declared_lengths n m s Hs) as (Hmass & Hwg & Hprefix).
  destruct c as [mass|wg|GVTp GVTn GVTilocal|partitions]; cbn [fits run_setter stored].
  - unfold SetMass. destruct (Nat.eqb_spec (length mass) n) as [Hlen|Hlen].
    + rewrite ToBuffer_member_ok by congruence. split; [done|]. cbn [snd].
      destruct Hs as (Hn & Hm & Hsizes & Hcap). unfold as_declared. split_and!; try done.
      rewrite <- Hsizes. unfold sizes_as_declared. simpl. by rewrite Hlen, Hmass.
    + rewrite ToBuffer_member_mismatch by congruence. split; [by eexists | done].
  - unfold SetQuadratureWeights. destruct (Nat.eqb_spec (length wg) m) as [Hlen|Hlen].
    + rewrite ToBuffer_member_ok by congruence. split; [done|]. cbn [snd].
      destruct Hs as (Hn & Hm & Hsizes & Hcap). unfold as_declared. split_and!; try done.
      rewrite <- Hsizes. unfold sizes_as_declared. simpl. by rewrite Hlen, Hwg.
    + rewrite ToBuffer_member_mismatch by congruence. split; [by eexists | done].
  - destruct (Nat.eqb_spec (length GVTn) (length GVTilocal)) as [Hlen|Hlen]; cbn [andb].
    + rewrite SetVertexTetrahedronAdjacencyList_same_size by done. rewrite Hprefix.
      destruct (Nat.eqb_spec (length GVTp) (n + 1)) as [Hp|Hp].
      * split; [done|]. cbn [snd].
        destruct Hs as (Hn & Hm & Hsizes & Hcap). unfold as_declared. split_and!; try done.
        rewrite <- Hsizes. unfold sizes_as_declared. simpl. by rewrite Hp, Hprefix.
      * split; [by eexists | done].
    + unfold SetVertexTetrahedronAdjacencyList.
      destruct (Nat.eqb_spec (length GVTn) (length GVTilocal)); [done|].
      split; [by eexists | done].
  - destruct (SetVertexPartitions_returns partitions s) as ([] & s' & -> & ->).
    split; [done|]. exact Hs.
Qed.

Lemma configured_as_declared (Xin : Matrix GpuScalar) (Vin Fin Tin : Matrix Z)
    (cs : list (Setter GpuScalar)) :
  length (row Xin 1) = cols Xin → length (row Xin 2) = cols Xin →
  as_declared (cols Xin) (cols Tin) (configured Xin Vin Fin Tin cs).
Proof.
  intros H1 H2. unfold configured.
  generalize (VbdImpl_init_as_declared Xin Vin Fin Tin H1 H2).
  generalize (VbdImpl_init Xin Vin Fin Tin). intros s Hs.
  revert s Hs. induction cs as [|c cs IH]; intros s Hs; [done|].
  cbn [foldl]. apply IH. by apply run_setter_as_declared.
Qed.


End ConfigurationFacts.

(** ** Further worked examples in exact arithmetic *)

Section ExactEdgeFacts.
Import geometry vbd spec Exact.
Local Open Scope obj_scope.

(** [Build] on the four points, with room for five boxes: the simplices
    come out in the order of their codes 1, 1, 2, 3, the two of code 1 in
    the order of their indices; the fifth entry holds its own index, and its
    code is untouched. *)
Lemma Build_sorted_example :
  let q := this (snd (@Build Q QOps SortingKernels points vertices 0%Q
                        (mkQuery (BvhQueryImpl_init 5 0) []))) in
  simplex q = [1; 3; 2; 0; 4] ∧ morton q = [1; 1; 2; 3; 0] ∧
  d0 (b q) = [1; 1; 2; 3; 0]%Q.
Proof. vm_compute. by split_and!. Qed.

(** The mesh of quadratic triangles on the unit square: nine nodes, the
    three on the diagonal shared by the two elements. *)
Lemma Mesh_init_example :
  let mesh := @fem.Mesh_init Q Triangle2 interpolate square triangles in
  fem.E mesh = [[0; 1; 2; 3; 4; 5]; [2; 6; 7; 4; 8; 5]] ∧
  fem.X mesh = [[0; 0]; [Qmake 1 2; 0]; [1; 0]; [0; Qmake 1 2]; [Qmake 1 2; Qmake 1 2];
                [0; 1]; [1; Qmake 1 2]; [1; 1]; [Qmake 1 2; 1]]%Q.
Proof. vm_compute. by split. Qed.

(** X1, a witness.  The falling body, stepped with no substep. *)
Lemma Step_without_substeps_witness :
  0 ≤ 0 ∧
  Step (Qmake 1 100) 10 0 (Qmake 1 2) (mkRun falling [])
  = (inr tt, mkRun falling [MakeCurrent; Synchronize]).
Proof.
  split; [lia|].
  exact (@Step_without_substeps Q QOps ToyKernels (Qmake 1 100) 10 0 (Qmake 1 2)
           (mkRun falling []) ltac:(lia)).
Defined.

(** X2, a witness.  The falling body, a substep without iterations: the
    initial guess of the example is the previous position, so vertex 0
    stays at the origin. *)
Lemma Substep_without_iterations_witness :
  0 ≤ 0 ∧ Sized 2 falling ∧
  FromBuffers
    (x (X (object_after
             (Substep true 2 0 (Qmake 1 100) (Qmake 1 10000) (Qmake 1 2)) falling))) 0
  = (0, 0, 0)%Q.
Proof.
  assert (Sized (NumberOfPoints (X falling)) falling) as HS by (vm_compute; done).
  split; [lia|]. split; [exact HS|].
  etransitivity;
    [exact (proj1 (@Substep_without_iterations Q QOps ToyKernels true 0 (Qmake 1 100)
                     (Qmake 1 10000) (Qmake 1 2) falling 0%nat ltac:(lia) HS
                     ltac:(vm_compute; lia)))|].
  vm_compute. reflexivity.
Defined.

(** X4, a witness.  The falling body keeps its two vertices over a step. *)
Lemma Step_preserves_sizes_witness :
  Sized 2 falling ∧
  Sized 2 (object_after (Step (Qmake 1 100) 3 1 (Qmake 1 2)) falling).
Proof.
  assert (Sized (NumberOfPoints (X falling)) falling) as HS by (vm_compute; done).
  split; [exact HS|].
  exact (proj2 (@Step_preserves_sizes Q QOps ToyKernels (Qmake 1 100) 3 1 (Qmake 1 2)
                  falling HS)).
Defined.

(** X6, a witness.  Four simplices handed to a query allocated for five
    boxes: the fifth entry holds its own index. *)
Lemma Build_sorts_boxes_witness :
  allocated_for 5 (BvhQueryImpl_init (GpuScalar := Q) 5 0) ∧
  simplex (this (snd (@Build Q QOps SortingKernels points vertices 0%Q
                        (mkQuery (BvhQueryImpl_init 5 0) [])))) !! 4%nat
  = Some 4.
Proof.
  assert (allocated_for 5 (BvhQueryImpl_init (GpuScalar := Q) 5 0)) as HA
    by (vm_compute; done).
  split; [exact HA|].
  exact (proj1 (proj2 (proj2 (@Build_sorts_boxes Q QOps SortingKernels points vertices 0%Q
                                (mkQuery (BvhQueryImpl_init 5 0) []) 5%nat HA
                                ltac:(vm_compute; lia)))
                  4%nat ltac:(vm_compute; lia))).
Defined.

(** X12, a witness.  Node 4 of the second triangle of the square. *)
Lemma Mesh_init_indices_witness :
  ∃ node, E_at (fem.E (fem.Mesh_init interpolate square triangles)) 1 4 = Some node ∧
          0 ≤ node < 9.
Proof.
  exact (proj2 (@Mesh_init_indices Q Triangle2 interpolate square triangles 1%nat 4%nat
                  ltac:(vm_compute; lia) ltac:(vm_compute; lia))).
Defined.

(** X13, a witness.  The third node of the first triangle and the first
    node of the second are vertex 1 of the square: one entry, equal keys. *)
Lemma Mesh_init_shares_nodes_witness :
  fem.operator_eq (node_key triangles 0 2) (node_key triangles 1 0) = true.
Proof.
  exact (proj1 (@Mesh_init_shares_nodes Q Triangle2 interpolate square triangles
                  0%nat 2%nat 1%nat 0%nat
                  ltac:(vm_compute; lia) ltac:(vm_compute; lia)
                  ltac:(vm_compute; lia) ltac:(vm_compute; lia))
           ltac:(vm_compute; reflexivity)).
Defined.

(** X14, a witness.  The last node of the square is used by an element. *)
Lemma Mesh_init_nodes_used_witness :
  ∃ c i, (c < 2)%nat ∧ (i < 6)%nat ∧
         E_at (fem.E (fem.Mesh_init interpolate square triangles)) c i = Some 8 ∧
         fem.X (fem.Mesh_init interpolate square triangles) !! 8%nat
         = Some (node_position interpolate square triangles c i).
Proof.
  exact (@Mesh_init_nodes_used Q Triangle2 interpolate square triangles 8%nat
           ltac:(vm_compute; lia)).
Defined.

(** X16, a witness.  The body of two vertices and one tetrahedron. *)
Lemma VbdImpl_init_sizes_witness : sizes_as_declared body = true.
Proof.
  exact (proj1 (proj2 (@VbdImpl_init_sizes Q QOps Xin [[0; 1]]%Z [] Tin eq_refl eq_refl))).
Defined.

(** X18, a witness.  The falling body after a step of one substep and three
    iterations: the velocity of vertex 0 is that of its displacement from
    the snapshot, (0, 0, -(7/8) * 9.81e-2). *)
Lemma Step_final_state_witness :
  0 < 1 ∧ Sized 2 falling ∧
  FromBuffers (mVelocities (object_after (Step (Qmake 1 100) 3 1 (Qmake 1 2)) falling)) 0
  = (0, 0, Qmake (-6867) 80000)%Q.
Proof.
  assert (Sized (NumberOfPoints (X falling)) falling) as HS by (vm_compute; done).
  split; [lia|]. split; [exact HS|].
  etransitivity;
    [exact (proj1 (@Step_final_state Q QOps ToyKernels (Qmake 1 100) 3 1 (Qmake 1 2)
                     falling 0%nat ltac:(lia) HS ltac:(vm_compute; lia)))|].
  vm_compute. reflexivity.
Defined.



End ExactEdgeFacts.
